(** * Fuzzy join: a shallow embedding of [fuzzy_join.py]

    The notebook scores every pair of a left and a right address column with
    an edit distance, stores the scores in a dict keyed by the text
    [f"{s1} _and_ {s2}"], turns the dict into a table, splits the key back
    into two columns, keeps per left address the row of least distance, and
    joins the result onto the two original tables.

    Strings are [string] (one [ascii] per code point below 256), Python ints
    are [Z], a dict is an association list in insertion order with unique
    keys, a table is the list of its rows, and a pandas call that raises is
    a [Raise].  The two library functions the notebook leans on are
    parameters: the edit distance [damerau_levenshtein], and the [argsort]
    behind [sort_values] with its default kind.  The definitions come
    first, then the lemmas about them, then the properties of the notebook
    that the specification states, then further properties read off its
    cells. *)

From Stdlib Require Import String Ascii List ZArith Lia Bool Arith.
From Stdlib Require Import Permutation Sorted OrderedTypeEx.
Import ListNotations.

Local Open Scope string_scope.
Local Open Scope list_scope.

(** ** Python strings *)

Module PyStr.

(** [s[n:]] *)
Fixpoint drop (n : nat) (s : string) : string :=
  match n, s with
  | O, _ => s
  | S _, EmptyString => EmptyString
  | S n', String _ s' => drop n' s'
  end.

(** [sub in s] *)
Fixpoint contains (sub s : string) : bool :=
  prefix sub s ||
  match s with
  | EmptyString => false
  | String _ s' => contains sub s'
  end.

(** [s.partition(sep)] without the middle component: the text before and
    after the leftmost occurrence of [sep], [None] when there is none. *)
Fixpoint partition (sep s : string) : option (string * string) :=
  if prefix sep s then Some (EmptyString, drop (String.length sep) s)
  else match s with
       | EmptyString => None
       | String c s' =>
           match partition sep s' with
           | Some (b, a) => Some (String c b, a)
           | None => None
           end
       end.

(** [s.split(sep)]: cut at the leftmost occurrence, go on in the rest.  Each
    cut consumes at least one character of a non-empty separator, so
    [length s] rounds are enough ([split_fuel_enough]). *)
Fixpoint split_fuel (fuel : nat) (sep s : string) : list string :=
  match fuel with
  | O => [s]
  | S fuel' =>
      match partition sep s with
      | None => [s]
      | Some (b, a) => b :: split_fuel fuel' sep a
      end
  end.

Definition split (sep s : string) : list string :=
  split_fuel (String.length s) sep s.

(** [c.isspace()] for a code point below 256: tab to carriage return, the
    four separators 0x1c-0x1f, space, NEL and the no-break space. *)
Definition isspace (c : ascii) : bool :=
  let n := nat_of_ascii c in
  (((9 <=? n) && (n <=? 13)) || ((28 <=? n) && (n <=? 32))
   || (n =? 133) || (n =? 160))%nat.

Fixpoint lstrip (s : string) : string :=
  match s with
  | EmptyString => EmptyString
  | String c s' => if isspace c then lstrip s' else s
  end.

Fixpoint rstrip (s : string) : string :=
  match s with
  | EmptyString => EmptyString
  | String c s' =>
      match rstrip s' with
      | EmptyString => if isspace c then EmptyString else String c EmptyString
      | r => String c r
      end
  end.

(** [s.strip()] *)
Definition strip (s : string) : string := rstrip (lstrip s).

End PyStr.

(** ** The dict of scores *)

(** The separator the key is split on, and the key the loop builds. *)
Definition sep : string := "_and_".

Definition key_of (s1 s2 : string) : string := s1 ++ " _and_ " ++ s2.

(** A text that can stand in a key: it holds no separator. *)
Definition clean (s : string) : Prop := PyStr.contains sep s = false.

(** A dict from text to int, in insertion order. *)
Definition dict := list (string * Z).

(** [d[k] = v]: an existing key keeps its place and takes the new value, a
    new key goes to the end. *)
Fixpoint dict_set (k : string) (v : Z) (d : dict) : dict :=
  match d with
  | [] => [(k, v)]
  | (k', v') :: d' =>
      if String.eqb k k' then (k', v) :: d' else (k', v') :: dict_set k v d'
  end.

Fixpoint dict_get (k : string) (d : dict) : option Z :=
  match d with
  | [] => None
  | (k', v') :: d' => if String.eqb k k' then Some v' else dict_get k d'
  end.

Definition keys (d : dict) : list string := map fst d.

(** [d.update(items)]: the assignments of [items], one after the other. *)
Definition dict_update (d : dict) (items : list (string * Z)) : dict :=
  fold_left (fun d kv => dict_set (fst kv) (snd kv) d) items d.

(** Equal keys carry equal values. *)
Definition functional (items : list (string * Z)) : Prop :=
  forall k v v', In (k, v) items -> In (k, v') items -> v = v'.

(** The elements of a list in the order they are first seen, one per key:
    the order of the keys of a dict filled from the list. *)
Fixpoint first_seen {A : Type} (key : A -> string) (l : list A) : list A :=
  match l with
  | [] => []
  | x :: l' =>
      x :: filter (fun y => negb (String.eqb (key y) (key x)))
                  (first_seen key l')
  end.

(** [y] has another key than [x]. *)
Definition differs {A : Type} (key : A -> string) (x y : A) : bool :=
  negb (String.eqb (key y) (key x)).

(** No key of [ks] is the key of [y]. *)
Definition not_among {A : Type} (key : A -> string) (ks : list string)
  (y : A) : bool :=
  negb (existsb (String.eqb (key y)) ks).

(** The distinct values of a column, in order of appearance. *)
Definition unique (l : list string) : list string :=
  first_seen (fun s => s) l.

Section Scoring.

(** [textdistance.damerau_levenshtein], a pure function of its two texts. *)
Variable damerau_levenshtein : string -> string -> Z.

(** The inner loop [for s2 in arr2], run on the dict [d]. *)
Definition score_row (s1 : string) (arr2 : list string) (d : dict) : dict :=
  fold_left
    (fun d s2 => dict_set (key_of s1 s2) (damerau_levenshtein s1 s2) d)
    arr2 d.

(** The two nested loops, run on the dict [d]. *)
Definition score_into (arr1 arr2 : list string) (d : dict) : dict :=
  fold_left (fun d s1 => score_row s1 arr2 d) arr1 d.

(** The assignments the two loops make, in the order they make them. *)
Definition assignments (arr1 arr2 : list string) : list (string * Z) :=
  flat_map
    (fun s1 => map (fun s2 => (key_of s1 s2, damerau_levenshtein s1 s2)) arr2)
    arr1.

(** [dl_dist_func]: a fresh dict, the two loops, the dict returned.  The
    cell that builds the notebook-level [dl_dist] runs the same loops. *)
Definition dl_dist_func (arr1 arr2 : list string) : dict :=
  score_into arr1 arr2 [].

End Scoring.

(** ** Tables *)

(** What a pandas call raises here: the [ValueError] of a column assignment
    whose number of names differs from the number of columns. *)
Inductive exn : Type :=
| ValueError_length_mismatch (expected new_values : nat).

Inductive res (A : Type) : Type :=
| Ok (a : A)
| Raise (e : exn).

Arguments Ok {A} a.
Arguments Raise {A} e.

Definition bind {A B : Type} (r : res A) (f : A -> res B) : res B :=
  match r with
  | Ok a => f a
  | Raise e => Raise e
  end.

Notation "x <- r ;; k" := (bind r (fun x => k))
  (at level 61, r at next level, right associativity).

(** [df.columns = names] on a table of [have] columns. *)
Definition set_columns {A : Type} (have : nat) (names : list string) (df : A)
  : res A :=
  if (have =? List.length names)%nat then Ok df
  else Raise (ValueError_length_mismatch have (List.length names)).

(** The columns of [pd.DataFrame.from_dict(d, orient="index").reset_index()]:
    the keys become the column [index]; the values are the only data column,
    [0], and an empty dict has no data column at all. *)
Definition from_dict_columns (d : dict) : list string :=
  match d with
  | [] => ["index"]
  | _ :: _ => ["index"; "0"]
  end.

(** [dl_dist_df_raw]: one row per dict item, in dict order, renamed to
    [addresses] and [dist]. *)
Definition dl_dist_df_raw (d : dict) : res (list (string * Z)) :=
  set_columns (List.length (from_dict_columns d)) ["addresses"; "dist"] d.

(** A row of [dl_dist_df_proc].  [address_2] is [None] where the split of
    that row produced a single piece. *)
Record ProcRow : Type := mkProcRow {
  address_1 : string;
  address_2 : option string;
  dist : Z
}.

(** [str.split(pat="_and_", expand=True)] makes as many columns as the
    longest split has pieces. *)
Definition split_width (raw : list (string * Z)) : nat :=
  list_max (map (fun kv => List.length (PyStr.split sep (fst kv))) raw).

Definition proc_row (kv : string * Z) : ProcRow :=
  let pieces := PyStr.split sep (fst kv) in
  {| address_1 := hd EmptyString pieces;
     address_2 := nth_error pieces 1;
     dist := snd kv |}.

(** [dl_dist_df_proc]: the split key renamed to [address_1], [address_2],
    with the [dist] column of the raw table attached. *)
Definition dl_dist_df_proc (raw : list (string * Z)) : res (list ProcRow) :=
  set_columns (split_width raw) ["address_1"; "address_2"] (map proc_row raw).

(** The two tidying cells, from the dict to [dl_dist_df_proc]. *)
Definition table_of_dict (d : dict) : res (list ProcRow) :=
  raw <- dl_dist_df_raw d ;;
  dl_dist_df_proc raw.

(** The row of [dl_dist_df_proc] that a pair of separator-free texts ends
    up as: the split leaves the blanks of the key on the two pieces. *)
Definition pair_row (metric : string -> string -> Z) (s1 s2 : string)
  : ProcRow :=
  {| address_1 := (s1 ++ " ")%string;
     address_2 := Some (" " ++ s2)%string;
     dist := metric s1 s2 |}.

(** The table of the cross product of two columns of such texts. *)
Definition cross_rows (metric : string -> string -> Z)
  (arr1 arr2 : list string) : list ProcRow :=
  flat_map (fun s1 => map (pair_row metric s1) arr2) arr1.

(** ** Selection of the best match *)

(** [Index.take]: the rows at the given positions. *)
Definition take {A : Type} (idx : list nat) (l : list A) : list A :=
  flat_map (fun i => match nth_error l i with Some x => [x] | None => [] end)
           idx.

(** The order of Python on texts: code point by code point, a proper
    prefix first. *)
Definition lts : string -> string -> Prop := String_as_OT.lt.

(** The sorted distinct group keys of [groupby(..., sort=True)]. *)
Fixpoint insert_key (k : string) (l : list string) : list string :=
  match l with
  | [] => [k]
  | k' :: l' =>
      match String.compare k k' with
      | Lt => k :: l
      | Eq => l
      | Gt => k' :: insert_key k l'
      end
  end.

Definition group_keys (df : list ProcRow) : list string :=
  fold_right insert_key [] (map address_1 df).

(** The rows of one group, in table order. *)
Definition get_group (df : list ProcRow) (k : string) : list ProcRow :=
  filter (fun r => String.eqb (address_1 r) k) df.

(** The groups in key order. *)
Definition groups_of (df : list ProcRow) : list (list ProcRow) :=
  map (get_group df) (group_keys df).

(** The piece kept of a group is its first row after sorting; it carries
    the index of the whole group exactly when the group is that one row. *)
Definition transform_like (groups : list (list ProcRow)) : bool :=
  forallb (fun g => (List.length g =? 1)%nat) groups.

Section Selection.

(** [numpy.argsort] of the [dist] column with the default [kind]: the
    positions of the values in ascending order of value. *)
Variable argsort : list Z -> list nat.

(** [df.sort_values("dist", ascending=True)] *)
Definition sort_values_dist (df : list ProcRow) : list ProcRow :=
  take (argsort (map dist df)) df.

(** The lambda applied to each group. *)
Definition best_of_group (df : list ProcRow) : list ProcRow :=
  firstn 1 (sort_values_dist df).

(** [groupby("address_1", group_keys=False).apply(...).reset_index(drop=True)].
    The pieces are concatenated in key order.  When every piece has the
    index of its group, here when every group is one row, pandas takes the
    result for a transform and puts it back in the order of the table. *)
Definition groupby_apply (df : list ProcRow) : list ProcRow :=
  let groups := groups_of df in
  if transform_like groups then df else flat_map best_of_group groups.

(** The selection cell on the dict it starts from. *)
Definition select_best (d : dict) : res (list ProcRow) :=
  proc <- table_of_dict d ;;
  Ok (groupby_apply proc).

Section Pipeline.

Variable damerau_levenshtein : string -> string -> Z.

(** The scored pairs as a table, [dl_dist_df_proc] of the notebook, from
    the dict that the loops give. *)
Definition scored_pairs (arr1 arr2 : list string) : res (list ProcRow) :=
  table_of_dict (dl_dist_func damerau_levenshtein arr1 arr2).

(** [dl_dist_fin] as the selection cell leaves it, from the dict that the
    loops give. *)
Definition dl_dist_fin (arr1 arr2 : list string) : res (list ProcRow) :=
  select_best (dl_dist_func damerau_levenshtein arr1 arr2).

End Pipeline.

End Selection.


(** ** Sorting kinds *)

(** [argsort] sorts the column [l]: it returns the positions of [l], each
    once, in ascending order of value.  Every sort kind promises this. *)
Definition sorts (argsort : list Z -> list nat) (l : list Z) : Prop :=
  Permutation (argsort l) (seq 0 (List.length l)) /\
  StronglySorted (fun i j => (nth i l 0 <= nth j l 0)%Z) (argsort l).

(** [argsort] keeps the ties of [l]: equal values stay in the order they
    came in.  Only a stable kind promises this. *)
Definition keeps_ties (argsort : list Z -> list nat) (l : list Z) : Prop :=
  StronglySorted (fun i j => nth i l 0%Z = nth j l 0%Z -> i < j) (argsort l).

Definition is_argsort (argsort : list Z -> list nat) : Prop :=
  forall l, sorts argsort l.

Definition is_stable (argsort : list Z -> list nat) : Prop :=
  forall l, keeps_ties argsort l.

(** Position [i] goes before position [j] in a stable sort: by value, then
    by position. *)
Definition before (vals : list Z) (i j : nat) : Prop :=
  (nth i vals 0 < nth j vals 0)%Z
  \/ (nth i vals 0%Z = nth j vals 0%Z /\ i < j).

(** A stable kind ([kind="stable"]): insertion of each position before the
    first later position of an equal or larger value. *)
Fixpoint insert_pos (vals : list Z) (i : nat) (sorted : list nat)
  : list nat :=
  match sorted with
  | [] => [i]
  | j :: rest =>
      if (nth i vals 0 <=? nth j vals 0)%Z then i :: sorted
      else j :: insert_pos vals i rest
  end.

Definition stable_argsort (vals : list Z) : list nat :=
  fold_right (insert_pos vals) [] (seq 0 (List.length vals)).

(** A kind that sorts and is not stable: the positions are inserted from
    the first to the last, each before the first position of an equal or
    larger value, so that equal values come out in the reverse of their
    order.  The default [kind="quicksort"] of [sort_values] promises the
    ascending order and nothing about equal values. *)
Definition ties_reversed_argsort (vals : list Z) : list nat :=
  fold_left (fun sorted i => insert_pos vals i sorted)
            (seq 0 (List.length vals)) [].

(** ** An edit distance for the worked inputs *)

(** The restricted Damerau-Levenshtein distance (insertion, deletion,
    substitution and transposition of two neighbours, each counting one),
    the default of [damerau_levenshtein].  The texts of the tie example
    are one or two substitutions apart, whichever variant counts. *)
Fixpoint osa (s : string) : string -> nat :=
  fix inner (t : string) : nat :=
    match s, t with
    | EmptyString, _ => String.length t
    | _, EmptyString => String.length s
    | String a s', String b t' =>
        let sub := (osa s' t' + if Ascii.eqb a b then 0 else 1)%nat in
        let del := S (osa s' t) in
        let ins := S (inner t') in
        let best := Nat.min sub (Nat.min del ins) in
        match s', t' with
        | String a' s'', String b' t'' =>
            if Ascii.eqb a b' && Ascii.eqb a' b
            then Nat.min best (S (osa s'' t''))
            else best
        | _, _ => best
        end
    end.

Definition dl (s t : string) : Z := Z.of_nat (osa s t).

(** ** The joins onto the original tables *)

Section Joins.

(** The columns of [data1] and [data2] other than [Address]. *)
Context {Cols : Type}.

Record DataRow : Type := mkDataRow {
  Address : string;
  cols : Cols
}.

(** [data["Address"] = data["Address"].str.strip()] *)
Definition strip_Address (data : list DataRow) : list DataRow :=
  map (fun r => {| Address := PyStr.strip (Address r); cols := cols r |})
      data.

(** [dl_dist_fin["address_1"] = dl_dist_fin["address_1"].str.strip()] *)
Definition strip_address_1 (fin : list ProcRow) : list ProcRow :=
  map (fun r => {| address_1 := PyStr.strip (address_1 r);
                   address_2 := address_2 r;
                   dist := dist r |})
      fin.

(** A row of [data_both]: a row of [dl_dist_fin] with the columns of the
    row of [data1] it met, null when it met none. *)
Definition BothRow : Type := (option DataRow * ProcRow)%type.

(** [pd.merge(left=data1, right=dl_dist_fin, how="right",
    left_on="Address", right_on="address_1")]: every row of the right
    table, once per row of the left table with its key, once with nulls
    when there is none. *)
Definition merge_right (data1 : list DataRow) (fin : list ProcRow)
  : list BothRow :=
  flat_map
    (fun r =>
       match filter (fun l => String.eqb (Address l) (address_1 r)) data1 with
       | [] => [(None, r)]
       | met => map (fun l => (Some l, r)) met
       end)
    fin.

(** [data_both["address_2"] = data_both["address_2"].str.strip()] *)
Definition strip_address_2 (both : list BothRow) : list BothRow :=
  map (fun b =>
         (fst b,
          {| address_1 := address_1 (snd b);
             address_2 := option_map PyStr.strip (address_2 (snd b));
             dist := dist (snd b) |}))
      both.

(** Whether a row of [data_both] and a row of [data2] have the same key. *)
Definition key_meets (b : BothRow) (r : DataRow) : bool :=
  match address_2 (snd b) with
  | Some a => String.eqb a (Address r)
  | None => false
  end.

(** [pd.merge(left=data_both, right=data2, how="left",
    left_on="address_2", right_on="Address")]: every row of the left
    table, once per row of the right table with its key, once with nulls
    when there is none. *)
Definition merge_left (both : list BothRow) (data2 : list DataRow)
  : list (BothRow * option DataRow) :=
  flat_map
    (fun b =>
       match filter (key_meets b) data2 with
       | [] => [(b, None)]
       | met => map (fun r => (b, Some r)) met
       end)
    both.

(** [data_both] and [data_fin] as the notebook builds them from the two
    tables and the selected rows. *)
Definition data_both (data1 : list DataRow) (fin : list ProcRow)
  : list BothRow :=
  strip_address_2 (merge_right (strip_Address data1) (strip_address_1 fin)).

Definition data_fin (data1 data2 : list DataRow) (fin : list ProcRow)
  : list (BothRow * option DataRow) :=
  merge_left (data_both data1 fin) (strip_Address data2).

End Joins.

Arguments DataRow Cols : clear implicits.
Arguments BothRow Cols : clear implicits.

(** ** The parallel variant *)

Section Parallel.

Variable damerau_levenshtein : string -> string -> Z.

(** [Parallel()(delayed(dl_dist_func)(arr1, arr2) for arr1, arr2 in tasks)]:
    the dicts the calls return, in the order of the tasks. *)
Definition Parallel_delayed (tasks : list (list string * list string))
  : list dict :=
  map (fun t => dl_dist_func damerau_levenshtein (fst t) (snd t)) tasks.

(** [dl_dist_par]: [zip] pairs the one left column with the one right
    column, so there is one task. *)
Definition dl_dist_par (data1 data2 : list string) : list dict :=
  Parallel_delayed (combine [data1] [data2]).

(** Modelled from the spec: the split of the left column into chunks, which
    the notebook never makes.  Each chunk is paired with the whole right
    column. *)
Definition chunk_tasks (chunks : list (list string)) (arr2 : list string)
  : list (list string * list string) :=
  map (fun chunk => (chunk, arr2)) chunks.

(** Modelled from the spec: the concatenation of the chunk results, which
    the notebook never makes.  The results are the dicts [dl_dist_func]
    returns and the tidying cell reads one dict, so they are put together
    as dicts are, chunk after chunk. *)
Definition concat_results (results : list dict) : dict :=
  fold_left dict_update results [].

(** *** The names a call can see, and the workers *)

(** The notebook-level names the scoring cells bind. *)
Record Globals : Type := mkGlobals {
  g_dl_dist : dict;
  g_dl_dist_par : list dict
}.

(** The first scoring cell from [dl_dist = {}] on: it binds the
    notebook-level [dl_dist] to a fresh dict and fills it. *)
Definition cell_dl_dist (g : Globals) (data1 data2 : list string) : Globals :=
  {| g_dl_dist := score_into damerau_levenshtein data1 data2 [];
     g_dl_dist_par := g_dl_dist_par g |}.

(** A call of [dl_dist_func] in the state [g]: [dl_dist = {}] in its body
    makes [dl_dist] a name of the call, bound to a fresh dict; the loops
    fill that dict and the call returns it.  No notebook-level name is
    assigned. *)
Definition call_dl_dist_func (g : Globals) (arr1 arr2 : list string)
  : Globals * dict :=
  let dl_dist : dict := [] in
  let dl_dist := score_into damerau_levenshtein arr1 arr2 dl_dist in
  (g, dl_dist).

(** [results[i] = x] *)
Fixpoint store {A : Type} (i : nat) (x : A) (slots : list (option A))
  {struct slots} : list (option A) :=
  match slots, i with
  | [], _ => []
  | _ :: rest, O => Some x :: rest
  | y :: rest, S i' => y :: store i' x rest
  end.

(** A worker takes task [i], makes the call and stores what it returns at
    position [i] of the results. *)
Definition run_task (tasks : list (list string * list string))
  (st : Globals * list (option dict)) (i : nat)
  : Globals * list (option dict) :=
  match nth_error tasks i with
  | Some (arr1, arr2) =>
      let '(g, d) := call_dl_dist_func (fst st) arr1 arr2 in
      (g, store i d (snd st))
  | None => st
  end.

(** [Parallel] with the tasks taken up in the order [schedule]. *)
Definition Parallel_scheduled (schedule : list nat) (g : Globals)
  (tasks : list (list string * list string))
  : Globals * list (option dict) :=
  fold_left (run_task tasks) schedule
            (g, repeat None (List.length tasks)).

End Parallel.

(** ** Worked inputs *)

(** The columns of the worked examples. *)
Definition left_ex : list string := ["1 Oak"; "2 Elm"; "1 Oak"].

Definition right_ex : list string := ["1 Oak St"; "2 Elm Rd"; "3 Ash"].

(** The right column of the tie example: "ab" and then "ac" are one edit
    away from "aa", the two texts before them two. *)
Definition right_ties : list string := ["bb"; "cc"; "ab"; "ac"].

(** The tables of the join example: the matched value " 2 Elm Rd" is
    trimmed to "2 Elm Rd", an address the right table does not hold. *)
Definition data1_ex : list (DataRow nat) :=
  [ {| Address := "1 Oak"; cols := 10 |};
    {| Address := "2 Elm"; cols := 20 |} ].

Definition data2_ex : list (DataRow nat) :=
  [ {| Address := "1 Oak St "; cols := 7 |};
    {| Address := "3 Ash"; cols := 9 |} ].

Definition fin_ex : list ProcRow :=
  [ {| address_1 := "1 Oak "; address_2 := Some " 1 Oak St"; dist := 3 |};
    {| address_1 := "2 Elm "; address_2 := Some " 2 Elm Rd"; dist := 3 |} ].

Definition both_ex_1 : BothRow nat :=
  (Some {| Address := "1 Oak"; cols := 10 |},
   {| address_1 := "1 Oak"; address_2 := Some "1 Oak St"; dist := 3 |}).

Definition both_ex_2 : BothRow nat :=
  (Some {| Address := "2 Elm"; cols := 20 |},
   {| address_1 := "2 Elm"; address_2 := Some "2 Elm Rd"; dist := 3 |}).

(** The notebook-level names before any cell has run. *)
Definition globals_ex : Globals := {| g_dl_dist := []; g_dl_dist_par := [] |}.

(** ** The cells around the pipeline *)

(** [df.head(n)], and the slice [[:n]] of a list: the first [n] rows, and
    for a negative [n] all rows but the last [-n]. *)
Definition head {A : Type} (n : Z) (df : list A) : list A :=
  if (0 <=? n)%Z then firstn (Z.to_nat n) df
  else firstn (List.length df - Z.to_nat (- n)) df.

(** What the cells outside the selection can raise: the [MergeError] of a
    merge whose suffixes make two labels of one side equal, the [KeyError]
    of a label that is not there, of a column of a table or of a row of a
    column, and the [IndexError] of [pop] on an empty list. *)
Inductive cell_exn : Type :=
| MergeError
| KeyError
| IndexError_pop_from_empty_list.

Inductive outcome (A : Type) : Type :=
| Done (a : A)
| Fails (e : cell_exn).

Arguments Done {A} a.
Arguments Fails {A} e.

(** *** The scoring cell from its first statement *)

(** [data["Address"][0]]: the entry under the label 0, which a table read
    from file gives to its first row.  A column without rows has no such
    label. *)
Definition first_Address (column : list string) : outcome string :=
  match column with
  | [] => Fails KeyError
  | s :: _ => Done s
  end.

Section ScoringCell.

Variable damerau_levenshtein : string -> string -> Z.

(** The first scoring cell.  Its first statement takes the first address
    of [data1], then the first address of [data2] ([str] leaves a text as
    it is), and computes their distance, which is not kept.  Then come
    [dl_dist = {}] and the loops, which are [cell_dl_dist]. *)
Definition scoring_cell (g : Globals) (data1 data2 : list string)
  : outcome Globals :=
  match first_Address data1 with
  | Fails e => Fails e
  | Done s1 =>
      match first_Address data2 with
      | Fails e => Fails e
      | Done s2 =>
          let _ := damerau_levenshtein s1 s2 in
          Done (cell_dl_dist damerau_levenshtein g data1 data2)
      end
  end.

End ScoringCell.

(** A run of the cells from the top stops at the first cell that raises:
    in the scoring cell, or in the cells that build the tables. *)
Inductive run (A : Type) : Type :=
| Completes (a : A)
| Stops_in_scoring (e : cell_exn)
| Stops_in_tables (e : exn).

Arguments Completes {A} a.
Arguments Stops_in_scoring {A} e.
Arguments Stops_in_tables {A} e.

(** The run from the scoring cell to the selection cell: the tidying cells
    read the notebook-level [dl_dist] that the scoring cell has bound. *)
Definition run_dl_dist_fin (argsort : list Z -> list nat)
  (damerau_levenshtein : string -> string -> Z) (g : Globals)
  (data1 data2 : list string) : run (list ProcRow) :=
  match scoring_cell damerau_levenshtein g data1 data2 with
  | Fails e => Stops_in_scoring e
  | Done g' =>
      match select_best argsort (g_dl_dist g') with
      | Ok recs => Completes recs
      | Raise e => Stops_in_tables e
      end
  end.

(** *** The rows after the trimming cells *)

(** A row of [data1] or [data2] once its [Address] is trimmed. *)
Definition trim_row {Cols : Type} (r : DataRow Cols) : DataRow Cols :=
  {| Address := PyStr.strip (Address r); cols := cols r |}.

(** A row of [dl_dist_fin] once [address_1] and then [address_2] are
    trimmed. *)
Definition trim_rec (r : ProcRow) : ProcRow :=
  {| address_1 := PyStr.strip (address_1 r);
     address_2 := option_map PyStr.strip (address_2 r);
     dist := dist r |}.

(** *** The whole run *)

Section Notebook.

Context {Cols : Type}.

Variable argsort : list Z -> list nat.
Variable damerau_levenshtein : string -> string -> Z.

(** The cells from the scoring loops to the second join, run once from top
    to bottom on the two tables: the loops read the [Address] columns as
    they come, the selection gives [dl_dist_fin], and the joins trim and
    merge.  It starts at the loops; what the first statement of the scoring
    cell does before them is in [scoring_cell]. *)
Definition fuzzy_join (data1 data2 : list (DataRow Cols))
  : res (list (BothRow Cols * option (DataRow Cols))) :=
  fin <- dl_dist_fin argsort damerau_levenshtein
           (map Address data1) (map Address data2) ;;
  Ok (data_fin data1 data2 fin).

End Notebook.

(** *** Column labels *)

Module Columns.

(** [s.endswith(suffix)] *)
Definition endswith (suffix s : string) : bool :=
  (String.length suffix <=? String.length s)%nat &&
  String.eqb (PyStr.drop (String.length s - String.length suffix) s) suffix.

(** [s.endswith(pat)] for a tuple [pat]: one of its suffixes fits. *)
Definition endswith_any (pat : list string) (s : string) : bool :=
  existsb (fun suffix => endswith suffix s) pat.

(** A label that ends in neither suffix of a merge. *)
Definition plain (c : string) : Prop := endswith_any ["_x"; "_y"] c = false.

(** [c in cols] *)
Definition mem (c : string) (cols : list string) : bool :=
  existsb (String.eqb c) cols.

(** [Index.duplicated()]: whether the label stands at an earlier position
    too. *)
Fixpoint duplicated_from (seen cols : list string) : list bool :=
  match cols with
  | [] => []
  | c :: cols' => mem c seen :: duplicated_from (c :: seen) cols'
  end.

Definition duplicated (cols : list string) : list bool :=
  duplicated_from [] cols.

(** The renamer of one side of a merge: a label that the other side has
    too takes the suffix. *)
Definition rename (other : list string) (suffix : string)
  (cols : list string) : list string :=
  map (fun c => if mem c other then (c ++ suffix)%string else c) cols.

(** The labels the suffixes made duplicates: duplicated after the renaming
    where the label before it was not. *)
Definition caused_dups (orig renamed : list string) : list string :=
  map fst
      (filter (fun x => fst (snd x) && negb (snd (snd x)))
              (combine renamed
                       (combine (duplicated renamed) (duplicated orig)))).

(** The columns of [pd.merge(left, right, left_on=..., right_on=...)] with
    two different key labels and the default suffixes: both keys must be
    there; the columns of the left table come first, then those of the
    right; a label of both tables is told apart by [_x] and [_y]. *)
Definition merge_columns (left right : list string)
  (left_on right_on : string) : outcome (list string) :=
  if mem left_on left && mem right_on right then
    let llabels := rename right "_x" left in
    let rlabels := rename left "_y" right in
    match caused_dups left llabels ++ caused_dups right rlabels with
    | [] => Done (llabels ++ rlabels)
    | _ :: _ => Fails MergeError
    end
  else Fails KeyError.

(** The columns of [dl_dist_fin]. *)
Definition fin_columns : list string := ["address_1"; "address_2"; "dist"].

(** The columns of [data_both] and of [data_fin], from those of the two
    tables read from file. *)
Definition data_both_columns (columns1 : list string)
  : outcome (list string) :=
  merge_columns columns1 fin_columns "Address" "address_1".

Definition data_fin_columns (columns1 columns2 : list string)
  : outcome (list string) :=
  match data_both_columns columns1 with
  | Done both => merge_columns both columns2 "address_2" "Address"
  | Fails e => Fails e
  end.

(** [columns.str.endswith(pat=("_x", "_y"))] *)
Definition suffix_mask (columns : list string) : list bool :=
  map (endswith_any ["_x"; "_y"]) columns.

(** [columns[mask]] *)
Definition select_mask (mask : list bool) (columns : list string)
  : list string :=
  map snd (filter fst (combine mask columns)).

(** [df.drop(columns=labels)]: every label must be a column; the columns
    with one of the labels go. *)
Definition drop_columns (labels columns : list string)
  : outcome (list string) :=
  if forallb (fun l => mem l columns) labels
  then Done (filter (fun c => negb (mem c labels)) columns)
  else Fails KeyError.

(** The columns of the table the last cell of the join shows. *)
Definition shown_columns (columns : list string) : outcome (list string) :=
  drop_columns (select_mask (suffix_mask columns) columns) columns.

End Columns.

(** *** The cells that show the dicts *)

(** [l.pop()]: the last element, and the list without it. *)
Definition pop {A : Type} (l : list A) : outcome (A * list A) :=
  match rev l with
  | [] => Fails IndexError_pop_from_empty_list
  | x :: r => Done (x, rev r)
  end.

Section Showing.

Variable damerau_levenshtein : string -> string -> Z.

(** The parallel cell: it binds the notebook-level [dl_dist_par]. *)
Definition cell_dl_dist_par (g : Globals) (data1 data2 : list string)
  : Globals :=
  {| g_dl_dist := g_dl_dist g;
     g_dl_dist_par := dl_dist_par damerau_levenshtein data1 data2 |}.

End Showing.

(** [list(dl_dist_par.pop().items())[:10]]: the list [dl_dist_par] loses
    the dict that is shown. *)
Definition cell_show_dl_dist_par (g : Globals)
  : outcome (list (string * Z) * Globals) :=
  match pop (g_dl_dist_par g) with
  | Done (d, rest) =>
      Done (head 10 d, {| g_dl_dist := g_dl_dist g; g_dl_dist_par := rest |})
  | Fails e => Fails e
  end.

(** *** Further worked inputs *)

(** Two left and two right texts of which one each holds the separator:
    the pair of the firsts and the pair of the seconds make the same key. *)
Definition left_sep : list string := ["a"; "a _and_ b"].

Definition right_sep : list string := ["b _and_ c"; "c"].

(** The tables of the worked run. *)
Definition table1_ex : list (DataRow nat) :=
  [ {| Address := "ab "; cols := 1 |};
    {| Address := "cd"; cols := 2 |} ].

Definition table2_ex : list (DataRow nat) :=
  [ {| Address := " ab"; cols := 5 |};
    {| Address := "ce"; cols := 6 |} ].

(** What the selection and the whole run give on them: "ab " is two
    edits from " ab", "cd" is one edit from "ce". *)
Definition fin_run_ex : list ProcRow :=
  [ {| address_1 := "ab  "; address_2 := Some "  ab"; dist := 2 |};
    {| address_1 := "cd "; address_2 := Some " ce"; dist := 1 |} ].

Definition run_ex : list (BothRow nat * option (DataRow nat)) :=
  [ ((Some {| Address := "ab"; cols := 1 |},
      {| address_1 := "ab"; address_2 := Some "ab"; dist := 2 |}),
     Some {| Address := "ab"; cols := 5 |});
    ((Some {| Address := "cd"; cols := 2 |},
      {| address_1 := "cd"; address_2 := Some "ce"; dist := 1 |}),
     Some {| Address := "ce"; cols := 6 |}) ].

(** The column labels of two tables that share [Address] and [Name]. *)
Definition columns1_ex : list string := ["Address"; "Name"; "Phone"].

Definition columns2_ex : list string := ["Name"; "Address"; "City"].
(** * Properties *)

(** ** Splitting a key *)

Module PyStrFacts.
Import PyStr.
Local Open Scope string_scope.

Lemma append_assoc (s t u : string) : (s ++ t) ++ u = s ++ t ++ u.
Proof. induction s as [|c s IH]; simpl; [reflexivity | now rewrite IH]. Qed.

Lemma prefix_nil (s : string) : prefix "" s = true.
Proof. now destruct s. Qed.

Lemma prefix_cons (a : ascii) (p : string) (b : ascii) (s : string) :
  prefix (String a p) (String b s) =
  if ascii_dec a b then prefix p s else false.
Proof. reflexivity. Qed.

Lemma prefix_cons_nil (a : ascii) (p : string) :
  prefix (String a p) "" = false.
Proof. reflexivity. Qed.

Lemma prefix_length (p s : string) :
  prefix p s = true -> String.length p <= String.length s.
Proof.
  revert s; induction p as [|a p IH]; intros [|b s]; simpl; try lia;
    try discriminate.
  destruct (ascii_dec a b); [|discriminate].
  intros H; apply IH in H; lia.
Qed.

(** Only the first [length p] characters of a text decide whether [p] is
    a prefix of it. *)
Lemma prefix_app_long (p s t : string) :
  String.length p <= String.length s -> prefix p (s ++ t) = prefix p s.
Proof.
  revert s; induction p as [|a p IH]; intros [|b s]; simpl; intros Hlen;
    rewrite ?prefix_nil; try reflexivity; try lia.
  destruct (ascii_dec a b); [apply IH; lia | reflexivity].
Qed.

Lemma prefix_app (p s t : string) :
  prefix p s = true -> prefix p (s ++ t) = true.
Proof.
  intros H. rewrite prefix_app_long; [exact H | now apply prefix_length].
Qed.

Lemma prefix_self_app (p t : string) : prefix p (p ++ t) = true.
Proof.
  induction p as [|a p IH]; simpl; [apply prefix_nil|].
  destruct (ascii_dec a a); [exact IH | congruence].
Qed.

Lemma drop_app_long (n : nat) (s t : string) :
  n <= String.length s -> drop n (s ++ t) = drop n s ++ t.
Proof.
  revert s; induction n as [|n IH]; intros [|b s]; simpl; intros Hlen;
    try reflexivity; try lia.
  apply IH. lia.
Qed.

Lemma drop_length (n : nat) (s : string) :
  String.length (drop n s) = String.length s - n.
Proof.
  revert s; induction n as [|n IH]; intros [|b s]; simpl; try lia.
  apply IH.
Qed.

Lemma contains_prefix (p s : string) :
  prefix p s = true -> contains p s = true.
Proof. destruct s; simpl; intros ->; reflexivity. Qed.

Lemma contains_cons (p : string) (c : ascii) (s : string) :
  contains p (String c s) = prefix p (String c s) || contains p s.
Proof. reflexivity. Qed.

Lemma contains_app_r (p s t : string) :
  contains p t = true -> contains p (s ++ t) = true.
Proof.
  intros H. induction s as [|c s IH]; [exact H|].
  simpl append. rewrite contains_cons, IH. apply orb_true_r.
Qed.

Lemma contains_nil (p : string) : contains p "" = prefix p "".
Proof. unfold contains. apply orb_false_r. Qed.

Lemma partition_nil (p : string) :
  partition p "" = if prefix p "" then Some ("", drop (String.length p) "")
                   else None.
Proof. reflexivity. Qed.

Lemma partition_cons (p : string) (c : ascii) (s : string) :
  partition p (String c s) =
  if prefix p (String c s)
  then Some ("", drop (String.length p) (String c s))
  else match partition p s with
       | Some (b, a) => Some (String c b, a)
       | None => None
       end.
Proof. reflexivity. Qed.

(** [partition] finds a separator exactly when [contains] sees one. *)
Lemma partition_none_iff (p s : string) :
  partition p s = None <-> contains p s = false.
Proof.
  induction s as [|c s IH].
  - rewrite contains_nil, partition_nil.
    destruct (prefix p ""); simpl; split; congruence.
  - rewrite contains_cons, partition_cons.
    destruct (prefix p (String c s)); simpl; [split; congruence|].
    destruct (partition p s) as [[b a]|]; [|tauto].
    split; [discriminate|]. intros H. apply IH in H. discriminate.
Qed.

Lemma partition_some_iff (p s : string) :
  (exists ba, partition p s = Some ba) <-> contains p s = true.
Proof.
  split.
  - intros [ba H]. destruct (contains p s) eqn:E; [reflexivity|].
    apply partition_none_iff in E. congruence.
  - intros H. destruct (partition p s) as [ba|] eqn:E; [now exists ba|].
    apply partition_none_iff in E. congruence.
Qed.

Lemma partition_length (p s b a : string) :
  partition p s = Some (b, a) ->
  String.length p <= String.length s /\
  String.length a <= String.length s - String.length p.
Proof.
  revert b; induction s as [|c s IH]; intros b;
    rewrite ?partition_nil, ?partition_cons.
  - destruct (prefix p "") eqn:E; [|discriminate].
    intros H; inversion H; subst. apply prefix_length in E.
    rewrite drop_length. lia.
  - destruct (prefix p (String c s)) eqn:E.
    + intros H; inversion H; subst. apply prefix_length in E.
      rewrite drop_length. lia.
    + destruct (partition p s) as [[b' a']|] eqn:E'; [|discriminate].
      intros H; inversion H; subst. destruct (IH _ eq_refl) as [H1 H2].
      change (String.length (String c s)) with (S (String.length s)). lia.
Qed.

(** The leftmost separator of [s] is still the leftmost one of [s ++ t]. *)
Lemma partition_some_app (p s t b a : string) :
  partition p s = Some (b, a) -> partition p (s ++ t) = Some (b, a ++ t).
Proof.
  revert b; induction s as [|c s IH]; intros b;
    rewrite ?partition_nil, ?partition_cons.
  - destruct (prefix p "") eqn:E; [|discriminate].
    intros H; inversion H; subst. destruct p; [|discriminate].
    simpl. destruct t; reflexivity.
  - destruct (prefix p (String c s)) eqn:E.
    + intros H; inversion H; subst.
      change (String c s ++ t) with (String c (s ++ t)).
      rewrite partition_cons.
      change (String c (s ++ t)) with (String c s ++ t).
      rewrite (prefix_app _ _ _ E).
      rewrite drop_app_long; [reflexivity | now apply prefix_length].
    + destruct (partition p s) as [[b' a']|] eqn:E'; [|discriminate].
      intros H; inversion H; subst.
      change (String c s ++ t) with (String c (s ++ t)).
      rewrite partition_cons.
      change (String c (s ++ t)) with (String c s ++ t).
      rewrite prefix_app_long, E.
      * now rewrite (IH _ eq_refl).
      * apply partition_length in E'. simpl. lia.
Qed.

(** More fuel than the text is long changes nothing. *)
Lemma split_fuel_enough (p : string) (n : nat) (s : string) :
  p <> "" -> String.length s <= n ->
  split_fuel n p s = split p s.
Proof.
  intros Hp. unfold split.
  remember (String.length s) as m eqn:Hm.
  revert n s Hm. induction m as [m IH] using lt_wf_ind. intros n s Hm Hn.
  destruct n as [|n].
  - assert (m = 0) by lia. subst m. rewrite H. reflexivity.
  - destruct m as [|m].
    + destruct s; [|discriminate]. simpl.
      destruct p; [congruence | reflexivity].
    + simpl. destruct (partition p s) as [[b a]|] eqn:E; [|reflexivity].
      f_equal. apply partition_length in E.
      assert (0 < String.length p) by (destruct p; [congruence | simpl; lia]).
      rewrite (IH (String.length a)) by lia.
      symmetry. apply (IH (String.length a)); lia.
Qed.

Lemma split_unfold (p s : string) :
  p <> "" ->
  split p s = match partition p s with
              | None => [s]
              | Some (b, a) => b :: split p a
              end.
Proof.
  intros Hp. unfold split at 1.
  destruct (String.length s) as [|n] eqn:E.
  - destruct s; [|discriminate]. simpl.
    destruct p; [congruence | reflexivity].
  - simpl. destruct (partition p s) as [[b a]|] eqn:E'; [|reflexivity].
    f_equal. apply split_fuel_enough; [exact Hp|].
    apply partition_length in E'. destruct p; [congruence|]. simpl in *. lia.
Qed.

End PyStrFacts.

(** ** The key and its separator *)

Module KeyFacts.
Import PyStr PyStrFacts.
Local Open Scope string_scope.

Lemma sep_nonempty : sep <> "".
Proof. discriminate. Qed.

Lemma key_of_assoc (s1 s2 : string) :
  key_of s1 s2 = (s1 ++ " ") ++ sep ++ " " ++ s2.
Proof. unfold key_of, sep. now rewrite append_assoc. Qed.

Lemma key_of_contains (s1 s2 : string) : contains sep (key_of s1 s2) = true.
Proof.
  rewrite key_of_assoc. apply contains_app_r, contains_prefix,
    prefix_self_app.
Qed.

(** The separator has no blank in it, so no occurrence of it can reach
    over the blank that follows the left text. *)
Lemma sep_not_across_blank (x rest : string) :
  contains sep x = false -> prefix sep (x ++ String " " rest) = false.
Proof.
  intros H.
  assert (Hp : prefix sep x = false).
  { destruct x; [reflexivity|].
    rewrite contains_cons in H. now apply orb_false_elim in H. }
  clear H. revert Hp. unfold sep.
  destruct x as [|a [|b [|c [|d [|e x]]]]]; cbn [append];
    repeat (rewrite ?prefix_cons, ?prefix_cons_nil, ?prefix_nil;
            try match goal with
              | |- context [ascii_dec ?u ?v] =>
                  destruct (ascii_dec u v); try discriminate
              end);
    auto.
Qed.

Lemma sep_not_at_blank (rest : string) :
  prefix sep (String " " rest) = false.
Proof. reflexivity. Qed.

(** The first cut of a key falls right behind the left text when the left
    text holds no separator. *)
Lemma partition_key (s1 s2 : string) :
  contains sep s1 = false ->
  partition sep (key_of s1 s2) = Some (s1 ++ " ", " " ++ s2).
Proof.
  unfold key_of. induction s1 as [|c s1 IH]; intros H.
  - reflexivity.
  - rewrite contains_cons in H. apply orb_false_elim in H as [Hp Hc].
    change (String c s1 ++ " _and_ " ++ s2)
      with (String c (s1 ++ " _and_ " ++ s2)).
    rewrite partition_cons.
    change (String c (s1 ++ " _and_ " ++ s2))
      with (String c s1 ++ String " " ("_and_ " ++ s2)).
    rewrite sep_not_across_blank.
    + change (s1 ++ String " " ("_and_ " ++ s2))
        with (s1 ++ " _and_ " ++ s2).
      now rewrite (IH Hc).
    + rewrite contains_cons, Hp, Hc. reflexivity.
Qed.

Lemma contains_blank_cons (s : string) :
  contains sep (String " " s) = contains sep s.
Proof. rewrite contains_cons, sep_not_at_blank. reflexivity. Qed.

(** A key built from two texts without separator splits into the left text
    followed by a blank and the right text preceded by one. *)
Lemma split_key (s1 s2 : string) :
  contains sep s1 = false -> contains sep s2 = false ->
  split sep (key_of s1 s2) = [s1 ++ " "; " " ++ s2].
Proof.
  intros H1 H2.
  rewrite (split_unfold _ _ sep_nonempty), (partition_key _ _ H1).
  rewrite (split_unfold _ _ sep_nonempty).
  assert (E : partition sep (" " ++ s2) = None).
  { apply partition_none_iff. simpl append.
    now rewrite contains_blank_cons. }
  now rewrite E.
Qed.

(** A text with a separator in it costs the key a third piece. *)
Lemma split_key_long (s1 s2 : string) :
  contains sep s1 = true \/ contains sep s2 = true ->
  3 <= List.length (split sep (key_of s1 s2)).
Proof.
  intros H.
  assert (Hcut : exists b a, partition sep (key_of s1 s2) = Some (b, a)
                             /\ contains sep a = true).
  { destruct (contains sep s1) eqn:E1.
    - apply partition_some_iff in E1 as [[b a] E].
      exists b, (a ++ " _and_ " ++ s2). split.
      + unfold key_of. now apply partition_some_app.
      + apply contains_app_r.
        apply (key_of_contains "" s2).
    - destruct H as [H|H]; [discriminate|].
      exists (s1 ++ " "), (" " ++ s2). split.
      + now apply partition_key.
      + simpl append. now rewrite contains_blank_cons. }
  destruct Hcut as (b & a & Hp & Ha).
  rewrite (split_unfold _ _ sep_nonempty), Hp.
  rewrite (split_unfold _ _ sep_nonempty).
  apply partition_some_iff in Ha as [[b' a'] E]. rewrite E.
  rewrite (split_unfold _ _ sep_nonempty).
  destruct (partition sep a') as [[? ?]|]; simpl; lia.
Qed.

(** Every key has at least two pieces. *)
Lemma split_key_two (s1 s2 : string) :
  2 <= List.length (split sep (key_of s1 s2)).
Proof.
  pose proof (key_of_contains s1 s2) as H.
  apply partition_some_iff in H as [[b a] E].
  rewrite (split_unfold _ _ sep_nonempty), E.
  rewrite (split_unfold _ _ sep_nonempty).
  destruct (partition sep a) as [[? ?]|]; simpl; lia.
Qed.

Lemma split_key_width (s1 s2 : string) :
  List.length (split sep (key_of s1 s2)) = 2 <->
  contains sep s1 = false /\ contains sep s2 = false.
Proof.
  split.
  - intros H. destruct (contains sep s1) eqn:E1.
    + pose proof (split_key_long s1 s2 (or_introl E1)). lia.
    + destruct (contains sep s2) eqn:E2; [|tauto].
      pose proof (split_key_long s1 s2 (or_intror E2)). lia.
  - intros [H1 H2]. now rewrite split_key.
Qed.

Lemma append_blank_inj (s t : string) : s ++ " " = t ++ " " -> s = t.
Proof.
  revert t; induction s as [|c s IH]; intros [|d t]; simpl; intros H;
    try reflexivity.
  - inversion H. destruct t; discriminate.
  - inversion H. destruct s; discriminate.
  - inversion H. f_equal. now apply IH.
Qed.

(** Keys of separator-free texts are distinct for distinct pairs. *)
Lemma key_of_inj (s1 s2 t1 t2 : string) :
  contains sep s1 = false -> contains sep t1 = false ->
  key_of s1 s2 = key_of t1 t2 -> s1 = t1 /\ s2 = t2.
Proof.
  intros Hs Ht E.
  pose proof (partition_key s1 s2 Hs) as P1.
  pose proof (partition_key t1 t2 Ht) as P2.
  rewrite E, P2 in P1. inversion P1 as [[Ha Hb]].
  split; [symmetry; now apply append_blank_inj | congruence].
Qed.

End KeyFacts.

(** ** Trimming *)

Module StripFacts.
Import PyStr.
Local Open Scope string_scope.

Lemma lstrip_cons (c : ascii) (s : string) :
  lstrip (String c s) = if isspace c then lstrip s else String c s.
Proof. reflexivity. Qed.

Lemma rstrip_app_blank (s : string) : rstrip (s ++ " ") = rstrip s.
Proof.
  induction s as [|c s IH]; [reflexivity|].
  cbn [append rstrip]. now rewrite IH.
Qed.

Lemma strip_cons (c : ascii) (s : string) :
  strip (String c s) = if isspace c then strip s else rstrip (String c s).
Proof. unfold strip. rewrite lstrip_cons. now destruct (isspace c). Qed.

(** A blank added on the right is trimmed away. *)
Lemma strip_app_blank (s : string) : strip (s ++ " ") = strip s.
Proof.
  induction s as [|c s IH]; [reflexivity|].
  cbn [append]. rewrite !strip_cons.
  destruct (isspace c); [exact IH|].
  change (String c (s ++ " ")) with (String c s ++ " ").
  apply rstrip_app_blank.
Qed.

(** A blank added on the left is trimmed away. *)
Lemma strip_blank_app (s : string) : strip (" " ++ s) = strip s.
Proof. reflexivity. Qed.

End StripFacts.

(** ** Dicts *)

Module DictFacts.

Lemma eqb_false_sym (a b : string) :
  String.eqb a b = false -> String.eqb b a = false.
Proof. now rewrite String.eqb_sym. Qed.

Lemma dict_set_length (k : string) (v : Z) (d : dict) :
  List.length (dict_set k v d) <= S (List.length d).
Proof.
  induction d as [|[k' v'] d IH]; simpl; [lia|].
  destruct (String.eqb k k'); simpl; lia.
Qed.

Lemma dict_update_length (d : dict) (items : list (string * Z)) :
  List.length (dict_update d items) <= List.length d + List.length items.
Proof.
  revert d; induction items as [|[k v] items IH]; intros d; simpl; [lia|].
  specialize (IH (dict_set k v d)). pose proof (dict_set_length k v d).
  lia.
Qed.

Lemma dict_update_cons (d : dict) (k : string) (v : Z)
      (items : list (string * Z)) :
  dict_update d ((k, v) :: items) = dict_update (dict_set k v d) items.
Proof. reflexivity. Qed.

Lemma dict_update_nil (d : dict) : dict_update d [] = d.
Proof. reflexivity. Qed.

Lemma dict_update_app (d : dict) (xs ys : list (string * Z)) :
  dict_update d (xs ++ ys) = dict_update (dict_update d xs) ys.
Proof. apply fold_left_app. Qed.

Lemma dict_set_new (k : string) (v : Z) (d : dict) :
  ~ In k (keys d) -> dict_set k v d = d ++ [(k, v)].
Proof.
  induction d as [|[k' v'] d IH]; simpl; intros H; [reflexivity|].
  destruct (String.eqb_spec k k') as [->|Hne]; [tauto|].
  f_equal. apply IH. tauto.
Qed.

(** Assigning the value a key already has changes nothing. *)
Lemma dict_set_same (k : string) (v : Z) (d : dict) :
  In k (keys d) -> (forall v', In (k, v') d -> v' = v) -> dict_set k v d = d.
Proof.
  induction d as [|[k' v'] d IH]; simpl; intros Hin Hv; [tauto|].
  destruct (String.eqb_spec k k') as [->|Hne].
  - f_equal. f_equal. symmetry. apply Hv. now left.
  - f_equal. apply IH.
    + destruct Hin as [E|Hin]; [congruence | exact Hin].
    + intros v'' H. apply Hv. now right.
Qed.

Lemma dict_set_in_keys (k : string) (v : Z) (d : dict) :
  In k (keys (dict_set k v d)).
Proof.
  induction d as [|[k' v'] d IH]; simpl; [now left|].
  destruct (String.eqb_spec k k') as [->|Hne]; simpl; [now left | now right].
Qed.

Lemma dict_set_keys_other (k k' : string) (v : Z) (d : dict) :
  In k' (keys d) -> In k' (keys (dict_set k v d)).
Proof.
  induction d as [|[k0 v0] d IH]; simpl; intros Hin; [tauto|].
  destruct (String.eqb_spec k k0) as [->|Hne]; simpl; [exact Hin|].
  destruct Hin as [E|Hin]; [now left | right; now apply IH].
Qed.

Lemma dict_set_keys_inv (k k' : string) (v : Z) (d : dict) :
  In k' (keys (dict_set k v d)) -> k' = k \/ In k' (keys d).
Proof.
  induction d as [|[k0 v0] d IH]; simpl; intros Hin.
  - destruct Hin as [E|[]]; now left.
  - destruct (String.eqb_spec k k0) as [->|Hne]; simpl in Hin.
    + now right.
    + destruct Hin as [E|Hin]; [right; now left|].
      destruct (IH Hin) as [E|H]; [now left | right; now right].
Qed.

Lemma dict_set_NoDup (k : string) (v : Z) (d : dict) :
  NoDup (keys d) -> NoDup (keys (dict_set k v d)).
Proof.
  induction d as [|[k0 v0] d IH]; simpl; intros H.
  - constructor; [intros [] | constructor].
  - inversion H as [|? ? Hn Hd]; subst.
    destruct (String.eqb_spec k k0) as [->|Hne]; simpl.
    + constructor; assumption.
    + constructor; [|now apply IH].
      intros Hin. apply dict_set_keys_inv in Hin as [E|Hin];
        [congruence | tauto].
Qed.

Lemma dict_update_NoDup (d : dict) (items : list (string * Z)) :
  NoDup (keys d) -> NoDup (keys (dict_update d items)).
Proof.
  revert d; induction items as [|[k v] items IH]; intros d H; [exact H|].
  apply IH. now apply dict_set_NoDup.
Qed.

(** Writing a key twice leaves the second value. *)
Lemma dict_set_twice (k : string) (v v' : Z) (d : dict) :
  dict_set k v (dict_set k v' d) = dict_set k v d.
Proof.
  induction d as [|[k0 v0] d IH]; simpl.
  - now rewrite String.eqb_refl.
  - destruct (String.eqb_spec k k0) as [->|Hne]; simpl.
    + now rewrite String.eqb_refl.
    + apply String.eqb_neq in Hne. rewrite Hne. now rewrite IH.
Qed.

(** Writing a key that is already there commutes with writing another. *)
Lemma dict_set_comm (k k' : string) (v v' : Z) (d : dict) :
  k <> k' -> In k (keys d) ->
  dict_set k v (dict_set k' v' d) = dict_set k' v' (dict_set k v d).
Proof.
  intros Hne. induction d as [|[k0 v0] d IH]; simpl; intros Hin; [tauto|].
  destruct (String.eqb_spec k' k0) as [->|Hne'];
    destruct (String.eqb_spec k k0) as [->|Hne'']; simpl;
    rewrite ?String.eqb_refl; try congruence.
  - apply String.eqb_neq in Hne. now rewrite Hne.
  - apply String.eqb_neq, eqb_false_sym in Hne.
    destruct (String.eqb_spec k' k0); [congruence | reflexivity].
  - destruct (String.eqb_spec k k0); [congruence|].
    destruct (String.eqb_spec k' k0); [congruence|].
    f_equal. apply IH. destruct Hin as [E|Hin]; [congruence | exact Hin].
Qed.

Lemma dict_set_update_comm (k : string) (v : Z) (items : list (string * Z))
      (d : dict) :
  ~ In k (map fst items) -> In k (keys d) ->
  dict_set k v (dict_update d items) = dict_update (dict_set k v d) items.
Proof.
  revert d; induction items as [|[k' v'] items IH]; intros d Hn Hin;
    [reflexivity|].
  simpl in Hn. rewrite !dict_update_cons.
  rewrite IH; [| tauto | now apply dict_set_keys_other].
  rewrite dict_set_comm; [reflexivity | intros E; apply Hn; now left | exact Hin].
Qed.

(** Updating with a dict that took one more assignment is updating, then
    making that assignment. *)
Lemma dict_update_set (k : string) (v : Z) (d acc : dict) :
  NoDup (keys d) ->
  dict_update acc (dict_set k v d) = dict_set k v (dict_update acc d).
Proof.
  revert acc; induction d as [|[k0 v0] d IH]; intros acc Hd; [reflexivity|].
  inversion Hd as [|? ? Hn Hd']; subst.
  cbn [dict_set]. destruct (String.eqb_spec k k0) as [->|Hne].
  - rewrite !dict_update_cons.
    rewrite dict_set_update_comm;
      [| exact Hn | apply dict_set_in_keys].
    now rewrite dict_set_twice.
  - rewrite !dict_update_cons. now apply IH.
Qed.

(** Filling a fresh dict and merging it into [acc] is filling [acc]. *)
Lemma dict_update_fresh (acc : dict) (items : list (string * Z)) :
  dict_update acc (dict_update [] items) = dict_update acc items.
Proof.
  induction items as [|[k v] items IH] using rev_ind; [reflexivity|].
  rewrite !dict_update_app, !dict_update_cons, !dict_update_nil.
  rewrite dict_update_set; [now rewrite IH|].
  apply dict_update_NoDup. constructor.
Qed.

End DictFacts.

(** ** First occurrences *)

Module FirstSeen.

Section Generic.
Context {A : Type} (key : A -> string).

Lemma first_seen_cons (x : A) (l : list A) :
  first_seen key (x :: l) = x :: filter (differs key x) (first_seen key l).
Proof. reflexivity. Qed.

Lemma filter_and (P Q : A -> bool) (l : list A) :
  filter P (filter Q l) = filter (fun y => Q y && P y) l.
Proof.
  induction l as [|y l IH]; simpl; [reflexivity|].
  destruct (Q y); simpl; [destruct (P y)|]; now rewrite IH.
Qed.

Lemma filter_implied (P Q : A -> bool) (l : list A) :
  (forall y, In y l -> P y = true -> Q y = true) ->
  filter P (filter Q l) = filter P l.
Proof.
  intros H. rewrite filter_and. apply filter_ext_in. intros y Hy.
  specialize (H y Hy). destruct (P y), (Q y); try reflexivity.
  now specialize (H eq_refl).
Qed.

Lemma filter_all (P : A -> bool) (l : list A) :
  (forall y, In y l -> P y = true) -> filter P l = l.
Proof.
  induction l as [|y l IH]; simpl; intros H; [reflexivity|].
  rewrite (H y (or_introl eq_refl)). f_equal. apply IH. auto.
Qed.

Lemma not_among_nil (y : A) : not_among key [] y = true.
Proof. reflexivity. Qed.

Lemma not_among_cons (k : string) (ks : list string) (y : A) :
  not_among key (k :: ks) y
  = negb (String.eqb (key y) k) && not_among key ks y.
Proof. unfold not_among. simpl. apply negb_orb. Qed.

Lemma not_among_app (ks ks' : list string) (y : A) :
  not_among key (ks ++ ks') y = not_among key ks y && not_among key ks' y.
Proof. unfold not_among. rewrite existsb_app. apply negb_orb. Qed.

Lemma not_among_true (ks : list string) (y : A) :
  not_among key ks y = true <-> ~ In (key y) ks.
Proof.
  unfold not_among. rewrite negb_true_iff. split.
  - intros H Hin. assert (E : existsb (String.eqb (key y)) ks = true).
    { apply existsb_exists. exists (key y). split; [exact Hin|].
      apply String.eqb_refl. }
    congruence.
  - intros H. destruct (existsb (String.eqb (key y)) ks) eqn:E;
      [|reflexivity].
    apply existsb_exists in E as (k & Hk & E).
    apply String.eqb_eq in E. subst k. tauto.
Qed.

Lemma not_among_false (ks : list string) (y : A) :
  not_among key ks y = false <-> In (key y) ks.
Proof.
  pose proof (not_among_true ks y) as H.
  destruct (not_among key ks y); split; intros H'; try reflexivity;
    try discriminate.
  - exfalso. now apply (proj1 H).
  - destruct (in_dec string_dec (key y) ks) as [Hin|Hn]; [exact Hin|].
    apply H in Hn. discriminate.
Qed.

Lemma first_seen_incl (l : list A) (x : A) :
  In x (first_seen key l) -> In x l.
Proof.
  revert x; induction l as [|y l IH]; intros x; simpl; [tauto|].
  intros [E|H]; [now left|]. apply filter_In in H as [H _]. right. auto.
Qed.

Lemma first_seen_keys (l : list A) (k : string) :
  In k (map key (first_seen key l)) <-> In k (map key l).
Proof.
  induction l as [|y l IH]; simpl; [tauto|]. split.
  - intros [E|H]; [now left|]. right. apply IH.
    apply in_map_iff in H as (z & Ez & Hz). apply filter_In in Hz as [Hz _].
    apply in_map_iff. now exists z.
  - intros [E|H]; [now left|].
    destruct (string_dec (key y) k) as [E|Hne]; [now left|]. right.
    apply IH in H. apply in_map_iff in H as (z & Ez & Hz).
    apply in_map_iff. exists z. split; [exact Ez|].
    apply filter_In. split; [exact Hz|].
    unfold differs. apply negb_true_iff, String.eqb_neq. congruence.
Qed.

Lemma NoDup_map_filter (P : A -> bool) (l : list A) :
  NoDup (map key l) -> NoDup (map key (filter P l)).
Proof.
  induction l as [|z l IH]; cbn [map filter]; intros H; [constructor|].
  inversion H as [|? ? Hn Hd]; subst. destruct (P z); cbn [map]; [|auto].
  constructor; [|auto]. intros Hin. apply in_map_iff in Hin as (w & Ew & Hw).
  apply filter_In in Hw as [Hw _]. apply Hn. apply in_map_iff. now exists w.
Qed.

Lemma first_seen_NoDup (l : list A) : NoDup (map key (first_seen key l)).
Proof.
  induction l as [|y l IH]; cbn [first_seen map]; constructor.
  - intros H. apply in_map_iff in H as (z & Ez & Hz).
    apply filter_In in Hz as [_ Hz].
    apply negb_true_iff, String.eqb_neq in Hz. congruence.
  - now apply NoDup_map_filter.
Qed.

Lemma first_seen_app (l1 l2 : list A) :
  first_seen key (l1 ++ l2)
  = first_seen key l1
    ++ filter (not_among key (map key l1)) (first_seen key l2).
Proof.
  induction l1 as [|x l1 IH].
  - simpl. symmetry. apply filter_all. reflexivity.
  - cbn [app map]. rewrite !first_seen_cons, IH, filter_app. cbn [app].
    f_equal. f_equal. rewrite filter_and. apply filter_ext. intros y.
    rewrite not_among_cons. apply andb_comm.
Qed.

Lemma first_seen_self (l : list A) :
  NoDup (map key l) -> first_seen key l = l.
Proof.
  induction l as [|x l IH]; simpl; intros H; [reflexivity|].
  inversion H; subst. rewrite (IH H3). f_equal. apply filter_all.
  intros y Hy. apply negb_true_iff, String.eqb_neq. intros E.
  apply H2. rewrite <- E. now apply in_map.
Qed.

End Generic.

Lemma first_seen_map {A B : Type} (key : B -> string) (g : A -> B)
      (l : list A) :
  first_seen key (map g l) = map g (first_seen (fun x => key (g x)) l).
Proof.
  induction l as [|x l IH]; [reflexivity|].
  cbn [map first_seen]. rewrite IH. f_equal.
  generalize (first_seen (fun x0 => key (g x0)) l). intros l'.
  induction l' as [|y l' IH']; [reflexivity|].
  cbn [map filter]. destruct (negb (String.eqb (key (g y)) (key (g x))));
    cbn [map]; now rewrite IH'.
Qed.

Lemma first_seen_ext {A : Type} (key key' : A -> string) (l : list A) :
  (forall x y, In x l -> In y l -> (key x = key y <-> key' x = key' y)) ->
  first_seen key l = first_seen key' l.
Proof.
  induction l as [|x l IH]; intros H; [reflexivity|].
  cbn [first_seen]. rewrite IH.
  - f_equal. apply filter_ext_in. intros y Hy.
    apply first_seen_incl in Hy.
    specialize (H y x (or_intror Hy) (or_introl eq_refl)).
    destruct (String.eqb_spec (key y) (key x)) as [E|E];
      destruct (String.eqb_spec (key' y) (key' x)) as [E'|E'];
      try reflexivity; tauto.
  - intros a b Ha Hb. apply H; now right.
Qed.

Lemma unique_cons (s : string) (l : list string) :
  unique (s :: l) = s :: filter (fun y => negb (String.eqb y s)) (unique l).
Proof. reflexivity. Qed.

Lemma unique_NoDup (l : list string) : NoDup (unique l).
Proof.
  pose proof (first_seen_NoDup (fun s : string => s) l) as H.
  now rewrite map_id in H.
Qed.

Lemma unique_In (l : list string) (s : string) : In s (unique l) <-> In s l.
Proof.
  pose proof (first_seen_keys (fun s : string => s) l s) as H.
  now rewrite !map_id in H.
Qed.

End FirstSeen.

(** ** The scoring loops *)

Module ScoringFacts.
Import PyStr PyStrFacts KeyFacts DictFacts FirstSeen.

Lemma functional_incl (xs ys : list (string * Z)) :
  incl xs ys -> functional ys -> functional xs.
Proof. intros Hi Hf k v v' H H'. apply (Hf k); now apply Hi. Qed.

(** Filling a dict with assignments that never change a value appends the
    first occurrence of each new key. *)
Lemma dict_update_functional (d : dict) (items : list (string * Z)) :
  functional (d ++ items) ->
  dict_update d items
  = d ++ filter (not_among fst (keys d)) (first_seen fst items).
Proof.
  revert d; induction items as [|[k v] items IH]; intros d Hf.
  - simpl. now rewrite app_nil_r.
  - rewrite dict_update_cons, first_seen_cons. cbn [filter].
    destruct (not_among fst (keys d) (k, v)) eqn:E.
    + apply not_among_true in E. cbn [fst] in E.
      rewrite (dict_set_new _ _ _ E), IH.
      * rewrite <- app_assoc. cbn [app]. f_equal. f_equal.
        rewrite filter_and. apply filter_ext. intros y.
        unfold keys. rewrite map_app, not_among_app. cbn [map fst].
        rewrite not_among_cons, not_among_nil, andb_true_r.
        apply andb_comm.
      * eapply functional_incl; [|exact Hf].
        intros x Hx. apply in_app_iff in Hx as [Hx|Hx].
        -- apply in_app_iff in Hx as [Hx|[<-|[]]];
             apply in_app_iff; [now left | right; now left].
        -- apply in_app_iff. right. now right.
    + apply not_among_false in E. cbn [fst] in E.
      rewrite dict_set_same; [| exact E |].
      * rewrite IH.
        -- f_equal. symmetry. apply filter_implied. intros y _ Hy.
           apply not_among_true in Hy. unfold differs. cbn [fst].
           apply negb_true_iff, String.eqb_neq. intros Ek. congruence.
        -- eapply functional_incl; [|exact Hf].
           intros x Hx. apply in_app_iff in Hx as [Hx|Hx];
             apply in_app_iff; [now left | right; now right].
      * intros v' Hv'. apply (Hf k).
        -- apply in_app_iff. now left.
        -- apply in_app_iff. right. now left.
Qed.

Lemma dict_update_nil_iff (d : dict) (items : list (string * Z)) :
  dict_update d items = [] <-> d = [] /\ items = [].
Proof.
  split; [|intros [-> ->]; reflexivity].
  revert d; induction items as [|[k v] items IH]; intros d H; [tauto|].
  rewrite dict_update_cons in H. apply IH in H as [H _].
  destruct d as [|[k' v'] d]; simpl in H; [discriminate|].
  destruct (String.eqb k k'); discriminate.
Qed.

Lemma filter_flat_map {A B : Type} (P : B -> bool) (Q : A -> bool)
      (f : A -> list B) (l : list A) :
  (forall x, In x l -> Q x = true -> forall y, In y (f x) -> P y = true) ->
  (forall x, In x l -> Q x = false -> forall y, In y (f x) -> P y = false) ->
  filter P (flat_map f l) = flat_map f (filter Q l).
Proof.
  induction l as [|x l IH]; intros Ht Hf; [reflexivity|].
  cbn [flat_map filter]. rewrite filter_app, IH.
  - destruct (Q x) eqn:E; cbn [flat_map].
    + f_equal. apply filter_all. intros y Hy.
      now apply (Ht x (or_introl eq_refl) E).
    + assert (E' : filter P (f x) = []).
      { specialize (Hf x (or_introl eq_refl) E).
        induction (f x) as [|y ys IHy]; [reflexivity|]. cbn [filter].
        rewrite (Hf y (or_introl eq_refl)). apply IHy.
        intros z Hz. apply Hf. now right. }
      now rewrite E'.
  - intros z Hz. apply Ht. now right.
  - intros z Hz. apply Hf. now right.
Qed.

Lemma append_inj_l (s x y : string) : (s ++ x = s ++ y)%string -> x = y.
Proof.
  induction s as [|c s IH]; simpl; intros H; [exact H|].
  inversion H. auto.
Qed.

Lemma key_of_inj_r (s1 x y : string) : key_of s1 x = key_of s1 y -> x = y.
Proof.
  unfold key_of. intros H. apply append_inj_l in H.
  now apply (append_inj_l " _and_ ") in H.
Qed.

Section Loops.

Variable metric : string -> string -> Z.

Lemma score_row_update (s1 : string) (arr2 : list string) (d : dict) :
  score_row metric s1 arr2 d
  = dict_update d (map (fun s2 => (key_of s1 s2, metric s1 s2)) arr2).
Proof.
  revert d; induction arr2 as [|s2 arr2 IH]; intros d; [reflexivity|].
  cbn [map]. rewrite dict_update_cons, <- IH. reflexivity.
Qed.

(** The loops make their assignments in loop order. *)
Lemma score_into_update (arr1 arr2 : list string) (d : dict) :
  score_into metric arr1 arr2 d
  = dict_update d (assignments metric arr1 arr2).
Proof.
  revert d; induction arr1 as [|s1 arr1 IH]; intros d; [reflexivity|].
  cbn [assignments flat_map]. rewrite dict_update_app, <- score_row_update.
  apply IH.
Qed.

Lemma dl_dist_func_update (arr1 arr2 : list string) :
  dl_dist_func metric arr1 arr2
  = dict_update [] (assignments metric arr1 arr2).
Proof. apply score_into_update. Qed.

Lemma assignments_cons (s1 : string) (arr1 arr2 : list string) :
  assignments metric (s1 :: arr1) arr2
  = map (fun s2 => (key_of s1 s2, metric s1 s2)) arr2
    ++ assignments metric arr1 arr2.
Proof. reflexivity. Qed.

Lemma assignments_In (arr1 arr2 : list string) (kv : string * Z) :
  In kv (assignments metric arr1 arr2) <->
  exists s1 s2, In s1 arr1 /\ In s2 arr2
                /\ kv = (key_of s1 s2, metric s1 s2).
Proof.
  unfold assignments. rewrite in_flat_map. split.
  - intros (s1 & H1 & H). apply in_map_iff in H as (s2 & E & H2).
    exists s1, s2. auto.
  - intros (s1 & s2 & H1 & H2 & ->). exists s1. split; [exact H1|].
    apply in_map_iff. now exists s2.
Qed.

Lemma assignments_nil_iff (arr1 arr2 : list string) :
  assignments metric arr1 arr2 = [] <-> arr1 = [] \/ arr2 = [].
Proof.
  split.
  - destruct arr1 as [|s1 arr1]; [now left|].
    destruct arr2 as [|s2 arr2]; [now right | discriminate].
  - intros [->| ->]; [reflexivity|].
    induction arr1 as [|s1 arr1 IH]; [reflexivity | exact IH].
Qed.

Lemma assignments_length (arr1 arr2 : list string) :
  List.length (assignments metric arr1 arr2)
  = List.length arr1 * List.length arr2.
Proof.
  induction arr1 as [|s1 arr1 IH]; [reflexivity|].
  rewrite assignments_cons, length_app, length_map, IH. simpl. lia.
Qed.

(** The dict is empty exactly when one of the two columns is. *)
Lemma dl_dist_func_nil_iff (arr1 arr2 : list string) :
  dl_dist_func metric arr1 arr2 = [] <-> arr1 = [] \/ arr2 = [].
Proof.
  rewrite dl_dist_func_update, dict_update_nil_iff, assignments_nil_iff.
  tauto.
Qed.

Lemma assignments_functional (arr1 arr2 : list string) :
  Forall clean arr1 -> functional (assignments metric arr1 arr2).
Proof.
  intros Hc k v v' H H'.
  apply assignments_In in H as (s1 & s2 & H1 & H2 & E).
  apply assignments_In in H' as (t1 & t2 & H1' & H2' & E').
  inversion E; inversion E'; subst.
  rewrite Forall_forall in Hc.
  destruct (key_of_inj s1 s2 t1 t2) as [-> ->]; auto; now apply Hc.
Qed.

(** With separator-free left texts the dict holds the distinct pairs, in
    the order of the cross product of the distinct values. *)
Lemma first_seen_assignments (arr1 arr2 : list string) :
  Forall clean arr1 ->
  first_seen fst (assignments metric arr1 arr2)
  = assignments metric (unique arr1) (unique arr2).
Proof.
  induction arr1 as [|s1 arr1 IH]; intros Hc; [reflexivity|].
  inversion Hc as [|? ? Hs1 Hc']; subst.
  rewrite assignments_cons, first_seen_app, (IH Hc').
  rewrite unique_cons, assignments_cons. f_equal.
  - rewrite first_seen_map. f_equal. unfold unique.
    apply first_seen_ext. intros x y _ _. cbn [fst]. split.
    + apply key_of_inj_r.
    + now intros ->.
  - unfold assignments at 1.
    rewrite (filter_flat_map _ (fun y => negb (String.eqb y s1))).
    + reflexivity.
    + intros t1 Ht1 Hq y Hy. apply in_map_iff in Hy as (t2 & <- & Ht2).
      apply not_among_true. cbn [fst]. rewrite map_map. cbn [fst].
      intros Hin. apply in_map_iff in Hin as (s2 & E & Hs2).
      apply negb_true_iff, String.eqb_neq in Hq.
      apply key_of_inj in E as [E _]; [congruence | exact Hs1 |].
      rewrite Forall_forall in Hc'. apply Hc'. now apply unique_In.
    + intros t1 Ht1 Hq y Hy. apply in_map_iff in Hy as (t2 & <- & Ht2).
      apply not_among_false. cbn [fst]. rewrite map_map. cbn [fst].
      apply negb_false_iff, String.eqb_eq in Hq. subst t1.
      apply in_map_iff. exists t2. split; [reflexivity|].
      now apply unique_In.
Qed.

Lemma dl_dist_func_unique (arr1 arr2 : list string) :
  Forall clean arr1 ->
  dl_dist_func metric arr1 arr2
  = assignments metric (unique arr1) (unique arr2).
Proof.
  intros Hc. rewrite dl_dist_func_update, dict_update_functional.
  - cbn [app keys map]. rewrite filter_all; [|reflexivity].
    now apply first_seen_assignments.
  - now apply assignments_functional.
Qed.

End Loops.

End ScoringFacts.

(** ** Groups and their keys *)

Module GroupFacts.

Lemma compare_lt (a b : string) : String.compare a b = Lt <-> lts a b.
Proof. apply String_as_OT.cmp_lt. Qed.

Lemma compare_gt (a b : string) : String.compare a b = Gt <-> lts b a.
Proof.
  rewrite <- compare_lt, String.compare_antisym.
  destruct (String.compare b a); simpl; split; congruence.
Qed.

Lemma lts_irrefl (a : string) : ~ lts a a.
Proof.
  intros H. apply String_as_OT.lt_not_eq in H. apply H. reflexivity.
Qed.

Lemma insert_key_In (k x : string) (l : list string) :
  In x (insert_key k l) <-> x = k \/ In x l.
Proof.
  induction l as [|y l IH]; simpl; [intuition congruence|].
  destruct (String.compare k y) eqn:E; simpl.
  - apply String.compare_eq_iff in E. subst. intuition congruence.
  - intuition congruence.
  - rewrite IH. intuition congruence.
Qed.

Lemma insert_key_sorted (k : string) (l : list string) :
  StronglySorted lts l -> StronglySorted lts (insert_key k l).
Proof.
  induction l as [|y l IH]; simpl; intros H.
  - constructor; constructor.
  - inversion H as [|? ? Hs Hf]; subst.
    destruct (String.compare k y) eqn:E.
    + exact H.
    + apply compare_lt in E. constructor; [exact H|].
      constructor; [exact E|].
      rewrite Forall_forall in *. intros z Hz.
      eapply String_as_OT.lt_trans; [exact E | now apply Hf].
    + apply compare_gt in E. constructor; [now apply IH|].
      rewrite Forall_forall in *. intros z Hz.
      apply insert_key_In in Hz as [->|Hz]; [exact E | now apply Hf].
Qed.

Lemma group_keys_In (df : list ProcRow) (k : string) :
  In k (group_keys df) <-> In k (map address_1 df).
Proof.
  unfold group_keys. induction (map address_1 df) as [|y l IH]; simpl;
    [tauto|].
  rewrite insert_key_In, IH. intuition congruence.
Qed.

(** The group keys come in strictly ascending order. *)
Lemma group_keys_sorted (df : list ProcRow) :
  StronglySorted lts (group_keys df).
Proof.
  unfold group_keys. induction (map address_1 df) as [|y l IH]; simpl.
  - constructor.
  - now apply insert_key_sorted.
Qed.

Lemma sorted_NoDup (l : list string) : StronglySorted lts l -> NoDup l.
Proof.
  induction 1 as [|y l Hs IH Hf]; constructor; [|exact IH].
  intros Hin. rewrite Forall_forall in Hf. apply (lts_irrefl y). auto.
Qed.

Lemma group_keys_NoDup (df : list ProcRow) : NoDup (group_keys df).
Proof. apply sorted_NoDup, group_keys_sorted. Qed.

Lemma get_group_In (df : list ProcRow) (k : string) (r : ProcRow) :
  In r (get_group df k) <-> In r df /\ address_1 r = k.
Proof.
  unfold get_group. rewrite filter_In, String.eqb_eq. tauto.
Qed.

Lemma get_group_nonempty (df : list ProcRow) (k : string) :
  In k (group_keys df) -> get_group df k <> [].
Proof.
  intros H. apply group_keys_In, in_map_iff in H as (r & E & Hr).
  intros E'. assert (Hin : In r (get_group df k)) by now apply get_group_In.
  rewrite E' in Hin. destruct Hin.
Qed.

End GroupFacts.

(** ** Sorting a group *)

Module SortFacts.

Lemma StronglySorted_weaken {A : Type} (R R' : A -> A -> Prop) (l : list A) :
  (forall x y, R x y -> R' x y) -> StronglySorted R l -> StronglySorted R' l.
Proof.
  intros HR. induction 1 as [|x l Hs IH Hf]; constructor; [exact IH|].
  eapply Forall_impl; [|exact Hf]. intros y. apply HR.
Qed.

Lemma insert_pos_perm (vals : list Z) (i : nat) (s : list nat) :
  Permutation (insert_pos vals i s) (i :: s).
Proof.
  induction s as [|j s IH]; simpl; [reflexivity|].
  destruct (nth i vals 0 <=? nth j vals 0)%Z; [reflexivity|].
  rewrite IH. apply perm_swap.
Qed.

Lemma insert_pos_sorted (vals : list Z) (i : nat) (s : list nat) :
  StronglySorted (before vals) s -> Forall (fun j => i < j) s ->
  StronglySorted (before vals) (insert_pos vals i s).
Proof.
  induction s as [|j s IH]; simpl; intros Hs Hlt.
  - constructor; constructor.
  - inversion Hs as [|? ? Hs' Hf]; subst.
    inversion Hlt as [|? ? Hij Hlt']; subst.
    destruct (Z.leb_spec (nth i vals 0%Z) (nth j vals 0%Z)) as [Hle|Hgt].
    + constructor; [exact Hs|]. constructor.
      * unfold before. lia.
      * rewrite Forall_forall in *. intros k Hk.
        specialize (Hf k Hk). specialize (Hlt' k Hk). unfold before in *.
        lia.
    + constructor; [now apply IH|].
      rewrite Forall_forall in *. intros k Hk.
      apply (Permutation_in _ (insert_pos_perm vals i s)) in Hk.
      destruct Hk as [<-|Hk]; [unfold before; lia | now apply Hf].
Qed.

Lemma stable_argsort_from (vals : list Z) (n a : nat) :
  let s := fold_right (insert_pos vals) [] (seq a n) in
  Permutation s (seq a n) /\ StronglySorted (before vals) s.
Proof.
  revert a; induction n as [|n IH]; intros a; simpl.
  - split; constructor.
  - destruct (IH (S a)) as [Hp Hs]. split.
    + rewrite insert_pos_perm. now constructor.
    + apply insert_pos_sorted; [exact Hs|].
      rewrite Forall_forall. intros j Hj.
      apply (Permutation_in _ Hp), in_seq in Hj. lia.
Qed.

Lemma stable_argsort_is_argsort : is_argsort stable_argsort.
Proof.
  intros l. destruct (stable_argsort_from l (List.length l) 0) as [Hp Hs].
  split; [exact Hp|].
  eapply StronglySorted_weaken; [|exact Hs]. unfold before. intros; lia.
Qed.

Lemma stable_argsort_is_stable : is_stable stable_argsort.
Proof.
  intros l. destruct (stable_argsort_from l (List.length l) 0) as [Hp Hs].
  eapply StronglySorted_weaken; [|exact Hs]. unfold before. intros; lia.
Qed.

Lemma take_cons {A : Type} (i : nat) (rest : list nat) (g : list A) (x : A) :
  nth_error g i = Some x -> take (i :: rest) g = x :: take rest g.
Proof. intros H. unfold take. cbn [flat_map]. now rewrite H. Qed.

Lemma nth_dist (g : list ProcRow) (i : nat) (r : ProcRow) :
  nth_error g i = Some r -> nth i (map dist g) 0%Z = dist r.
Proof.
  intros H. rewrite (nth_indep _ 0%Z (dist r)).
  - rewrite map_nth. f_equal. now apply nth_error_nth.
  - rewrite length_map. apply nth_error_Some. congruence.
Qed.

Section Argsort.

Variable argsort : list Z -> list nat.

(** The sorted positions start with a position of least value. *)
Lemma argsort_head (l : list Z) :
  sorts argsort l -> l <> [] ->
  exists i rest,
    argsort l = i :: rest /\ i < List.length l /\
    (forall j, j < List.length l -> (nth i l 0 <= nth j l 0)%Z) /\
    (forall j, j < List.length l -> j = i \/ In j rest).
Proof.
  intros [Hp Hs] Hl.
  destruct (argsort l) as [|i rest] eqn:E.
  - apply Permutation_length in Hp. rewrite length_seq in Hp.
    destruct l; [congruence | discriminate].
  - exists i, rest.
    assert (Hi : i < List.length l).
    { apply (Permutation_in i) in Hp; [|now left]. apply in_seq in Hp. lia. }
    assert (Hall : forall j, j < List.length l -> j = i \/ In j rest).
    { intros j Hj. assert (Hin : In j (i :: rest)).
      { apply (Permutation_in j (Permutation_sym Hp)). apply in_seq. lia. }
      destruct Hin; [left; congruence | now right]. }
    inversion Hs as [|? ? Hs' Hf]; subst.
    repeat split; try assumption.
    intros j Hj. destruct (Hall j Hj) as [->|Hin]; [lia|].
    rewrite Forall_forall in Hf. now apply Hf.
Qed.

(** The row kept of a group has the least distance of the group. *)
Lemma best_of_group_min (g : list ProcRow) :
  sorts argsort (map dist g) -> g <> [] ->
  exists i rec,
    nth_error g i = Some rec /\ best_of_group argsort g = [rec] /\
    (forall r, In r g -> (dist rec <= dist r)%Z).
Proof.
  intros Hsort Hg.
  destruct (argsort_head (map dist g) Hsort) as (i & rest & E & Hi & Hmin & _).
  { destruct g; [congruence | discriminate]. }
  rewrite length_map in Hi, Hmin.
  destruct (nth_error g i) as [rec|] eqn:Er;
    [|apply nth_error_None in Er; lia].
  exists i, rec. split; [exact Er|]. split.
  - unfold best_of_group, sort_values_dist. rewrite E.
    now rewrite (take_cons _ _ _ _ Er).
  - intros r Hr. apply In_nth_error in Hr as [j Hj].
    assert (Hjl : j < List.length g) by (apply nth_error_Some; congruence).
    specialize (Hmin j Hjl).
    now rewrite (nth_dist _ _ _ Er), (nth_dist _ _ _ Hj) in Hmin.
Qed.

(** A sort that keeps ties keeps the first of the rows of least
    distance. *)
Lemma best_of_group_first (g : list ProcRow) :
  sorts argsort (map dist g) -> keeps_ties argsort (map dist g) -> g <> [] ->
  exists g1 rec g2,
    g = g1 ++ rec :: g2 /\ best_of_group argsort g = [rec] /\
    (forall r, In r g1 -> (dist rec < dist r)%Z) /\
    (forall r, In r g2 -> (dist rec <= dist r)%Z).
Proof.
  intros Hsort Hst Hg.
  destruct (argsort_head (map dist g) Hsort) as (i & rest & E & Hi & Hmin & Hall).
  { destruct g; [congruence | discriminate]. }
  rewrite length_map in Hi, Hmin, Hall.
  destruct (nth_error g i) as [rec|] eqn:Er;
    [|apply nth_error_None in Er; lia].
  pose proof Er as Hig.
  apply nth_error_split in Er as (g1 & g2 & Eg & El).
  exists g1, rec, g2. split; [exact Eg|]. split; [|split].
  - unfold best_of_group, sort_values_dist. rewrite E.
    now rewrite (take_cons _ _ _ _ Hig).
  - intros r Hr. apply In_nth_error in Hr as [j Hj].
    assert (Hjl : j < List.length g1) by (apply nth_error_Some; congruence).
    assert (Hjg : nth_error g j = Some r).
    { rewrite Eg, nth_error_app1; assumption. }
    assert (Hj' : j < List.length g).
    { rewrite Eg, length_app. lia. }
    unfold keeps_ties in Hst. rewrite E in Hst.
    inversion Hst as [|? ? _ Hf]; subst. rewrite Forall_forall in Hf.
    destruct (Hall j Hj') as [|Hin]; [lia|].
    specialize (Hf j Hin). specialize (Hmin j Hj').
    rewrite (nth_dist _ _ _ Hig), (nth_dist _ _ _ Hjg) in Hf, Hmin.
    destruct (Z.eq_dec (dist rec) (dist r)) as [Ed|]; [|lia].
    specialize (Hf Ed). lia.
  - intros r Hr. assert (Hin : In r g).
    { rewrite Eg. apply in_app_iff. right. now right. }
    apply In_nth_error in Hin as [j Hj].
    assert (Hjl : j < List.length g) by (apply nth_error_Some; congruence).
    specialize (Hmin j Hjl).
    now rewrite (nth_dist _ _ _ Hig), (nth_dist _ _ _ Hj) in Hmin.
Qed.

End Argsort.

(** The kind that reverses ties sorts all the same. *)
Lemma insert_pos_ordered (vals : list Z) (i : nat) (s : list nat) :
  StronglySorted (fun a b => (nth a vals 0 <= nth b vals 0)%Z) s ->
  StronglySorted (fun a b => (nth a vals 0 <= nth b vals 0)%Z)
                 (insert_pos vals i s).
Proof.
  induction s as [|j rest IH]; intros Hs; cbn [insert_pos].
  - repeat constructor.
  - inversion Hs as [|? ? Hrest Hj]; subst.
    destruct (nth i vals 0 <=? nth j vals 0)%Z eqn:E.
    + apply Z.leb_le in E. constructor; [exact Hs|].
      constructor; [exact E|]. revert Hj. apply Forall_impl. intros x Hx. lia.
    + apply Z.leb_gt in E. constructor; [now apply IH|].
      apply (Permutation_Forall (Permutation_sym (insert_pos_perm vals i rest))).
      constructor; [lia | exact Hj].
Qed.

Lemma ties_reversed_from (vals : list Z) (todo : list nat) :
  forall acc,
    StronglySorted (fun a b => (nth a vals 0 <= nth b vals 0)%Z) acc ->
    let s := fold_left (fun sorted i => insert_pos vals i sorted) todo acc in
    Permutation s (acc ++ todo) /\
    StronglySorted (fun a b => (nth a vals 0 <= nth b vals 0)%Z) s.
Proof.
  induction todo as [|i todo IH]; intros acc Hacc; cbn [fold_left].
  - rewrite app_nil_r. split; [reflexivity | exact Hacc].
  - destruct (IH (insert_pos vals i acc) (insert_pos_ordered vals i acc Hacc))
      as (Hp & Hs).
    split; [|exact Hs].
    eapply Permutation_trans; [exact Hp|].
    eapply Permutation_trans;
      [apply Permutation_app_tail, insert_pos_perm|].
    apply Permutation_middle.
Qed.

Lemma ties_reversed_is_argsort : is_argsort ties_reversed_argsort.
Proof.
  intros l. unfold sorts, ties_reversed_argsort.
  destruct (ties_reversed_from l (seq 0 (List.length l)) []) as (Hp & Hs);
    [constructor|].
  split; [exact Hp | exact Hs].
Qed.

End SortFacts.

(** ** From the dict to the table of scored pairs *)

Module TableFacts.
Import PyStr PyStrFacts KeyFacts DictFacts FirstSeen ScoringFacts.

Lemma dl_dist_df_raw_cons (kv : string * Z) (d : dict) :
  dl_dist_df_raw (kv :: d) = Ok (kv :: d).
Proof. reflexivity. Qed.

Lemma dl_dist_df_raw_ok (d raw : dict) :
  dl_dist_df_raw d = Ok raw -> d <> [] /\ raw = d.
Proof.
  destruct d as [|kv d]; [discriminate|]. rewrite dl_dist_df_raw_cons.
  intros H; inversion H. split; [discriminate | reflexivity].
Qed.

Lemma dl_dist_df_proc_ok (raw : list (string * Z)) (rows : list ProcRow) :
  dl_dist_df_proc raw = Ok rows <->
  split_width raw = 2 /\ rows = map proc_row raw.
Proof.
  unfold dl_dist_df_proc, set_columns. cbn [List.length].
  destruct (Nat.eqb_spec (split_width raw) 2) as [E|E]; split.
  - intros H; inversion H. auto.
  - intros [_ ->]. reflexivity.
  - discriminate.
  - intros [E' _]. congruence.
Qed.

Lemma proc_row_clean (s1 s2 : string) (v : Z) :
  clean s1 -> clean s2 ->
  proc_row (key_of s1 s2, v)
  = {| address_1 := (s1 ++ " ")%string;
       address_2 := Some (" " ++ s2)%string;
       dist := v |}.
Proof.
  intros H1 H2. unfold proc_row. cbn [fst snd].
  now rewrite (split_key _ _ H1 H2).
Qed.

Lemma list_max_const (l : list nat) (n : nat) :
  l <> [] -> Forall (fun k => k = n) l -> list_max l = n.
Proof.
  intros Hl Hf. apply Nat.le_antisymm.
  - apply list_max_le. revert Hf. apply Forall_impl. intros; lia.
  - destruct l as [|k l]; [congruence|]. inversion Hf; subst.
    simpl. lia.
Qed.

Lemma dict_update_keys (d : dict) (items : list (string * Z)) (k : string) :
  In k (keys d) \/ In k (map fst items) -> In k (keys (dict_update d items)).
Proof.
  revert d; induction items as [|[k' v'] items IH]; intros d H.
  - destruct H as [H|[]]. exact H.
  - rewrite dict_update_cons. apply IH. cbn [map fst] in H.
    destruct H as [H|[<-|H]].
    + left. now apply dict_set_keys_other.
    + left. apply dict_set_in_keys.
    + now right.
Qed.

Section Tables.

Variable metric : string -> string -> Z.

Lemma map_proc_row_assignments (arr1 arr2 : list string) :
  Forall clean arr1 -> Forall clean arr2 ->
  map proc_row (assignments metric arr1 arr2) = cross_rows metric arr1 arr2.
Proof.
  intros H1 H2. induction H1 as [|s1 arr1 Hs1 H1 IH]; [reflexivity|].
  rewrite assignments_cons, map_app, IH, map_map. cbn [cross_rows flat_map].
  f_equal. apply map_ext_in. intros s2 Hs2. rewrite Forall_forall in H2.
  apply proc_row_clean; auto.
Qed.

Lemma split_width_clean (arr1 arr2 : list string) :
  arr1 <> [] -> arr2 <> [] -> Forall clean arr1 -> Forall clean arr2 ->
  split_width (assignments metric arr1 arr2) = 2.
Proof.
  intros Hn1 Hn2 H1 H2. unfold split_width. apply list_max_const.
  - intros E. apply map_eq_nil, assignments_nil_iff in E. tauto.
  - rewrite Forall_forall. intros n Hn.
    apply in_map_iff in Hn as (kv & <- & Hkv).
    apply assignments_In in Hkv as (s1 & s2 & Hs1 & Hs2 & ->). cbn [fst].
    rewrite Forall_forall in H1, H2.
    rewrite split_key; [reflexivity | now apply H1 | now apply H2].
Qed.

Lemma unique_clean (l : list string) : Forall clean l -> Forall clean (unique l).
Proof.
  rewrite !Forall_forall. intros H s Hs. apply H. now apply unique_In.
Qed.

Lemma unique_nonempty (l : list string) : l <> [] -> unique l <> [].
Proof. destruct l; [congruence | discriminate]. Qed.

(** With separator-free texts on both sides the table of scored pairs is
    the cross product of the distinct values. *)
Lemma scored_pairs_clean (arr1 arr2 : list string) :
  arr1 <> [] -> arr2 <> [] -> Forall clean arr1 -> Forall clean arr2 ->
  scored_pairs metric arr1 arr2
  = Ok (cross_rows metric (unique arr1) (unique arr2)).
Proof.
  intros Hn1 Hn2 H1 H2. unfold scored_pairs, table_of_dict.
  rewrite (dl_dist_func_unique _ _ _ H1).
  destruct (assignments metric (unique arr1) (unique arr2)) as [|kv d] eqn:E.
  { exfalso. apply assignments_nil_iff in E as [E|E];
      [now apply (unique_nonempty arr1) | now apply (unique_nonempty arr2)]. }
  rewrite dl_dist_df_raw_cons. cbn [bind]. rewrite <- E.
  apply dl_dist_df_proc_ok. split.
  - apply split_width_clean; auto using unique_nonempty, unique_clean.
  - symmetry. apply map_proc_row_assignments; now apply unique_clean.
Qed.

(** The table exists only for two non-empty columns of separator-free
    texts. *)
Lemma scored_pairs_inv (arr1 arr2 : list string) (rows : list ProcRow) :
  scored_pairs metric arr1 arr2 = Ok rows ->
  arr1 <> [] /\ arr2 <> [] /\ Forall clean arr1 /\ Forall clean arr2.
Proof.
  unfold scored_pairs, table_of_dict. intros H.
  destruct (dl_dist_df_raw (dl_dist_func metric arr1 arr2)) as [raw|e] eqn:E;
    [|discriminate].
  cbn [bind] in H. apply dl_dist_df_raw_ok in E as [Hd ->].
  apply dl_dist_df_proc_ok in H as [Hw _].
  assert (Hne : arr1 <> [] /\ arr2 <> []).
  { split; intros ->; apply Hd, dl_dist_func_nil_iff; auto. }
  destruct Hne as [Hn1 Hn2].
  assert (Hpair : forall s1 s2, In s1 arr1 -> In s2 arr2 ->
                                clean s1 /\ clean s2).
  { intros s1 s2 Hs1 Hs2. apply split_key_width.
    apply Nat.le_antisymm; [|apply split_key_two].
    assert (Hk : In (key_of s1 s2) (keys (dl_dist_func metric arr1 arr2))).
    { rewrite dl_dist_func_update. apply dict_update_keys. right.
      apply in_map_iff. exists (key_of s1 s2, metric s1 s2).
      split; [reflexivity|]. apply assignments_In. now exists s1, s2. }
    apply in_map_iff in Hk as (kv & Ek & Hkv).
    rewrite <- Hw. unfold split_width.
    assert (Hle := proj1 (list_max_le
      (map (fun kv => List.length (split sep (fst kv)))
           (dl_dist_func metric arr1 arr2)) _) (Nat.le_refl _)).
    rewrite Forall_forall in Hle. apply Hle.
    apply in_map_iff. exists kv. now rewrite Ek. }
  repeat split; try assumption; rewrite Forall_forall.
  - destruct arr2 as [|s2 ?]; [congruence|]. intros s1 Hs1.
    apply (Hpair s1 s2); [exact Hs1 | now left].
  - destruct arr1 as [|s1 ?]; [congruence|]. intros s2 Hs2.
    apply (Hpair s1 s2); [now left | exact Hs2].
Qed.

(** An empty column stops the notebook at the first renaming. *)
Lemma scored_pairs_empty (arr1 arr2 : list string) :
  arr1 = [] \/ arr2 = [] ->
  scored_pairs metric arr1 arr2 = Raise (ValueError_length_mismatch 1 2).
Proof.
  intros H. unfold scored_pairs, table_of_dict.
  now rewrite (proj2 (dl_dist_func_nil_iff metric arr1 arr2) H).
Qed.

End Tables.

End TableFacts.

(** ** The selection *)

Module SelectFacts.
Import GroupFacts SortFacts.

Lemma transform_like_length (df : list ProcRow) (k : string) :
  transform_like (groups_of df) = true -> In k (group_keys df) ->
  List.length (get_group df k) = 1.
Proof.
  unfold transform_like, groups_of. rewrite forallb_forall. intros H Hk.
  apply Nat.eqb_eq, H, in_map, Hk.
Qed.

Lemma singleton_In {A : Type} (l : list A) (x y : A) :
  List.length l = 1 -> In x l -> In y l -> x = y.
Proof.
  destruct l as [|z [|w l]]; try discriminate. intros _ [<-|[]] [<-|[]].
  reflexivity.
Qed.

(** When every group is one row, no two rows share a key. *)
Lemma transform_like_NoDup (df : list ProcRow) :
  transform_like (groups_of df) = true -> NoDup (map address_1 df).
Proof.
  intros H.
  assert (Hone : forall r, In r df ->
                           List.length (get_group df (address_1 r)) = 1).
  { intros r Hr. apply transform_like_length; [exact H|].
    apply group_keys_In. now apply in_map. }
  clear H. induction df as [|r df IH]; [constructor|].
  cbn [map]. constructor.
  - intros Hin. apply in_map_iff in Hin as (r' & E & Hr').
    specialize (Hone r (or_introl eq_refl)).
    unfold get_group in Hone. cbn [filter] in Hone.
    rewrite String.eqb_refl in Hone. cbn [List.length] in Hone.
    assert (Hin : In r' (get_group df (address_1 r))) by now apply get_group_In.
    unfold get_group in Hin. destruct (filter _ df); [destruct Hin | discriminate].
  - apply IH. intros r' Hr'. specialize (Hone r' (or_intror Hr')).
    unfold get_group in *. cbn [filter] in Hone.
    assert (Hin : In r' (filter (fun r0 => String.eqb (address_1 r0) (address_1 r')) df)).
    { apply filter_In. split; [exact Hr' | apply String.eqb_refl]. }
    destruct (String.eqb (address_1 r) (address_1 r')); cbn [List.length] in Hone;
      [|exact Hone].
    destruct (filter _ df); [destruct Hin | discriminate].
Qed.

Section WithArgsort.

Variable argsort : list Z -> list nat.
Hypothesis argsort_ok : is_argsort argsort.

(** The row kept for a key: a row of the table with that key and with the
    least distance among the rows with that key. *)
Lemma best_of_key (df : list ProcRow) (k : string) :
  In k (group_keys df) ->
  exists rec,
    best_of_group argsort (get_group df k) = [rec] /\
    In rec df /\ address_1 rec = k /\
    (forall r, In r df -> address_1 r = k -> (dist rec <= dist r)%Z).
Proof.
  intros Hk.
  destruct (best_of_group_min argsort (get_group df k))
    as (i & rec & Er & Eb & Hmin);
    [apply argsort_ok | now apply get_group_nonempty |].
  apply nth_error_In, get_group_In in Er as [Hin Ek].
  exists rec. repeat split; try assumption.
  intros r Hr Erk. apply Hmin. now apply get_group_In.
Qed.

Lemma pieces_keys (df : list ProcRow) (ks : list string) :
  (forall k, In k ks -> In k (group_keys df)) ->
  map address_1 (flat_map (best_of_group argsort) (map (get_group df) ks))
  = ks.
Proof.
  induction ks as [|k ks IH]; intros H; [reflexivity|].
  cbn [map flat_map]. rewrite map_app, IH by (intros; apply H; now right).
  destruct (best_of_key df k (H k (or_introl eq_refl)))
    as (rec & -> & _ & <- & _).
  reflexivity.
Qed.

(** Unless every group is one row, the kept rows come in key order. *)
Lemma groupby_apply_keys (df : list ProcRow) :
  transform_like (groups_of df) = false ->
  map address_1 (groupby_apply argsort df) = group_keys df.
Proof.
  intros H. unfold groupby_apply. rewrite H. unfold groups_of.
  now apply pieces_keys.
Qed.

(** One kept row per key. *)
Lemma groupby_apply_keys_perm (df : list ProcRow) :
  Permutation (map address_1 (groupby_apply argsort df)) (group_keys df).
Proof.
  destruct (transform_like (groups_of df)) eqn:E.
  - unfold groupby_apply. rewrite E. apply NoDup_Permutation.
    + now apply transform_like_NoDup.
    + apply group_keys_NoDup.
    + intros k. symmetry. apply group_keys_In.
  - now rewrite groupby_apply_keys.
Qed.

(** Each row of the table meets a kept row of its key that is no farther. *)
Lemma groupby_apply_min (df : list ProcRow) (r : ProcRow) :
  In r df ->
  exists rec,
    In rec (groupby_apply argsort df) /\ In rec df /\
    address_1 rec = address_1 r /\
    (forall r', In r' df -> address_1 r' = address_1 r ->
                (dist rec <= dist r')%Z).
Proof.
  intros Hr.
  assert (Hk : In (address_1 r) (group_keys df)).
  { apply group_keys_In. now apply in_map. }
  unfold groupby_apply. destruct (transform_like (groups_of df)) eqn:E.
  - exists r. repeat split; try assumption.
    intros r' Hr' Ek.
    assert (r = r'); [|subst; lia].
    apply (singleton_In (get_group df (address_1 r)));
      [now apply transform_like_length | | ]; now apply get_group_In.
  - destruct (best_of_key df _ Hk) as (rec & Eb & Hin & Ek & Hmin).
    exists rec. repeat split; try assumption.
    apply in_flat_map. exists (get_group df (address_1 r)). split.
    + unfold groups_of. now apply in_map.
    + rewrite Eb. now left.
Qed.

End WithArgsort.

End SelectFacts.

(** ** The table of a cross product *)

Module CrossFacts.
Import PyStr PyStrFacts KeyFacts FirstSeen ScoringFacts GroupFacts SelectFacts.

Section Cross.

Variable metric : string -> string -> Z.

Lemma cross_rows_In (arr1 arr2 : list string) (r : ProcRow) :
  In r (cross_rows metric arr1 arr2) <->
  exists s1 s2, In s1 arr1 /\ In s2 arr2 /\ r = pair_row metric s1 s2.
Proof.
  unfold cross_rows. rewrite in_flat_map. split.
  - intros (s1 & H1 & H). apply in_map_iff in H as (s2 & E & H2).
    exists s1, s2. auto.
  - intros (s1 & s2 & H1 & H2 & ->). exists s1. split; [exact H1|].
    now apply in_map.
Qed.

Lemma cross_rows_keys (arr1 arr2 : list string) (k : string) :
  arr2 <> [] ->
  (In k (group_keys (cross_rows metric arr1 arr2)) <->
   exists s1, In s1 arr1 /\ k = (s1 ++ " ")%string).
Proof.
  intros Hn. rewrite group_keys_In, in_map_iff. split.
  - intros (r & <- & Hr). apply cross_rows_In in Hr as (s1 & s2 & H1 & _ & ->).
    now exists s1.
  - intros (s1 & H1 & ->). destruct arr2 as [|s2 arr2]; [congruence|].
    exists (pair_row metric s1 s2). split; [reflexivity|].
    apply cross_rows_In. exists s1, s2. repeat split; [exact H1 | now left].
Qed.

Lemma filter_eqb_NoDup (l : list string) (s : string) :
  NoDup l -> In s l -> filter (fun y => String.eqb y s) l = [s].
Proof.
  induction l as [|x l IH]; intros Hd Hin; [destruct Hin|].
  inversion Hd as [|? ? Hn Hd']; subst. cbn [filter].
  destruct (String.eqb_spec x s) as [->|Hne].
  - f_equal. clear IH Hd Hin Hd'. induction l as [|y l IH]; [reflexivity|].
    cbn [filter]. destruct (String.eqb_spec y s) as [->|];
      [exfalso; apply Hn; now left | apply IH; intros H; apply Hn; now right].
  - destruct Hin as [E|Hin]; [congruence | now apply IH].
Qed.

(** The group of a left text is its row of the cross product. *)
Lemma get_group_cross (arr1 arr2 : list string) (s1 : string) :
  NoDup arr1 -> In s1 arr1 ->
  get_group (cross_rows metric arr1 arr2) (s1 ++ " ")
  = map (pair_row metric s1) arr2.
Proof.
  intros Hd Hin. unfold get_group, cross_rows.
  rewrite (filter_flat_map _ (fun y => String.eqb y s1)).
  - rewrite (filter_eqb_NoDup _ _ Hd Hin). cbn [flat_map].
    apply app_nil_r.
  - intros x _ Hx r Hr. apply String.eqb_eq in Hx. subst x.
    apply in_map_iff in Hr as (s2 & <- & _). apply String.eqb_refl.
  - intros x _ Hx r Hr. apply String.eqb_neq in Hx.
    apply in_map_iff in Hr as (s2 & <- & _). apply String.eqb_neq.
    cbn [pair_row address_1]. intros E. now apply append_blank_inj in E.
Qed.

(** The result counts as a transform exactly when the right column has a
    single row per left text. *)
Lemma transform_like_cross (arr1 arr2 : list string) :
  arr1 <> [] -> arr2 <> [] -> NoDup arr1 ->
  transform_like (groups_of (cross_rows metric arr1 arr2))
  = (List.length arr2 =? 1)%nat.
Proof.
  intros Hn1 Hn2 Hd.
  destruct (Nat.eqb_spec (List.length arr2) 1) as [E|E].
  - unfold transform_like, groups_of. apply forallb_forall. intros g Hg.
    apply in_map_iff in Hg as (k & <- & Hk).
    apply (cross_rows_keys _ _ _ Hn2) in Hk as (s1 & H1 & ->).
    rewrite (get_group_cross _ _ _ Hd H1), length_map. now apply Nat.eqb_eq.
  - destruct (transform_like _) eqn:Et; [|reflexivity]. exfalso.
    destruct arr1 as [|s1 arr1]; [congruence|].
    assert (Hk : In (s1 ++ " ")%string
                    (group_keys (cross_rows metric (s1 :: arr1) arr2))).
    { apply (cross_rows_keys _ _ _ Hn2). exists s1. split; [now left|reflexivity]. }
    pose proof (transform_like_length _ _ Et Hk) as Hl.
    rewrite (get_group_cross _ _ _ Hd (or_introl eq_refl)), length_map in Hl.
    congruence.
Qed.

Lemma cross_rows_single_keys (l : list string) (s : string) :
  map address_1 (cross_rows metric l [s])
  = map (fun s1 => (s1 ++ " ")%string) l.
Proof.
  induction l as [|s1 l IH]; [reflexivity|].
  cbn [cross_rows flat_map map app]. f_equal. exact IH.
Qed.

Lemma map_blank_NoDup (l : list string) :
  NoDup l -> NoDup (map (fun s => (s ++ " ")%string) l).
Proof.
  induction 1 as [|x l Hn Hd IH]; cbn [map]; constructor; [|exact IH].
  intros Hin. apply in_map_iff in Hin as (y & E & Hy).
  apply append_blank_inj in E. congruence.
Qed.

Lemma unique_nodup_length (l : list string) :
  List.length (unique l) = List.length (nodup string_dec l).
Proof.
  apply Permutation_length, NoDup_Permutation.
  - apply unique_NoDup.
  - apply NoDup_nodup.
  - intros s. rewrite unique_In, nodup_In. reflexivity.
Qed.

Lemma unique_two (l : list string) (a b : string) :
  In a l -> In b l -> a <> b -> 2 <= List.length (unique l).
Proof.
  intros Ha Hb Hne.
  change 2 with (List.length [a; b]). apply NoDup_incl_length.
  - constructor; [intros [E|[]]; congruence|]. constructor; [intros []|constructor].
  - intros x [<-|[<-|[]]]; now apply unique_In.
Qed.

Lemma unique_one (l : list string) :
  l <> [] -> (forall a b, In a l -> In b l -> a = b) ->
  exists s, unique l = [s] /\ In s l.
Proof.
  intros Hn Hall. destruct l as [|s l]; [congruence|]. exists s.
  split; [|now left]. rewrite unique_cons. f_equal.
  destruct (filter _ (unique l)) as [|x xs] eqn:E; [reflexivity|]. exfalso.
  assert (Hx : In x (filter (fun y => negb (String.eqb y s)) (unique l))).
  { rewrite E. now left. }
  apply filter_In in Hx as [Hx Hne]. apply (proj1 (unique_In _ _)) in Hx.
  apply negb_true_iff, String.eqb_neq in Hne. apply Hne.
  apply Hall; [now right | now left].
Qed.

End Cross.

Lemma in_split_first (l : list string) (s : string) :
  In s l -> exists l1 l2, l = l1 ++ s :: l2 /\ ~ In s l1.
Proof.
  induction l as [|x l IH]; intros Hin; [destruct Hin|].
  destruct (string_dec x s) as [->|Hne].
  - exists [], l. split; [reflexivity | intros []].
  - destruct Hin as [E|Hin]; [congruence|].
    destruct (IH Hin) as (l1 & l2 & -> & Hn). exists (x :: l1), l2.
    split; [reflexivity|]. intros [E|H]; [congruence | tauto].
Qed.

Lemma NoDup_split_unique (l1 l2 m1 m2 : list string) (s : string) :
  NoDup (l1 ++ s :: l2) -> l1 ++ s :: l2 = m1 ++ s :: m2 -> l1 = m1.
Proof.
  revert m1; induction l1 as [|x l1 IH]; intros m1 Hd E.
  - destruct m1 as [|y m1]; [reflexivity|]. cbn [app] in *.
    inversion E; subst. inversion Hd as [|? ? Hn _]; subst.
    exfalso. apply Hn. apply in_app_iff. right. now left.
  - destruct m1 as [|y m1]; cbn [app] in *.
    + inversion E; subst. inversion Hd as [|? ? Hn _]; subst.
      exfalso. apply Hn. apply in_app_iff. right. now left.
    + inversion E; subst. f_equal. inversion Hd; subst. eapply IH; eauto.
Qed.

(** The distinct values before the first occurrence of a value are the
    values that occur before it. *)
Lemma unique_split (l u1 u2 : list string) (s : string) :
  unique l = u1 ++ s :: u2 ->
  exists l1 l2,
    l = l1 ++ s :: l2 /\
    (forall x, In x l1 -> In x u1) /\
    (forall x, In x l2 -> In x (u1 ++ s :: u2)).
Proof.
  intros E.
  assert (Hs : In s l).
  { apply unique_In. rewrite E. apply in_app_iff. right. now left. }
  destruct (in_split_first l s Hs) as (l1 & l2 & El & Hn).
  exists l1, l2. split; [exact El|].
  assert (Eu : unique l = unique l1 ++ s :: filter
                 (not_among (fun x => x) (map (fun x => x) l1))
                 (filter (fun y => negb (String.eqb y s)) (unique l2))).
  { rewrite El. unfold unique at 1. rewrite first_seen_app.
    fold (unique l1). fold (unique (s :: l2)). rewrite unique_cons.
    cbn [filter].
    replace (not_among (fun x => x) (map (fun x => x) l1) s) with true;
      [reflexivity|].
    symmetry. apply not_among_true. now rewrite map_id. }
  assert (Eu1 : unique l1 = u1).
  { eapply NoDup_split_unique; [|rewrite <- Eu; exact E].
    rewrite <- Eu. apply unique_NoDup. }
  split.
  - intros x Hx. rewrite <- Eu1. now apply unique_In.
  - intros x Hx. rewrite <- E. apply unique_In. rewrite El.
    apply in_app_iff. right. now right.
Qed.

End CrossFacts.

(** ** The notebook up to the selection *)

Module PipelineFacts.
Import KeyFacts FirstSeen ScoringFacts TableFacts GroupFacts SelectFacts
       CrossFacts.

Section Pipeline.

Variable argsort : list Z -> list nat.
Variable metric : string -> string -> Z.

Lemma dl_dist_fin_of_scored (arr1 arr2 : list string) (rows : list ProcRow) :
  scored_pairs metric arr1 arr2 = Ok rows ->
  dl_dist_fin argsort metric arr1 arr2 = Ok (groupby_apply argsort rows).
Proof.
  unfold dl_dist_fin, select_best, scored_pairs. now intros ->.
Qed.

(** The shape of the table behind any result of the selection. *)
Lemma scored_pairs_shape (arr1 arr2 : list string) (rows : list ProcRow) :
  scored_pairs metric arr1 arr2 = Ok rows ->
  rows = cross_rows metric (unique arr1) (unique arr2) /\
  arr1 <> [] /\ arr2 <> [] /\ Forall clean arr1 /\ Forall clean arr2.
Proof.
  intros H. pose proof (scored_pairs_inv _ _ _ _ H) as (Hn1 & Hn2 & H1 & H2).
  rewrite (scored_pairs_clean _ _ _ Hn1 Hn2 H1 H2) in H. inversion H.
  repeat split; assumption.
Qed.

(** The selection returns for every pair of non-empty columns of
    separator-free texts. *)
Lemma dl_dist_fin_clean (arr1 arr2 : list string) :
  arr1 <> [] -> arr2 <> [] -> Forall clean arr1 -> Forall clean arr2 ->
  dl_dist_fin argsort metric arr1 arr2
  = Ok (groupby_apply argsort
          (cross_rows metric (unique arr1) (unique arr2))).
Proof.
  intros Hn1 Hn2 H1 H2. apply dl_dist_fin_of_scored.
  now apply scored_pairs_clean.
Qed.

End Pipeline.

End PipelineFacts.

(** ** The joins *)

Module JoinFacts.

Section Joins.

Context {Cols : Type}.

Lemma merge_left_app (l1 l2 : list (BothRow Cols))
      (data2 : list (DataRow Cols)) :
  merge_left (l1 ++ l2) data2 = merge_left l1 data2 ++ merge_left l2 data2.
Proof. apply flat_map_app. Qed.

Lemma merge_left_cons (b : BothRow Cols) (l : list (BothRow Cols))
      (data2 : list (DataRow Cols)) :
  merge_left (b :: l) data2
  = match filter (key_meets b) data2 with
    | [] => [(b, None)]
    | met => map (fun r => (b, Some r)) met
    end ++ merge_left l data2.
Proof. reflexivity. Qed.

(** A key that no row of the right table has meets no row. *)
Lemma merge_left_unmatched (b : BothRow Cols) (data2 : list (DataRow Cols)) :
  (forall r, In r data2 -> address_2 (snd b) <> Some (Address r)) ->
  filter (key_meets b) data2 = [].
Proof.
  intros Hno. induction data2 as [|r data2 IH]; [reflexivity|].
  cbn [filter]. destruct (key_meets b r) eqn:E.
  - exfalso. apply (Hno r (or_introl eq_refl)). unfold key_meets in E.
    destruct (address_2 (snd b)) as [a|]; [|discriminate].
    apply String.eqb_eq in E. now subst.
  - apply IH. intros r' Hr'. apply Hno. now right.
Qed.

Lemma merge_left_In (both : list (BothRow Cols))
      (data2 : list (DataRow Cols)) (b : BothRow Cols)
      (x : option (DataRow Cols)) :
  In (b, x) (merge_left both data2) <->
  In b both /\
  ((x = None /\ filter (key_meets b) data2 = []) \/
   (exists r, x = Some r /\ In r data2 /\ key_meets b r = true)).
Proof.
  unfold merge_left. rewrite in_flat_map. split.
  - intros (b' & Hb' & Hin).
    destruct (filter (key_meets b') data2) as [|r0 met] eqn:E.
    + destruct Hin as [Hin|[]]. inversion Hin; subst. split; [exact Hb'|].
      left. now split.
    + apply in_map_iff in Hin as (r & Er & Hr). inversion Er; subst.
      split; [exact Hb'|]. right. exists r. split; [reflexivity|].
      rewrite <- E in Hr. now apply filter_In in Hr.
  - intros (Hb & [[-> E]|(r & -> & Hr & Hk)]); exists b; split; try exact Hb.
    + rewrite E. now left.
    + assert (Hin : In r (filter (key_meets b) data2)).
      { apply filter_In. now split. }
      destruct (filter (key_meets b) data2) as [|r0 met]; [destruct Hin|].
      apply in_map_iff. now exists r.
Qed.

(** No row of the left table is lost. *)
Lemma merge_left_total (both : list (BothRow Cols))
      (data2 : list (DataRow Cols)) (b : BothRow Cols) :
  In b both -> exists x, In (b, x) (merge_left both data2).
Proof.
  intros Hb. destruct (filter (key_meets b) data2) as [|r met] eqn:E.
  - exists None. apply merge_left_In. split; [exact Hb|]. left. now split.
  - exists (Some r). apply merge_left_In. split; [exact Hb|]. right.
    exists r. split; [reflexivity|].
    assert (Hin : In r (filter (key_meets b) data2)) by (rewrite E; now left).
    now apply filter_In in Hin.
Qed.

End Joins.

End JoinFacts.

(** ** Chunks and workers *)

Module ParallelFacts.
Import DictFacts ScoringFacts.

Section Parallel.

Variable metric : string -> string -> Z.

Lemma score_into_app (xs ys arr2 : list string) (d : dict) :
  score_into metric (xs ++ ys) arr2 d
  = score_into metric ys arr2 (score_into metric xs arr2 d).
Proof. apply fold_left_app. Qed.

(** Merging the dict of a chunk into [acc] is running the loops of the
    chunk on [acc]. *)
Lemma dict_update_chunk (acc : dict) (chunk arr2 : list string) :
  dict_update acc (dl_dist_func metric chunk arr2)
  = score_into metric chunk arr2 acc.
Proof.
  rewrite dl_dist_func_update, dict_update_fresh. symmetry.
  apply score_into_update.
Qed.

Lemma concat_results_from (acc : dict) (chunks : list (list string))
      (arr2 : list string) :
  fold_left dict_update (Parallel_delayed metric (chunk_tasks chunks arr2)) acc
  = score_into metric (concat chunks) arr2 acc.
Proof.
  unfold Parallel_delayed, chunk_tasks.
  revert acc; induction chunks as [|chunk chunks IH]; intros acc;
    [reflexivity|].
  cbn [map fold_left concat fst snd].
  rewrite score_into_app, <- (dict_update_chunk acc chunk arr2). apply IH.
Qed.

Lemma nth_error_store {A : Type} (i j : nat) (x : A)
      (slots : list (option A)) :
  nth_error (store i x slots) j
  = if (j =? i)%nat
    then (if (i <? List.length slots)%nat then Some (Some x) else None)
    else nth_error slots j.
Proof.
  revert i j; induction slots as [|y slots IH]; intros i j.
  - cbn [store List.length]. destruct (j =? i)%nat, j; reflexivity.
  - destruct i as [|i], j as [|j]; cbn [store nth_error]; try reflexivity.
    rewrite IH. cbn [List.length]. reflexivity.
Qed.

Lemma store_length {A : Type} (i : nat) (x : A) (slots : list (option A)) :
  List.length (store i x slots) = List.length slots.
Proof.
  revert i; induction slots as [|y slots IH]; intros [|i]; cbn [store];
    try reflexivity.
  cbn [List.length]. now rewrite IH.
Qed.

(** The state after the workers went through [schedule]: the names
    untouched, and position [j] of the results filled once task [j] was
    taken up. *)
Lemma run_schedule (tasks : list (list string * list string))
      (schedule : list nat) (g : Globals) (slots : list (option dict)) :
  List.length slots = List.length tasks ->
  exists slots',
    fold_left (run_task metric tasks) schedule (g, slots) = (g, slots') /\
    List.length slots' = List.length tasks /\
    forall j,
      nth_error slots' j
      = if existsb (Nat.eqb j) schedule
        then option_map (fun t => Some (dl_dist_func metric (fst t) (snd t)))
                     (nth_error tasks j)
        else nth_error slots j.
Proof.
  revert slots; induction schedule as [|i schedule IH]; intros slots Hl.
  - exists slots. split; [reflexivity|]. split; [exact Hl|]. reflexivity.
  - cbn [fold_left]. unfold run_task at 2. cbn [fst snd].
    destruct (nth_error tasks i) as [[arr1 arr2]|] eqn:Ei.
    + cbn [call_dl_dist_func].
      destruct (IH (store i (score_into metric arr1 arr2 []) slots))
        as (slots' & E & Hl' & Hn); [now rewrite store_length|].
      exists slots'. split; [exact E|]. split; [exact Hl'|].
      intros j. rewrite Hn. cbn [existsb].
      destruct (existsb (Nat.eqb j) schedule); [now rewrite orb_true_r|].
      rewrite orb_false_r, nth_error_store.
      destruct (Nat.eqb_spec j i) as [->|]; [|reflexivity].
      rewrite Ei. cbn [option_map].
      assert (Hi : i < List.length tasks) by (apply nth_error_Some; congruence).
      rewrite Hl. apply Nat.ltb_lt in Hi. rewrite Hi. reflexivity.
    + destruct (IH slots Hl) as (slots' & E & Hl' & Hn).
      exists slots'. split; [exact E|]. split; [exact Hl'|].
      intros j. rewrite Hn. cbn [existsb].
      destruct (existsb (Nat.eqb j) schedule); [now rewrite orb_true_r|].
      rewrite orb_false_r.
      destruct (Nat.eqb_spec j i) as [->|]; [|reflexivity].
      rewrite Ei. cbn [option_map]. apply nth_error_None.
      rewrite Hl. now apply nth_error_None.
Qed.

(** Whatever the order in which the tasks are taken up, the results are
    the dicts of the calls in the order of the tasks. *)
Lemma Parallel_scheduled_spec (schedule : list nat) (g : Globals)
      (tasks : list (list string * list string)) :
  Permutation schedule (seq 0 (List.length tasks)) ->
  Parallel_scheduled metric schedule g tasks
  = (g, map Some (Parallel_delayed metric tasks)).
Proof.
  intros Hp. unfold Parallel_scheduled.
  destruct (run_schedule tasks schedule g (repeat None (List.length tasks)))
    as (slots' & E & Hl & Hn); [apply repeat_length|].
  rewrite E. f_equal. apply nth_error_ext. intros j. rewrite Hn.
  unfold Parallel_delayed. rewrite map_map, nth_error_map.
  destruct (existsb (Nat.eqb j) schedule) eqn:Ex; [reflexivity|].
  assert (Hj : ~ j < List.length tasks).
  { intros Hj.
    assert (Hin : In j schedule).
    { apply (Permutation_in j (Permutation_sym Hp)). apply in_seq. lia. }
    assert (existsb (Nat.eqb j) schedule = true); [|congruence].
    apply existsb_exists. exists j. split; [exact Hin | apply Nat.eqb_refl]. }
  assert (Hnone : nth_error tasks j = None) by (apply nth_error_None; lia).
  rewrite Hnone. cbn [option_map]. apply nth_error_None.
  rewrite repeat_length. lia.
Qed.

End Parallel.

End ParallelFacts.

(** ** Lookups in the dict of scores *)

Module LookupFacts.
Import DictFacts ScoringFacts KeyFacts.

Lemma dict_get_set (k k' : string) (v : Z) (d : dict) :
  dict_get k (dict_set k' v d)
  = if String.eqb k k' then Some v else dict_get k d.
Proof.
  induction d as [|[k0 v0] d IH]; cbn [dict_set dict_get]; [reflexivity|].
  destruct (String.eqb k' k0) eqn:E0; cbn [dict_get].
  - apply String.eqb_eq in E0. subst k0.
    destruct (String.eqb k k'); reflexivity.
  - rewrite IH. destruct (String.eqb k k0) eqn:E1; [|reflexivity].
    apply String.eqb_eq in E1. subst k0.
    rewrite String.eqb_sym, E0. reflexivity.
Qed.

Lemma dict_get_update_other (k : string) (items : list (string * Z)) :
  forall d : dict,
    ~ In k (map fst items) -> dict_get k (dict_update d items) = dict_get k d.
Proof.
  induction items as [|[k0 v0] items IH]; intros d Hk; [reflexivity|].
  rewrite dict_update_cons, IH, dict_get_set.
  - destruct (String.eqb k k0) eqn:E; [|reflexivity].
    apply String.eqb_eq in E. exfalso. apply Hk. now left.
  - intros H. apply Hk. now right.
Qed.

Lemma dict_get_update_last (k : string) (v : Z) (d : dict)
      (before after : list (string * Z)) :
  ~ In k (map fst after) ->
  dict_get k (dict_update d (before ++ (k, v) :: after)) = Some v.
Proof.
  intros Hk.
  rewrite dict_update_app, dict_update_cons, dict_get_update_other by exact Hk.
  rewrite dict_get_set, String.eqb_refl. reflexivity.
Qed.

Lemma dict_get_update_some (k : string) (v : Z) (items : list (string * Z)) :
  forall d : dict,
    dict_get k (dict_update d items) = Some v ->
    In (k, v) items \/ dict_get k d = Some v.
Proof.
  induction items as [|[k0 v0] items IH]; intros d H; [now right|].
  rewrite dict_update_cons in H. apply IH in H as [H|H]; [left; now right|].
  rewrite dict_get_set in H. destruct (String.eqb k k0) eqn:E.
  - apply String.eqb_eq in E. inversion H; subst. left. now left.
  - now right.
Qed.

Lemma dict_get_none_iff (k : string) (d : dict) :
  dict_get k d = None <-> ~ In k (keys d).
Proof.
  induction d as [|[k0 v0] d IH]; cbn [dict_get keys map fst].
  - split; [intros _ [] | reflexivity].
  - destruct (String.eqb k k0) eqn:E.
    + apply String.eqb_eq in E. split; [discriminate|].
      intros H. exfalso. apply H. left. now symmetry.
    + apply String.eqb_neq in E. rewrite IH. unfold keys.
      split; [intros H [H'|H']; [congruence | now apply H]
             | intros H H'; apply H; now right].
Qed.

Lemma in_split_last (k : string) (items : list (string * Z)) :
  In k (map fst items) ->
  exists before v after,
    items = before ++ (k, v) :: after /\ ~ In k (map fst after).
Proof.
  induction items as [|[k0 v0] items IH]; intros H; [destruct H|].
  destruct (in_dec string_dec k (map fst items)) as [Hin|Hout].
  - destruct (IH Hin) as (b & v & a & -> & Ha).
    exists ((k0, v0) :: b), v, a. split; [reflexivity | exact Ha].
  - destruct H as [H|H]; [|contradiction]. cbn in H. subst k0.
    exists [], v0, items. split; [reflexivity | exact Hout].
Qed.

Lemma dict_get_update_functional (k : string) (v : Z) (d : dict)
      (items : list (string * Z)) :
  functional items -> In (k, v) items ->
  dict_get k (dict_update d items) = Some v.
Proof.
  intros Hf Hin.
  assert (Hk : In k (map fst items)) by (apply (in_map fst _ _ Hin)).
  destruct (in_split_last _ _ Hk) as (b & v' & a & E & Ha).
  assert (v' = v).
  { apply (Hf k); [|exact Hin]. rewrite E. apply in_app_iff. right. now left. }
  subst v'. rewrite E. now apply dict_get_update_last.
Qed.

Section Loops.

Variable metric : string -> string -> Z.

Lemma dl_dist_func_get (arr1 arr2 : list string) (s1 s2 : string) :
  Forall clean arr1 -> In s1 arr1 -> In s2 arr2 ->
  dict_get (key_of s1 s2) (dl_dist_func metric arr1 arr2)
  = Some (metric s1 s2).
Proof.
  intros Hc H1 H2. rewrite dl_dist_func_update.
  apply dict_get_update_functional; [now apply assignments_functional|].
  apply assignments_In. now exists s1, s2.
Qed.

Lemma dl_dist_func_get_inv (arr1 arr2 : list string) (k : string) (v : Z) :
  dict_get k (dl_dist_func metric arr1 arr2) = Some v ->
  exists s1 s2,
    In s1 arr1 /\ In s2 arr2 /\ k = key_of s1 s2 /\ v = metric s1 s2.
Proof.
  intros H. rewrite dl_dist_func_update in H.
  apply dict_get_update_some in H as [H|H]; [|discriminate].
  apply assignments_In in H as (s1 & s2 & H1 & H2 & E).
  inversion E; subst. now exists s1, s2.
Qed.

Lemma dl_dist_func_keys (arr1 arr2 : list string) (k : string) :
  In k (keys (dl_dist_func metric arr1 arr2)) <->
  exists s1 s2, In s1 arr1 /\ In s2 arr2 /\ k = key_of s1 s2.
Proof.
  split.
  - intros H. destruct (dict_get k (dl_dist_func metric arr1 arr2)) as [v|] eqn:E.
    + apply dl_dist_func_get_inv in E as (s1 & s2 & H1 & H2 & -> & _).
      now exists s1, s2.
    + apply dict_get_none_iff in E. contradiction.
  - intros (s1 & s2 & H1 & H2 & ->). rewrite dl_dist_func_update.
    destruct (dict_get (key_of s1 s2)
                (dict_update [] (assignments metric arr1 arr2))) as [v|] eqn:E.
    + destruct (in_dec string_dec (key_of s1 s2)
                  (keys (dict_update [] (assignments metric arr1 arr2))))
        as [Hin|Hout]; [exact Hin|].
      apply dict_get_none_iff in Hout. congruence.
    + exfalso.
      assert (Hk : In (key_of s1 s2) (map fst (assignments metric arr1 arr2))).
      { apply (in_map fst _ (key_of s1 s2, metric s1 s2)).
        apply assignments_In. now exists s1, s2. }
      destruct (in_split_last _ _ Hk) as (b & v & a & Eq & Ha).
      rewrite Eq, dict_get_update_last in E by exact Ha. discriminate.
Qed.

End Loops.

End LookupFacts.

(** ** The first rows of a table *)

Module HeadFacts.

Lemma firstn_In {A : Type} (n : nat) (l : list A) (x : A) :
  In x (firstn n l) -> In x l.
Proof.
  revert l. induction n as [|n IH]; intros [|y l] H; try destruct H.
  - now left.
  - right. now apply IH.
Qed.

Lemma head_In {A : Type} (n : Z) (l : list A) (x : A) :
  In x (head n l) -> In x l.
Proof.
  unfold head. destruct (0 <=? n)%Z; apply firstn_In.
Qed.

End HeadFacts.

(** ** The errors of the tidying cells *)

Module TidyFacts.
Import PyStr PyStrFacts KeyFacts ScoringFacts TableFacts LookupFacts.

Lemma forallb_false_exists {A : Type} (f : A -> bool) (l : list A) :
  forallb f l = false -> exists x, In x l /\ f x = false.
Proof.
  induction l as [|y l IH]; cbn [forallb]; [discriminate|].
  destruct (f y) eqn:E; cbn [andb].
  - intros H. destruct (IH H) as (x & Hx & Ex). exists x. split; [now right|exact Ex].
  - intros _. exists y. split; [now left | exact E].
Qed.

Lemma split_width_ge (raw : list (string * Z)) (kv : string * Z) :
  In kv raw -> List.length (split sep (fst kv)) <= split_width raw.
Proof.
  intros H. unfold split_width.
  pose proof (proj1 (list_max_le _ _)
                (Nat.le_refl (list_max
                   (map (fun kv => List.length (split sep (fst kv))) raw))))
    as Hall.
  rewrite Forall_forall in Hall. apply Hall.
  apply (in_map (fun kv => List.length (split sep (fst kv))) _ _ H).
Qed.

Lemma dl_dist_df_proc_raise (raw : list (string * Z)) (e : exn) :
  dl_dist_df_proc raw = Raise e ->
  e = ValueError_length_mismatch (split_width raw) 2 /\ split_width raw <> 2.
Proof.
  unfold dl_dist_df_proc, set_columns. cbn [List.length].
  destruct (split_width raw =? 2)%nat eqn:E; [discriminate|].
  intros H. inversion H. split; [reflexivity|]. now apply Nat.eqb_neq.
Qed.

Lemma dirty_or_clean (l : list string) :
  Forall clean l \/ exists s, In s l /\ contains sep s = true.
Proof.
  destruct (forallb (fun s => negb (contains sep s)) l) eqn:E.
  - left. rewrite forallb_forall in E. apply Forall_forall. intros s Hs.
    specialize (E s Hs). unfold clean. now destruct (contains sep s).
  - right. destruct (forallb_false_exists _ _ E) as (s & Hs & Es).
    exists s. split; [exact Hs|]. now destruct (contains sep s).
Qed.

End TidyFacts.

(** ** What the selection keeps, whatever the sort *)

Module KeepFacts.
Import GroupFacts SortFacts SelectFacts HeadFacts.

Lemma take_In {A : Type} (idx : list nat) (l : list A) (x : A) :
  In x (take idx l) -> In x l.
Proof.
  unfold take. rewrite in_flat_map. intros (i & _ & H).
  destruct (nth_error l i) as [y|] eqn:E; [|destruct H].
  destruct H as [<-|[]]. eapply nth_error_In; eassumption.
Qed.

Section AnySort.

Variable argsort : list Z -> list nat.

Lemma best_of_group_In (g : list ProcRow) (r : ProcRow) :
  In r (best_of_group argsort g) -> In r g.
Proof.
  unfold best_of_group, sort_values_dist. intros H.
  apply firstn_In in H. now apply take_In in H.
Qed.

Lemma best_of_group_short (g : list ProcRow) :
  best_of_group argsort g = [] \/ exists r, best_of_group argsort g = [r].
Proof.
  unfold best_of_group. destruct (sort_values_dist argsort g) as [|r l].
  - now left.
  - right. now exists r.
Qed.

Lemma pieces_sub (df : list ProcRow) (ks : list string) :
  NoDup ks ->
  NoDup (map address_1
           (flat_map (best_of_group argsort) (map (get_group df) ks))) /\
  forall r,
    In r (flat_map (best_of_group argsort) (map (get_group df) ks)) ->
    In (address_1 r) ks /\ In r df.
Proof.
  induction ks as [|k ks IH]; intros Hnd.
  - split; [constructor | intros r []].
  - inversion Hnd as [|? ? Hk Hks]; subst.
    destruct (IH Hks) as (IHn & IHi). cbn [map flat_map].
    assert (Hhead : forall r, In r (best_of_group argsort (get_group df k)) ->
                              address_1 r = k /\ In r df).
    { intros r Hr. apply best_of_group_In, get_group_In in Hr. tauto. }
    split.
    + destruct (best_of_group_short (get_group df k)) as [E|(r & E)];
        rewrite E in *; [exact IHn|].
      cbn [app map]. constructor; [|exact IHn].
      destruct (Hhead r (or_introl eq_refl)) as (Er & _).
      intros Hin. apply in_map_iff in Hin as (r' & Er' & Hr').
      apply IHi in Hr' as (Hr' & _). apply Hk. congruence.
    + intros r Hr. apply in_app_iff in Hr as [Hr|Hr].
      * destruct (Hhead r Hr) as (Er & Hdf). split; [left; now symmetry | exact Hdf].
      * destruct (IHi r Hr) as (Hk' & Hdf). split; [now right | exact Hdf].
Qed.

Lemma groupby_apply_In (df : list ProcRow) (r : ProcRow) :
  In r (groupby_apply argsort df) -> In r df.
Proof.
  unfold groupby_apply.
  destruct (transform_like (groups_of df)); [easy|].
  intros H. apply (pieces_sub df _ (group_keys_NoDup df)) in H. tauto.
Qed.

Lemma groupby_apply_NoDup (df : list ProcRow) :
  NoDup (map address_1 (groupby_apply argsort df)).
Proof.
  unfold groupby_apply.
  destruct (transform_like (groups_of df)) eqn:E.
  - now apply transform_like_NoDup.
  - apply (pieces_sub df _ (group_keys_NoDup df)).
Qed.

End AnySort.

End KeepFacts.

(** ** The two joins *)

Module MergeFacts.
Import PyStr StripFacts JoinFacts.

Lemma filter_nil_iff {A : Type} (f : A -> bool) (l : list A) :
  filter f l = [] <-> forall x, In x l -> f x = false.
Proof.
  induction l as [|y l IH]; cbn [filter].
  - split; [intros _ x [] | reflexivity].
  - destruct (f y) eqn:E.
    + split; [discriminate|]. intros H.
      specialize (H y (or_introl eq_refl)). congruence.
    + rewrite IH. split.
      * intros H x [<-|Hx]; [exact E | now apply H].
      * intros H x Hx. apply H. now right.
Qed.

Lemma map_flat_map {A B C : Type} (g : B -> C) (f : A -> list B)
      (l : list A) :
  map g (flat_map f l) = flat_map (fun x => map g (f x)) l.
Proof.
  induction l as [|x l IH]; [reflexivity|].
  cbn [flat_map]. now rewrite map_app, IH.
Qed.

Lemma flat_map_map {A B C : Type} (g : A -> B) (f : B -> list C)
      (l : list A) :
  flat_map f (map g l) = flat_map (fun x => f (g x)) l.
Proof.
  induction l as [|x l IH]; [reflexivity|].
  cbn [map flat_map]. now rewrite IH.
Qed.

Lemma flat_map_ext_In {A B : Type} (f g : A -> list B) (l : list A) :
  (forall x, In x l -> f x = g x) -> flat_map f l = flat_map g l.
Proof.
  induction l as [|x l IH]; intros H; [reflexivity|].
  cbn [flat_map]. rewrite (H x (or_introl eq_refl)), IH; [reflexivity|].
  intros y Hy. apply H. now right.
Qed.

Lemma flat_map_single {A B : Type} (f : A -> list B) (g : A -> B)
      (l : list A) :
  (forall x, In x l -> f x = [g x]) -> flat_map f l = map g l.
Proof.
  induction l as [|x l IH]; intros H; [reflexivity|].
  cbn [flat_map map]. rewrite (H x (or_introl eq_refl)), IH; [reflexivity|].
  intros y Hy. apply H. now right.
Qed.

(** At most one row has a given key when the keys are distinct. *)
Lemma filter_key_NoDup {A : Type} (key : A -> string) (k : string)
      (l : list A) :
  NoDup (map key l) ->
  filter (fun x => String.eqb (key x) k) l = []
  \/ exists x, filter (fun x => String.eqb (key x) k) l = [x].
Proof.
  induction l as [|y l IH]; intros Hnd; [now left|].
  cbn [map] in Hnd. inversion Hnd as [|? ? Hy Hl]; subst.
  cbn [filter]. destruct (String.eqb (key y) k) eqn:E.
  - right. exists y. f_equal. apply filter_nil_iff. intros x Hx.
    apply String.eqb_eq in E. apply String.eqb_neq. intros Ex.
    apply Hy. rewrite E, <- Ex. now apply in_map.
  - now apply IH.
Qed.

Section Joins.

Context {Cols : Type}.

Lemma strip_Address_map (data : list (DataRow Cols)) :
  strip_Address data = map trim_row data.
Proof. reflexivity. Qed.

(** The rows that one record of [dl_dist_fin] gives in [data_both]. *)
Lemma data_both_flat_map (data1 : list (DataRow Cols)) (fin : list ProcRow) :
  data_both data1 fin
  = flat_map
      (fun r =>
         match filter
                 (fun l => String.eqb (Address l) (strip (address_1 r)))
                 (map trim_row data1) with
         | [] => [(None, trim_rec r)]
         | met => map (fun l => (Some l, trim_rec r)) met
         end)
      fin.
Proof.
  unfold data_both, merge_right, strip_address_2, strip_address_1.
  rewrite map_flat_map, flat_map_map. apply flat_map_ext_In. intros r _.
  cbn [address_1]. rewrite strip_Address_map.
  destruct (filter _ (map trim_row data1)) as [|l met]; [reflexivity|].
  rewrite map_map. reflexivity.
Qed.

Lemma filter_trimmed_In (data : list (DataRow Cols)) (k : string)
      (l : DataRow Cols) :
  In l (filter (fun l => String.eqb (Address l) k) (map trim_row data)) <->
  exists d, In d data /\ l = trim_row d /\ strip (Address d) = k.
Proof.
  rewrite filter_In, in_map_iff. split.
  - intros ((d & <- & Hd) & E). apply String.eqb_eq in E.
    exists d. repeat split; assumption.
  - intros (d & Hd & -> & E). split; [now exists d|].
    apply String.eqb_eq. exact E.
Qed.

Lemma data_both_In (data1 : list (DataRow Cols)) (fin : list ProcRow)
      (x : option (DataRow Cols)) (p : ProcRow) :
  In (x, p) (data_both data1 fin) <->
  exists r,
    In r fin /\ p = trim_rec r /\
    ((x = None /\
      forall d, In d data1 -> strip (Address d) <> strip (address_1 r)) \/
     (exists d, In d data1 /\ x = Some (trim_row d) /\
                strip (Address d) = strip (address_1 r))).
Proof.
  rewrite data_both_flat_map, in_flat_map. split.
  - intros (r & Hr & Hin). exists r. split; [exact Hr|].
    destruct (filter _ (map trim_row data1)) as [|l0 met] eqn:E.
    + destruct Hin as [Hin|[]]. inversion Hin; subst. split; [reflexivity|].
      left. split; [reflexivity|]. intros d Hd Ed.
      assert (Hin' : In (trim_row d)
                (filter (fun l => String.eqb (Address l) (strip (address_1 r)))
                        (map trim_row data1))).
      { apply filter_trimmed_In. now exists d. }
      rewrite E in Hin'. destruct Hin'.
    + apply in_map_iff in Hin as (l & El & Hl). inversion El; subst.
      split; [reflexivity|]. right. rewrite <- E in Hl.
      apply filter_trimmed_In in Hl as (d & Hd & -> & Ed). now exists d.
  - intros (r & Hr & -> & [[-> Hno]|(d & Hd & -> & Ed)]); exists r;
      (split; [exact Hr|]).
    + assert (E : filter
                    (fun l => String.eqb (Address l) (strip (address_1 r)))
                    (map trim_row data1) = []).
      { apply filter_nil_iff. intros l Hl.
        apply in_map_iff in Hl as (d & <- & Hd). apply String.eqb_neq.
        now apply Hno. }
      rewrite E. now left.
    + assert (Hin : In (trim_row d)
                (filter (fun l => String.eqb (Address l) (strip (address_1 r)))
                        (map trim_row data1))).
      { apply filter_trimmed_In. now exists d. }
      destruct (filter _ (map trim_row data1)) as [|l0 met];
        [destruct Hin|].
      apply in_map_iff. now exists (trim_row d).
Qed.

Lemma data_fin_In (data1 data2 : list (DataRow Cols)) (fin : list ProcRow)
      (b : BothRow Cols) (y : option (DataRow Cols)) :
  In (b, y) (data_fin data1 data2 fin) <->
  In b (data_both data1 fin) /\
  ((y = None /\
    forall d, In d data2 -> address_2 (snd b) <> Some (strip (Address d))) \/
   (exists d, In d data2 /\ y = Some (trim_row d) /\
              address_2 (snd b) = Some (strip (Address d)))).
Proof.
  unfold data_fin. rewrite merge_left_In, strip_Address_map. split.
  - intros (Hb & [[-> E]|(r & -> & Hr & Hk)]); (split; [exact Hb|]).
    + left. split; [reflexivity|]. intros d Hd Ed.
      rewrite filter_nil_iff in E.
      specialize (E (trim_row d) (in_map trim_row _ _ Hd)).
      unfold key_meets in E. rewrite Ed in E. cbn [trim_row Address] in E.
      rewrite String.eqb_refl in E. discriminate.
    + right. apply in_map_iff in Hr as (d & <- & Hd). exists d.
      repeat split; [exact Hd|]. unfold key_meets in Hk.
      destruct (address_2 (snd b)) as [a|]; [|discriminate].
      apply String.eqb_eq in Hk. now subst.
  - intros (Hb & [[-> Hno]|(d & Hd & -> & Ed)]); (split; [exact Hb|]).
    + left. split; [reflexivity|]. apply filter_nil_iff. intros l Hl.
      apply in_map_iff in Hl as (d & <- & Hd). unfold key_meets.
      destruct (address_2 (snd b)) as [a|] eqn:Ea; [|reflexivity].
      apply String.eqb_neq. intros ->. now apply (Hno d Hd).
    + right. exists (trim_row d). repeat split; [now apply in_map|].
      unfold key_meets. rewrite Ed. apply String.eqb_refl.
Qed.

(** With distinct trimmed addresses in [data1], a record gives one row. *)
Lemma data_both_one_to_one (data1 : list (DataRow Cols))
      (fin : list ProcRow) :
  NoDup (map Address (strip_Address data1)) ->
  map snd (data_both data1 fin) = map trim_rec fin.
Proof.
  intros Hnd. rewrite data_both_flat_map, map_flat_map.
  apply flat_map_single. intros r _. rewrite strip_Address_map in Hnd.
  destruct (filter_key_NoDup Address (strip (address_1 r)) _ Hnd)
    as [E|(l & E)]; rewrite E; reflexivity.
Qed.

(** With distinct trimmed addresses in [data2], a row of [data_both] gives
    one row. *)
Lemma data_fin_one_to_one (data1 data2 : list (DataRow Cols))
      (fin : list ProcRow) :
  NoDup (map Address (strip_Address data2)) ->
  map fst (data_fin data1 data2 fin) = data_both data1 fin.
Proof.
  intros Hnd. unfold data_fin, merge_left. rewrite map_flat_map.
  rewrite <- (map_id (data_both data1 fin)) at 2.
  apply flat_map_single. intros b _.
  assert (E : filter (key_meets b) (strip_Address data2) = []
              \/ exists r, filter (key_meets b) (strip_Address data2) = [r]).
  { unfold key_meets. destruct (address_2 (snd b)) as [a|].
    - destruct (filter_key_NoDup Address a _ Hnd) as [E|(l & E)].
      + left. rewrite <- E. apply filter_ext. intros r. apply String.eqb_sym.
      + right. exists l. rewrite <- E. apply filter_ext. intros r.
        apply String.eqb_sym.
    - left. apply filter_nil_iff. reflexivity. }
  destruct E as [E|(r & E)]; rewrite E; reflexivity.
Qed.

End Joins.

End MergeFacts.

(** ** The whole run *)

Module RunFacts.
Import PyStr KeyFacts StripFacts FirstSeen TableFacts GroupFacts SelectFacts
       CrossFacts PipelineFacts KeepFacts MergeFacts.

(** The rows of each key, key after key, are the rows of the table. *)
Lemma flat_map_filter_cons {A : Type} (kf : A -> string) (x : A)
      (l : list A) (ks : list string) :
  NoDup ks ->
  (~ In (kf x) ks ->
   flat_map (fun k => filter (fun y => String.eqb (kf y) k) (x :: l)) ks
   = flat_map (fun k => filter (fun y => String.eqb (kf y) k) l) ks) /\
  (In (kf x) ks ->
   Permutation
     (flat_map (fun k => filter (fun y => String.eqb (kf y) k) (x :: l)) ks)
     (x :: flat_map (fun k => filter (fun y => String.eqb (kf y) k) l) ks)).
Proof.
  induction ks as [|k ks IH]; intros Hnd.
  - split; [reflexivity | intros []].
  - inversion Hnd as [|? ? Hk Hks]; subst. destruct (IH Hks) as (IHout & IHin).
    cbn [flat_map].
    assert (Hf : filter (fun y => String.eqb (kf y) k) (x :: l)
                 = if String.eqb (kf x) k
                   then x :: filter (fun y => String.eqb (kf y) k) l
                   else filter (fun y => String.eqb (kf y) k) l)
      by reflexivity.
    rewrite Hf. clear Hf. destruct (String.eqb (kf x) k) eqn:E.
    + apply String.eqb_eq in E. subst k. split.
      * intros H. exfalso. apply H. now left.
      * intros _. rewrite (IHout Hk). reflexivity.
    + apply String.eqb_neq in E. split.
      * intros H. rewrite IHout; [reflexivity|]. intros H'. apply H. now right.
      * intros [H|H]; [congruence|].
        eapply Permutation_trans;
          [apply Permutation_app_head, (IHin H) | ].
        apply Permutation_sym, Permutation_middle.
Qed.

Lemma flat_map_filter_perm {A : Type} (kf : A -> string) (ks : list string)
      (l : list A) :
  NoDup ks -> (forall x, In x l -> In (kf x) ks) ->
  Permutation
    (flat_map (fun k => filter (fun y => String.eqb (kf y) k) l) ks) l.
Proof.
  intros Hnd. induction l as [|x l IH]; intros Hin.
  - replace (flat_map _ ks) with (@nil A); [constructor|].
    clear. induction ks as [|k ks IH]; [reflexivity | exact IH].
  - eapply Permutation_trans.
    + apply (flat_map_filter_cons kf x l ks Hnd). apply Hin. now left.
    + constructor. apply IH. intros y Hy. apply Hin. now right.
Qed.

Lemma NoDup_map_through {A : Type} (f g : A -> string) (l : list A) :
  NoDup (map f l) ->
  (forall a b, In a l -> In b l -> g a = g b -> f a = f b) ->
  NoDup (map g l).
Proof.
  induction l as [|x l IH]; intros Hnd Hinj; [constructor|].
  cbn [map] in *. inversion Hnd as [|? ? Hx Hl]; subst. constructor.
  - intros Hin. apply in_map_iff in Hin as (y & Ey & Hy). apply Hx.
    rewrite (Hinj x y); [now apply in_map | now left | now right | now symmetry].
  - apply IH; [exact Hl|]. intros a b Ha Hb. apply Hinj; now right.
Qed.

Section Run.

Context {Cols : Type}.

Variable argsort : list Z -> list nat.
Variable metric : string -> string -> Z.

Lemma dl_dist_fin_shape (arr1 arr2 : list string) (fin : list ProcRow) :
  dl_dist_fin argsort metric arr1 arr2 = Ok fin ->
  fin = groupby_apply argsort
          (cross_rows metric (unique arr1) (unique arr2)) /\
  arr1 <> [] /\ arr2 <> [] /\ Forall clean arr1 /\ Forall clean arr2.
Proof.
  intros H. destruct (scored_pairs metric arr1 arr2) as [rows|e] eqn:Es.
  - rewrite (dl_dist_fin_of_scored argsort metric _ _ _ Es) in H.
    inversion H; subst fin.
    destruct (scored_pairs_shape _ _ _ _ Es) as (-> & Hrest).
    split; [reflexivity | exact Hrest].
  - unfold dl_dist_fin, select_best in H. unfold scored_pairs in Es.
    rewrite Es in H. discriminate.
Qed.

Lemma dl_dist_fin_rows (arr1 arr2 : list string) (fin : list ProcRow)
      (r : ProcRow) :
  dl_dist_fin argsort metric arr1 arr2 = Ok fin -> In r fin ->
  exists s1 s2, In s1 arr1 /\ In s2 arr2 /\ r = pair_row metric s1 s2.
Proof.
  intros H Hr. destruct (dl_dist_fin_shape _ _ _ H) as (-> & _).
  apply groupby_apply_In, cross_rows_In in Hr as (s1 & s2 & H1 & H2 & ->).
  exists s1, s2. repeat split; now apply unique_In.
Qed.

Lemma dl_dist_fin_best (arr1 arr2 : list string) (fin : list ProcRow)
      (s1 : string) :
  is_argsort argsort ->
  dl_dist_fin argsort metric arr1 arr2 = Ok fin -> In s1 arr1 ->
  exists s2,
    In s2 arr2 /\ In (pair_row metric s1 s2) fin /\
    forall s, In s arr2 -> (metric s1 s2 <= metric s1 s)%Z.
Proof.
  intros Hsort H H1.
  destruct (dl_dist_fin_shape _ _ _ H) as (-> & _ & Hn2 & _ & _).
  destruct arr2 as [|s0 arr2']; [congruence|]. set (arr2 := s0 :: arr2') in *.
  assert (Hr0 : In (pair_row metric s1 s0)
                   (cross_rows metric (unique arr1) (unique arr2))).
  { apply cross_rows_In. exists s1, s0.
    repeat split; apply unique_In; [exact H1 | now left]. }
  destruct (groupby_apply_min argsort Hsort _ _ Hr0)
    as (rec & Hin & Hdf & Ek & Hmin).
  apply cross_rows_In in Hdf as (t1 & s2 & _ & H2 & ->).
  cbn [pair_row address_1] in Ek. apply append_blank_inj in Ek. subst t1.
  exists s2. split; [now apply unique_In|]. split; [exact Hin|].
  intros s Hs.
  change (metric s1 s2 <= metric s1 s)%Z
    with (dist (pair_row metric s1 s2) <= dist (pair_row metric s1 s))%Z.
  apply Hmin; [|reflexivity].
  apply cross_rows_In. exists s1, s. repeat split; now apply unique_In.
Qed.

Lemma trim_rec_pair_row (s1 s2 : string) :
  trim_rec (pair_row metric s1 s2)
  = {| address_1 := strip s1; address_2 := Some (strip s2);
       dist := metric s1 s2 |}.
Proof.
  unfold trim_rec, pair_row. cbn [address_1 address_2 dist option_map].
  now rewrite strip_app_blank, strip_blank_app.
Qed.

Lemma fuzzy_join_ok (data1 data2 : list (DataRow Cols))
      (rows : list (BothRow Cols * option (DataRow Cols))) :
  fuzzy_join argsort metric data1 data2 = Ok rows <->
  exists fin,
    dl_dist_fin argsort metric (map Address data1) (map Address data2)
    = Ok fin /\
    rows = data_fin data1 data2 fin.
Proof.
  unfold fuzzy_join.
  destruct (dl_dist_fin argsort metric (map Address data1)
              (map Address data2)) as [fin|e]; cbn [bind].
  - split.
    + intros H. inversion H. now exists fin.
    + intros (fin' & E & ->). inversion E. reflexivity.
  - split; [discriminate | intros (fin' & E & _); discriminate].
Qed.

End Run.

End RunFacts.

(** ** Column labels *)

Module ColumnFacts.
Import PyStr PyStrFacts Columns MergeFacts.
Local Open Scope string_scope.

Lemma app_string_length (s t : string) :
  String.length (s ++ t) = String.length s + String.length t.
Proof.
  induction s as [|c s IH]; [reflexivity|]. cbn. now rewrite IH.
Qed.

Lemma drop_app_exact (s t : string) : drop (String.length s) (s ++ t) = t.
Proof.
  induction s as [|c s IH]; [reflexivity | exact IH].
Qed.

Lemma app_string_inv_tail (s t u : string) : s ++ u = t ++ u -> s = t.
Proof.
  revert t. induction s as [|c s IH]; intros [|d t] E.
  - reflexivity.
  - exfalso. apply (f_equal String.length) in E.
    cbn in E. rewrite app_string_length in E. lia.
  - exfalso. apply (f_equal String.length) in E.
    cbn in E. rewrite app_string_length in E. lia.
  - cbn in E. inversion E. f_equal. now apply IH.
Qed.

Lemma endswith_app (c suffix : string) : endswith suffix (c ++ suffix) = true.
Proof.
  unfold endswith. rewrite app_string_length.
  replace (String.length c + String.length suffix - String.length suffix)
    with (String.length c) by lia.
  rewrite drop_app_exact, String.eqb_refl.
  apply andb_true_iff. split; [|reflexivity]. apply Nat.leb_le. lia.
Qed.

Lemma mem_In (c : string) (cols : list string) :
  mem c cols = true <-> In c cols.
Proof.
  unfold mem. rewrite existsb_exists. split.
  - intros (x & Hx & E). apply String.eqb_eq in E. now subst.
  - intros H. exists c. split; [exact H | apply String.eqb_refl].
Qed.

Lemma mem_false (c : string) (cols : list string) :
  mem c cols = false <-> ~ In c cols.
Proof.
  rewrite <- mem_In. destruct (mem c cols); split; congruence.
Qed.

(** Labels without repetition: nothing is duplicated. *)
Lemma duplicated_from_NoDup (cols : list string) :
  forall seen,
    NoDup cols -> (forall c, In c cols -> ~ In c seen) ->
    forall b, In b (duplicated_from seen cols) -> b = false.
Proof.
  induction cols as [|c cols IH]; intros seen Hnd Hseen b Hb; [destruct Hb|].
  inversion Hnd as [|? ? Hc Hcols]; subst. destruct Hb as [<-|Hb].
  - apply mem_false. apply Hseen. now left.
  - apply (IH (c :: seen) Hcols); [|exact Hb].
    intros c' Hc' [<-|H]; [contradiction|].
    apply (Hseen c'); [now right | exact H].
Qed.

Lemma caused_dups_NoDup (orig renamed : list string) :
  NoDup renamed -> caused_dups orig renamed = [].
Proof.
  intros Hnd. unfold caused_dups.
  replace (filter _ _) with (@nil (string * (bool * bool))); [reflexivity|].
  symmetry. apply filter_nil_iff. intros [c [dn dorig]] Hin.
  apply in_combine_r, in_combine_l in Hin. cbn [fst snd].
  rewrite (duplicated_from_NoDup renamed [] Hnd (fun _ _ H => H) dn Hin).
  reflexivity.
Qed.

Lemma plain_not_suffixed (c c' suffix : string) :
  plain c -> suffix = "_x" \/ suffix = "_y" -> c <> c' ++ suffix.
Proof.
  intros Hp Hs ->. unfold plain, endswith_any in Hp. cbn [existsb] in Hp.
  destruct Hs as [-> | ->]; rewrite endswith_app in Hp;
    [|rewrite orb_true_r in Hp]; discriminate.
Qed.

Lemma rename_In (other : list string) (suffix : string) (cols : list string)
      (c : string) :
  In c (rename other suffix cols) <->
  exists c0, In c0 cols /\
             c = if mem c0 other then c0 ++ suffix else c0.
Proof.
  unfold rename. rewrite in_map_iff. split; intros (c0 & H1 & H2).
  - exists c0. split; [exact H2 | now symmetry].
  - exists c0. split; [now symmetry | exact H1].
Qed.

Lemma rename_NoDup (other : list string) (suffix : string)
      (cols : list string) :
  suffix = "_x" \/ suffix = "_y" -> Forall plain cols -> NoDup cols ->
  NoDup (rename other suffix cols).
Proof.
  intros Hs Hp Hnd. induction cols as [|c cols IH]; [constructor|].
  inversion Hnd as [|? ? Hc Hcols]; subst.
  inversion Hp as [|? ? Hpc Hpcols]; subst.
  cbn [rename map]. constructor; [|now apply IH].
  intros Hin. apply rename_In in Hin as (c0 & Hc0 & E).
  rewrite Forall_forall in Hpcols.
  destruct (mem c other), (mem c0 other).
  - apply app_string_inv_tail in E. now subst.
  - symmetry in E. now apply (plain_not_suffixed c0 c suffix (Hpcols c0 Hc0) Hs).
  - now apply (plain_not_suffixed c c0 suffix Hpc Hs).
  - now subst.
Qed.

Lemma rename_disjoint (other : list string) (suffix : string)
      (cols : list string) :
  (forall c, In c cols -> ~ In c other) -> rename other suffix cols = cols.
Proof.
  intros H. unfold rename. rewrite <- (map_id cols) at 2.
  apply map_ext_in. intros c Hc.
  now rewrite (proj2 (mem_false c other) (H c Hc)).
Qed.

(** What is left of one side when the suffixed labels go. *)
Lemma filter_plain_rename (other : list string) (suffix : string)
      (cols : list string) :
  suffix = "_x" \/ suffix = "_y" -> Forall plain cols ->
  filter (fun c => negb (endswith_any ["_x"; "_y"] c))
         (rename other suffix cols)
  = filter (fun c => negb (mem c other)) cols.
Proof.
  intros Hs Hp. induction cols as [|c cols IH]; [reflexivity|].
  inversion Hp as [|? ? Hpc Hpcols]; subst.
  cbn [rename map filter]. fold (rename other suffix cols).
  rewrite (IH Hpcols). destruct (mem c other); cbn [negb].
  - replace (endswith_any ["_x"; "_y"] (c ++ suffix)) with true; [reflexivity|].
    symmetry. unfold endswith_any. cbn [existsb].
    destruct Hs as [-> | ->]; rewrite endswith_app;
      [reflexivity | apply orb_true_r].
  - rewrite Hpc. reflexivity.
Qed.

Lemma select_mask_filter (f : string -> bool) (columns : list string) :
  select_mask (map f columns) columns = filter f columns.
Proof.
  unfold select_mask. induction columns as [|c columns IH]; [reflexivity|].
  cbn [map combine filter fst]. destruct (f c); cbn [map snd]; now rewrite IH.
Qed.

Lemma drop_own_labels (f : string -> bool) (columns : list string) :
  drop_columns (filter f columns) columns
  = Done (filter (fun c => negb (f c)) columns).
Proof.
  unfold drop_columns.
  replace (forallb _ (filter f columns)) with true.
  - f_equal. apply filter_ext_in. intros c Hc. f_equal.
    destruct (f c) eqn:E.
    + apply mem_In, filter_In. now split.
    + apply mem_false. intros H. apply filter_In in H. destruct H. congruence.
  - symmetry. apply forallb_forall. intros l Hl.
    apply mem_In. now apply filter_In in Hl.
Qed.

Lemma shown_columns_filter (columns : list string) :
  shown_columns columns
  = Done (filter (fun c => negb (endswith_any ["_x"; "_y"] c)) columns).
Proof.
  unfold shown_columns, suffix_mask.
  rewrite select_mask_filter. apply drop_own_labels.
Qed.

Lemma merge_columns_plain (left right : list string)
      (left_on right_on : string) :
  In left_on left -> In right_on right ->
  NoDup left -> NoDup right -> Forall plain left -> Forall plain right ->
  merge_columns left right left_on right_on
  = Done (rename right "_x" left ++ rename left "_y" right)%list.
Proof.
  intros Hl Hr Hnl Hnr Hpl Hpr. unfold merge_columns.
  rewrite (proj2 (mem_In _ _) Hl), (proj2 (mem_In _ _) Hr). cbn [andb].
  rewrite !caused_dups_NoDup; [reflexivity| |];
    apply rename_NoDup; auto.
Qed.

End ColumnFacts.

(** ** Trimming twice *)

Module TrimFacts.
Import PyStr StripFacts.
Local Open Scope string_scope.

Lemma rstrip_cons (c : ascii) (s : string) :
  rstrip (String c s)
  = match rstrip s with
    | "" => if isspace c then "" else String c ""
    | r => String c r
    end.
Proof. reflexivity. Qed.

Lemma rstrip_twice (s : string) : rstrip (rstrip s) = rstrip s.
Proof.
  induction s as [|c s IH]; [reflexivity|].
  rewrite rstrip_cons. destruct (rstrip s) as [|c0 r0] eqn:E.
  - destruct (isspace c) eqn:Ec; [reflexivity|].
    rewrite rstrip_cons. cbn [rstrip]. now rewrite Ec.
  - rewrite rstrip_cons, IH. reflexivity.
Qed.

Lemma lstrip_rstrip_lstrip (s : string) :
  lstrip (rstrip (lstrip s)) = rstrip (lstrip s).
Proof.
  induction s as [|c s IH]; [reflexivity|].
  rewrite lstrip_cons. destruct (isspace c) eqn:Ec; [exact IH|].
  rewrite rstrip_cons. destruct (rstrip s) as [|c0 r0];
    rewrite ?Ec, lstrip_cons, Ec; reflexivity.
Qed.

Lemma strip_twice (s : string) : strip (strip s) = strip s.
Proof.
  unfold strip. now rewrite lstrip_rstrip_lstrip, rstrip_twice.
Qed.

End TrimFacts.

(** ** The order of the left column *)

Module OrderFacts.
Import KeyFacts FirstSeen TableFacts GroupFacts SelectFacts CrossFacts
       PipelineFacts.

Lemma lts_trans (a b c : string) : lts a b -> lts b c -> lts a c.
Proof. apply String_as_OT.lt_trans. Qed.

(** A sorted list is determined by its elements. *)
Lemma sorted_same_elements (l l' : list string) :
  StronglySorted lts l -> StronglySorted lts l' ->
  (forall x, In x l <-> In x l') -> l = l'.
Proof.
  revert l'. induction l as [|x l IH]; intros [|y l'] Hs Hs' Hel.
  - reflexivity.
  - exfalso. apply (proj2 (Hel y)). now left.
  - exfalso. apply (proj1 (Hel x)). now left.
  - inversion Hs as [|? ? Hl Hx]; subst.
    inversion Hs' as [|? ? Hl' Hy]; subst.
    rewrite Forall_forall in Hx, Hy.
    assert (x = y).
    { destruct (proj1 (Hel x) (or_introl eq_refl)) as [E|Hin]; [now symmetry|].
      destruct (proj2 (Hel y) (or_introl eq_refl)) as [E|Hin']; [exact E|].
      exfalso. apply (lts_irrefl x).
      apply (lts_trans x y x); [now apply Hx | now apply Hy]. }
    subst y. f_equal. apply IH; try assumption.
    intros z. split; intros Hz.
    + destruct (proj1 (Hel z) (or_intror Hz)) as [E|Hin]; [|exact Hin].
      subst z. exfalso. apply (lts_irrefl x). now apply Hx.
    + destruct (proj2 (Hel z) (or_intror Hz)) as [E|Hin]; [|exact Hin].
      subst z. exfalso. apply (lts_irrefl x). now apply Hy.
Qed.

Section Order.

Variable argsort : list Z -> list nat.
Variable metric : string -> string -> Z.

(** With at least two right texts the selection on a cross product depends
    on the left texts as a set only. *)
Lemma groupby_apply_cross_set (u u' r : list string) :
  NoDup u -> NoDup u' -> (forall s, In s u <-> In s u') ->
  2 <= List.length r -> u <> [] ->
  groupby_apply argsort (cross_rows metric u r)
  = groupby_apply argsort (cross_rows metric u' r).
Proof.
  intros Hu Hu' Hel Hr Hne.
  assert (Hr0 : r <> []) by (intros ->; cbn in Hr; lia).
  assert (Hne' : u' <> []).
  { destruct u as [|s u]; [congruence|]. intros ->.
    apply (proj1 (Hel s)). now left. }
  assert (Hk : group_keys (cross_rows metric u r)
               = group_keys (cross_rows metric u' r)).
  { apply sorted_same_elements; try apply group_keys_sorted.
    intros k. rewrite !cross_rows_keys by exact Hr0.
    split; intros (s1 & H1 & ->); exists s1; (split; [now apply Hel | reflexivity]). }
  unfold groupby_apply.
  rewrite !transform_like_cross by assumption.
  destruct (List.length r =? 1)%nat eqn:E; [apply Nat.eqb_eq in E; lia|].
  unfold groups_of. rewrite <- Hk. f_equal. apply map_ext_in. intros k Hin.
  apply (cross_rows_keys metric u r k Hr0) in Hin as (s1 & H1 & ->).
  rewrite !get_group_cross; try assumption; [reflexivity | now apply Hel].
Qed.

End Order.

End OrderFacts.

(** ** The order of the right column *)

Module RightOrderFacts.
Import KeyFacts FirstSeen TableFacts GroupFacts SelectFacts CrossFacts
       PipelineFacts KeepFacts RunFacts OrderFacts.

(** Two tables with the same keys, row by row, and the same distance under
    each key, agree in both columns. *)
Lemma same_keys_same_dist (l l' : list ProcRow) :
  map address_1 l = map address_1 l' ->
  (forall r r', In r l -> In r' l' -> address_1 r = address_1 r' ->
                dist r = dist r') ->
  map (fun r => (address_1 r, dist r)) l
  = map (fun r => (address_1 r, dist r)) l'.
Proof.
  revert l'. induction l as [|r l IH]; intros [|r' l'] Hk Hd;
    try discriminate; [reflexivity|].
  cbn [map] in *. inversion Hk as [[Hk0 Hk1]].
  rewrite (Hd r r' (or_introl eq_refl) (or_introl eq_refl) Hk0), Hk0.
  f_equal. apply IH; [exact Hk1|].
  intros a b Ha Hb. apply Hd; now right.
Qed.

(** Rows with distinct keys: a key names one row. *)
Lemma NoDup_key_unique (l : list ProcRow) (a b : ProcRow) :
  NoDup (map address_1 l) -> In a l -> In b l ->
  address_1 a = address_1 b -> a = b.
Proof.
  induction l as [|x xs IH]; intros Hnd Ha Hb E; [destruct Ha|].
  cbn [map] in Hnd. inversion Hnd as [|? ? Hx Hxs]; subst.
  destruct Ha as [Ha|Ha], Hb as [Hb|Hb].
  - congruence.
  - exfalso. apply Hx. subst x. rewrite E. now apply in_map.
  - exfalso. apply Hx. subst x. rewrite <- E. now apply in_map.
  - now apply IH.
Qed.

Section RightOrder.

Variable argsort : list Z -> list nat.
Variable metric : string -> string -> Z.
Hypothesis argsort_ok : is_argsort argsort.

Lemma dl_dist_fin_min_row (arr1 arr2 : list string) (fin : list ProcRow)
      (r : ProcRow) :
  dl_dist_fin argsort metric arr1 arr2 = Ok fin -> In r fin ->
  exists s1 s2,
    In s1 arr1 /\ In s2 arr2 /\ r = pair_row metric s1 s2 /\
    forall s, In s arr2 -> (metric s1 s2 <= metric s1 s)%Z.
Proof.
  intros H Hr.
  destruct (dl_dist_fin_rows _ _ _ _ _ _ H Hr) as (s1 & s2 & H1 & H2 & ->).
  destruct (dl_dist_fin_best argsort metric _ _ _ s1 argsort_ok H H1)
    as (s2b & H2b & Hrow & Hmin).
  assert (E : pair_row metric s1 s2b = pair_row metric s1 s2).
  { destruct (dl_dist_fin_shape _ _ _ _ _ H) as (Efin & _).
    pose proof (groupby_apply_NoDup argsort
                  (cross_rows metric (unique arr1) (unique arr2))) as Hnd.
    rewrite <- Efin in Hnd.
    apply (NoDup_key_unique fin); try assumption. reflexivity. }
  exists s1, s2. repeat split; try assumption.
  assert (Ed : metric s1 s2b = metric s1 s2)
    by (apply (f_equal dist) in E; exact E).
  intros s Hs. rewrite <- Ed. now apply Hmin.
Qed.

Lemma dl_dist_fin_keys_right (arr1 arr2 arr2' : list string)
      (fin fin' : list ProcRow) :
  (forall s, In s arr2 <-> In s arr2') ->
  dl_dist_fin argsort metric arr1 arr2 = Ok fin ->
  dl_dist_fin argsort metric arr1 arr2' = Ok fin' ->
  map address_1 fin = map address_1 fin'.
Proof.
  intros Hel H H'.
  destruct (dl_dist_fin_shape _ _ _ _ _ H) as (-> & Hn1 & Hn2 & _ & _).
  destruct (dl_dist_fin_shape _ _ _ _ _ H') as (-> & _ & Hn2' & _ & _).
  pose proof (unique_nonempty arr1 Hn1) as Hnu.
  pose proof (unique_nonempty arr2 Hn2) as Hnr.
  pose proof (unique_nonempty arr2' Hn2') as Hnr'.
  assert (Hp : Permutation (unique arr2) (unique arr2')).
  { apply NoDup_Permutation; try apply unique_NoDup.
    intros s. rewrite !unique_In. apply Hel. }
  pose proof (Permutation_length Hp) as Hlen.
  destruct (transform_like
              (groups_of (cross_rows metric (unique arr1) (unique arr2))))
    eqn:Et.
  - assert (Et' : transform_like
                    (groups_of (cross_rows metric (unique arr1) (unique arr2')))
                  = true).
    { rewrite transform_like_cross in * by (assumption || apply unique_NoDup).
      now rewrite <- Hlen. }
    unfold groupby_apply. rewrite Et, Et'.
    rewrite transform_like_cross in Et by (assumption || apply unique_NoDup).
    apply Nat.eqb_eq in Et.
    destruct (unique arr2) as [|r [|? ?]]; try discriminate.
    destruct (unique arr2') as [|r' [|? ?]]; try discriminate.
    now rewrite !cross_rows_single_keys.
  - assert (Et' : transform_like
                    (groups_of (cross_rows metric (unique arr1) (unique arr2')))
                  = false).
    { rewrite transform_like_cross in * by (assumption || apply unique_NoDup).
      now rewrite <- Hlen. }
    rewrite !groupby_apply_keys by assumption.
    apply sorted_same_elements; try apply group_keys_sorted.
    intros k. now rewrite !cross_rows_keys by assumption.
Qed.

End RightOrder.

End RightOrderFacts.

(** ** The pieces of a split *)

Module SplitFacts.
Import PyStr PyStrFacts KeyFacts.
Local Open Scope string_scope.

Lemma prefix_drop (p : string) :
  forall s, prefix p s = true -> s = p ++ drop (String.length p) s.
Proof.
  induction p as [|d p IH]; intros s H; [reflexivity|].
  destruct s as [|c s]; [now rewrite prefix_cons_nil in H|].
  rewrite prefix_cons in H. destruct (ascii_dec d c) as [->|]; [|discriminate].
  cbn [String.length drop append]. f_equal. now apply IH.
Qed.

(** The text before the leftmost separator holds none. *)
Lemma partition_spec (p s b a : string) :
  p <> "" ->
  partition p s = Some (b, a) -> s = b ++ p ++ a /\ contains p b = false.
Proof.
  intros Hp. revert b a. induction s as [|c s IH]; intros b a H.
  - rewrite partition_nil in H. destruct p as [|d p]; [congruence|].
    rewrite prefix_cons_nil in H. discriminate.
  - rewrite partition_cons in H. destruct (prefix p (String c s)) eqn:E.
    + inversion H; subst. split; [now apply prefix_drop|].
      rewrite contains_nil. destruct p as [|d p]; [congruence|].
      apply prefix_cons_nil.
    + destruct (partition p s) as [[b' a']|] eqn:Ep; [|discriminate].
      inversion H; subst. destruct (IH b' a eq_refl) as (Es & Hb).
      split; [cbn [append]; now rewrite <- Es|].
      rewrite contains_cons, Hb, orb_false_r.
      destruct (prefix p (String c b')) eqn:E'; [|reflexivity].
      apply (prefix_app _ _ (p ++ a)) in E'. cbn [append] in E'.
      rewrite <- Es in E'. congruence.
Qed.

Lemma split_nonempty (p s : string) : p <> "" -> split p s <> [].
Proof.
  intros Hp. rewrite (split_unfold p s Hp).
  destruct (partition p s) as [[b a]|]; discriminate.
Qed.

Lemma concat_cons (p b : string) (rest : list string) :
  rest <> [] -> String.concat p (b :: rest) = b ++ p ++ String.concat p rest.
Proof.
  destruct rest; [congruence | reflexivity].
Qed.

Lemma split_pieces (p : string) (n : nat) :
  p <> "" ->
  forall s, String.length s <= n ->
    String.concat p (split p s) = s /\
    Forall (fun x => contains p x = false) (split p s).
Proof.
  intros Hp. induction n as [|n IH]; intros s Hn;
    rewrite (split_unfold p s Hp);
    destruct (partition p s) as [[b a]|] eqn:E.
  - exfalso. destruct (partition_length _ _ _ _ E) as (H1 & _).
    destruct p; [congruence | cbn in H1; lia].
  - split; [reflexivity|]. constructor; [|constructor].
    now apply partition_none_iff.
  - destruct (partition_length _ _ _ _ E) as (H1 & H2).
    assert (Ha : String.length a <= n).
    { destruct p; [congruence | cbn in H1, H2; lia]. }
    destruct (IH a Ha) as (Ec & Hall).
    destruct (partition_spec _ _ _ _ Hp E) as (Es & Hb).
    split.
    + rewrite concat_cons by (now apply split_nonempty). now rewrite Ec.
    + constructor; assumption.
  - split; [reflexivity|]. constructor; [|constructor].
    now apply partition_none_iff.
Qed.

End SplitFacts.

(** ** The scoring cell from its first statement *)

Module WholeCellFacts.
Import ScoringFacts TableFacts.

(** Either both columns have rows, and the run is the selection on the
    dict of the loops; or one has none, and the run stops at the first
    statement, where the selection on the empty dict would have raised. *)
Lemma run_dl_dist_fin_cases (argsort : list Z -> list nat)
      (metric : string -> string -> Z) (g : Globals)
      (arr1 arr2 : list string) :
  (arr1 <> [] /\ arr2 <> [] /\
   run_dl_dist_fin argsort metric g arr1 arr2
   = match dl_dist_fin argsort metric arr1 arr2 with
     | Ok recs => Completes recs
     | Raise e => Stops_in_tables e
     end)
  \/
  ((arr1 = [] \/ arr2 = []) /\
   run_dl_dist_fin argsort metric g arr1 arr2 = Stops_in_scoring KeyError /\
   dl_dist_fin argsort metric arr1 arr2
   = Raise (ValueError_length_mismatch 1 2)).
Proof.
  assert (Hempty : arr1 = [] \/ arr2 = [] ->
                   dl_dist_fin argsort metric arr1 arr2
                   = Raise (ValueError_length_mismatch 1 2)).
  { intros H. pose proof (scored_pairs_empty metric arr1 arr2 H) as E.
    unfold dl_dist_fin, select_best. unfold scored_pairs in E.
    now rewrite E. }
  destruct arr1 as [|a l1]; [right|destruct arr2 as [|b l2]; [right|left]].
  - split; [now left|]. split; [reflexivity|]. apply Hempty. now left.
  - split; [now right|]. split; [reflexivity|]. apply Hempty. now right.
  - split; [discriminate|]. split; [discriminate|]. reflexivity.
Qed.

End WholeCellFacts.

(** * The claims *)

Import PyStr PyStrFacts KeyFacts StripFacts DictFacts FirstSeen ScoringFacts
       TableFacts GroupFacts SortFacts SelectFacts CrossFacts PipelineFacts
       JoinFacts ParallelFacts KeepFacts RightOrderFacts.

(** C1.  Minimality of the selection.  Let the sort of a group return its
    rows in ascending order of [dist], as every sort kind does.  Whenever
    the notebook has its table of scored pairs, the selection returns, and
    every left text of the column has exactly one kept row.  That row is a
    row of the scored pairs, and its distance is at most every distance
    computed for the left text: at most the [dist] of every scored row with
    the same [address_1], and at most the distance to every text of the
    right column. *)
Theorem selected_distance_minimal
        (argsort : list Z -> list nat) (metric : string -> string -> Z)
        (arr1 arr2 : list string) (rows : list ProcRow) :
  is_argsort argsort ->
  scored_pairs metric arr1 arr2 = Ok rows ->
  exists recs,
    dl_dist_fin argsort metric arr1 arr2 = Ok recs /\
    forall s1, In s1 arr1 ->
      exists rec,
        In rec recs /\ In rec rows /\
        address_1 rec = (s1 ++ " ")%string /\
        (forall rec', In rec' recs -> address_1 rec' = address_1 rec ->
                      rec' = rec) /\
        (forall r, In r rows -> address_1 r = address_1 rec ->
                   (dist rec <= dist r)%Z) /\
        (forall s2, In s2 arr2 -> (dist rec <= metric s1 s2)%Z).
Proof.
  intros Hsort Hrows.
  exists (groupby_apply argsort rows).
  split; [now apply dl_dist_fin_of_scored|].
  destruct (scored_pairs_shape _ _ _ _ Hrows) as (Erows & Hn1 & Hn2 & _ & _).
  intros s1 Hs1.
  destruct arr2 as [|s0 arr2']; [congruence|]. set (arr2 := s0 :: arr2') in *.
  assert (Hr0 : In (pair_row metric s1 s0) rows).
  { rewrite Erows. apply cross_rows_In. exists s1, s0.
    repeat split; apply unique_In; [exact Hs1 | now left]. }
  destruct (groupby_apply_min argsort Hsort rows _ Hr0)
    as (rec & Hin & Hinr & Ek & Hmin).
  cbn [pair_row address_1] in Ek, Hmin.
  exists rec. repeat split; try assumption.
  - intros rec' Hin' Ek'.
    pose proof (groupby_apply_keys_perm argsort Hsort rows) as Hp.
    assert (Hnd : NoDup (map address_1 (groupby_apply argsort rows))).
    { eapply Permutation_NoDup; [apply Permutation_sym, Hp|].
      apply group_keys_NoDup. }
    clear - Hin Hin' Ek' Hnd.
    induction (groupby_apply argsort rows) as [|x xs IH]; [destruct Hin|].
    cbn [map] in Hnd. inversion Hnd as [|? ? Hx Hxs]; subst.
    destruct Hin as [->|Hin], Hin' as [->|Hin']; auto.
    + exfalso. apply Hx. rewrite <- Ek'. now apply in_map.
    + exfalso. apply Hx. rewrite Ek'. now apply in_map.
  - intros r Hr Er. apply Hmin; [exact Hr | congruence].
  - intros s2 Hs2.
    change (metric s1 s2) with (dist (pair_row metric s1 s2)).
    apply Hmin; [|reflexivity].
    rewrite Erows. apply cross_rows_In. exists s1, s2.
    repeat split; now apply unique_In.
Qed.

(** C1 on worked inputs. *)
Lemma selected_distance_minimal_witness :
  exists recs,
    dl_dist_fin stable_argsort dl left_ex right_ex = Ok recs /\
    forall s1, In s1 left_ex ->
      exists rec,
        In rec recs /\
        In rec (cross_rows dl (unique left_ex) (unique right_ex)) /\
        address_1 rec = (s1 ++ " ")%string /\
        (forall rec', In rec' recs -> address_1 rec' = address_1 rec ->
                      rec' = rec) /\
        (forall r, In r (cross_rows dl (unique left_ex) (unique right_ex)) ->
                   address_1 r = address_1 rec -> (dist rec <= dist r)%Z) /\
        (forall s2, In s2 right_ex -> (dist rec <= dl s1 s2)%Z).
Proof.
  apply (selected_distance_minimal stable_argsort dl left_ex right_ex).
  - exact stable_argsort_is_argsort.
  - vm_compute. reflexivity.
Defined.

(** C2, as stated, fails: two equal left texts and one right text make two
    pairs of the cross product and a single entry of the dict. *)
Lemma scoring_collapses_duplicates :
  List.length (dl_dist_func dl ["a"; "a"] ["b"]) = 1 /\
  List.length ["a"; "a"] * List.length ["b"] = 2.
Proof. split; reflexivity. Qed.

(** C2, amended.  With left texts free of the separator the dict holds one
    entry per pair of distinct values, in the order of their cross product
    and each with its distance: as many entries as the product of the
    numbers of distinct values, never more than [|L| * |R|], and exactly
    that many when neither column repeats a value.  The empty text is a
    text like any other. *)
Theorem scoring_one_entry_per_distinct_pair
        (metric : string -> string -> Z) (arr1 arr2 : list string) :
  Forall clean arr1 ->
  dl_dist_func metric arr1 arr2
  = assignments metric (unique arr1) (unique arr2) /\
  (forall s1 s2, In s1 arr1 -> In s2 arr2 ->
     In (key_of s1 s2, metric s1 s2) (dl_dist_func metric arr1 arr2)) /\
  List.length (dl_dist_func metric arr1 arr2)
  = List.length (unique arr1) * List.length (unique arr2) /\
  List.length (dl_dist_func metric arr1 arr2)
  <= List.length arr1 * List.length arr2 /\
  (NoDup arr1 -> NoDup arr2 ->
   List.length (dl_dist_func metric arr1 arr2)
   = List.length arr1 * List.length arr2).
Proof.
  intros Hc. pose proof (dl_dist_func_unique metric arr1 arr2 Hc) as E.
  split; [exact E|]. split; [|split; [|split]].
  - intros s1 s2 H1 H2. rewrite E. apply assignments_In.
    exists s1, s2. repeat split; now apply unique_In.
  - now rewrite E, assignments_length.
  - rewrite dl_dist_func_update, <- (assignments_length metric).
    apply (dict_update_length []).
  - intros Hd1 Hd2. rewrite E, assignments_length. unfold unique.
    rewrite !first_seen_self; try reflexivity; now rewrite map_id.
Qed.

(** C2 on worked inputs. *)
Lemma scoring_one_entry_per_distinct_pair_witness :
  dl_dist_func dl ["a"; ""; "a"] ["b"; "b"]
  = assignments dl (unique ["a"; ""; "a"]) (unique ["b"; "b"]) /\
  (forall s1 s2, In s1 ["a"; ""; "a"] -> In s2 ["b"; "b"] ->
     In (key_of s1 s2, dl s1 s2) (dl_dist_func dl ["a"; ""; "a"] ["b"; "b"]))
  /\
  List.length (dl_dist_func dl ["a"; ""; "a"] ["b"; "b"])
  = List.length (unique ["a"; ""; "a"]) * List.length (unique ["b"; "b"]) /\
  List.length (dl_dist_func dl ["a"; ""; "a"] ["b"; "b"])
  <= List.length ["a"; ""; "a"] * List.length ["b"; "b"] /\
  (NoDup ["a"; ""; "a"] -> NoDup ["b"; "b"] ->
   List.length (dl_dist_func dl ["a"; ""; "a"] ["b"; "b"])
   = List.length ["a"; ""; "a"] * List.length ["b"; "b"]).
Proof.
  apply (scoring_one_entry_per_distinct_pair dl ["a"; ""; "a"] ["b"; "b"]).
  repeat constructor.
Defined.

(** C3, as stated, fails.  "ab" and "ac" are the two right texts at the
    least distance from "aa", and "ab" comes first in the right column.
    The sort of the group has to return the rows in ascending order of
    [dist] and no more: the default kind of [sort_values] is not a stable
    one.  A sort that does so and returns the positions of the column
    2, 2, 1, 1 as 3, 2, 1, 0 makes the selection keep "ac", the later of
    the two. *)
Lemma a_sort_that_orders_keeps_a_later_tie :
  is_argsort ties_reversed_argsort /\
  right_ties = ["bb"; "cc"; "ab"; "ac"]%string /\
  map (dl "aa") right_ties = [2; 2; 1; 1]%Z /\
  ties_reversed_argsort (map (dl "aa") right_ties) = [3; 2; 1; 0] /\
  dl_dist_fin ties_reversed_argsort dl ["aa"] right_ties
  = Ok [ {| address_1 := "aa "; address_2 := Some " ac"; dist := 1 |} ].
Proof.
  split; [exact ties_reversed_is_argsort|]. repeat split.
Qed.

(** C3, amended.  Let the sort of a group return its rows in ascending
    order of [dist], as every sort kind does.  For columns of texts free
    of the separator and every left text, the selection keeps exactly one
    row for the left text, and it is the row of a right text at the least
    distance: no right text is nearer.  Which of several right texts at
    that least distance is kept is left to the sort; the first one of the
    right column is kept if the sort keeps equal distances in the order
    they came in, which a stable kind does and the default kind does not
    promise.  In that case every right text before the one kept is
    strictly farther from the left text. *)
Theorem kept_match_is_nearest_and_first_if_ties_stay
        (argsort : list Z -> list nat) (metric : string -> string -> Z)
        (arr1 arr2 : list string) (s1 : string) :
  is_argsort argsort ->
  arr2 <> [] -> Forall clean arr1 -> Forall clean arr2 -> In s1 arr1 ->
  exists recs s2,
    dl_dist_fin argsort metric arr1 arr2 = Ok recs /\
    In s2 arr2 /\
    In {| address_1 := (s1 ++ " ")%string;
          address_2 := Some (" " ++ s2)%string;
          dist := metric s1 s2 |} recs /\
    (forall rec, In rec recs -> address_1 rec = (s1 ++ " ")%string ->
                 rec = {| address_1 := (s1 ++ " ")%string;
                          address_2 := Some (" " ++ s2)%string;
                          dist := metric s1 s2 |}) /\
    (forall x, In x arr2 -> (metric s1 s2 <= metric s1 x)%Z) /\
    (is_stable argsort ->
     exists before after,
       arr2 = before ++ s2 :: after /\
       forall x, In x before -> (metric s1 s2 < metric s1 x)%Z).
Proof.
  intros Hsort Hn2 H1 H2 Hs1.
  assert (Hn1 : arr1 <> []) by (intros ->; destruct Hs1).
  set (rows := cross_rows metric (unique arr1) (unique arr2)).
  pose proof (dl_dist_fin_clean argsort metric _ _ Hn1 Hn2 H1 H2) as Efin.
  fold rows in Efin.
  assert (Hu1 : In s1 (unique arr1)) by now apply unique_In.
  pose proof (get_group_cross metric (unique arr1) (unique arr2) s1
                (unique_NoDup arr1) Hu1) as Eg.
  fold rows in Eg.
  assert (Hk : In (s1 ++ " ")%string (group_keys rows)).
  { apply cross_rows_keys; [now apply unique_nonempty | now exists s1]. }
  destruct (best_of_group_min argsort (get_group rows (s1 ++ " "))
              (Hsort _) (get_group_nonempty _ _ Hk))
    as (i & rec & Hnth & Ebest & Hmin).
  assert (Hrec : In rec (map (pair_row metric s1) (unique arr2))).
  { rewrite <- Eg. eapply nth_error_In. exact Hnth. }
  apply in_map_iff in Hrec as (s2 & Erec & Hs2).
  assert (Hin : In (pair_row metric s1 s2) (groupby_apply argsort rows)).
  { unfold groupby_apply. destruct (transform_like (groups_of rows)) eqn:Et.
    - unfold rows. apply cross_rows_In. now exists s1, s2.
    - apply in_flat_map. exists (get_group rows (s1 ++ " ")). split.
      + unfold groups_of. now apply in_map.
      + rewrite Ebest, <- Erec. now left. }
  exists (groupby_apply argsort rows), s2.
  split; [exact Efin|]. split; [now apply unique_In|].
  split; [exact Hin|]. split; [|split].
  - intros rec' Hrec' Ek.
    apply (NoDup_key_unique (groupby_apply argsort rows));
      [apply groupby_apply_NoDup | exact Hrec' | exact Hin | exact Ek].
  - intros x Hx. specialize (Hmin (pair_row metric s1 x)).
    rewrite <- Erec in Hmin. apply Hmin. rewrite Eg. apply in_map.
    now apply unique_In.
  - intros Hstable.
    destruct (best_of_group_first argsort (get_group rows (s1 ++ " "))
                (Hsort _) (Hstable _) (get_group_nonempty _ _ Hk))
      as (g1 & rec' & g2 & Esplit & Ebest' & Hlt & _).
    rewrite Ebest in Ebest'. inversion Ebest' as [Erec']. subst rec'.
    rewrite Eg in Esplit.
    apply map_eq_app in Esplit as (u1 & u2' & Eu & Eg1 & Eg2).
    destruct u2' as [|s2' u2]; [discriminate|]. cbn [map] in Eg2.
    inversion Eg2 as [[Erec2 Eg2']]. clear Eg2.
    assert (s2' = s2).
    { rewrite <- Erec in Erec2. unfold pair_row in Erec2.
      now inversion Erec2. }
    subst s2'.
    destruct (unique_split _ _ _ _ Eu) as (before & after & E2 & Hb & _).
    exists before, after. split; [exact E2|].
    intros x Hx. specialize (Hlt (pair_row metric s1 x)).
    rewrite <- Erec in Hlt. apply Hlt. rewrite <- Eg1.
    apply in_map. now apply Hb.
Qed.

(** C3 on worked inputs, with a stable sort: the first of the two nearest
    texts is kept. *)
Lemma kept_match_is_nearest_and_first_if_ties_stay_witness :
  exists recs s2,
    dl_dist_fin stable_argsort dl ["aa"] right_ties = Ok recs /\
    In s2 right_ties /\
    In {| address_1 := ("aa" ++ " ")%string;
          address_2 := Some (" " ++ s2)%string;
          dist := dl "aa" s2 |} recs /\
    (forall rec, In rec recs -> address_1 rec = ("aa" ++ " ")%string ->
                 rec = {| address_1 := ("aa" ++ " ")%string;
                          address_2 := Some (" " ++ s2)%string;
                          dist := dl "aa" s2 |}) /\
    (forall x, In x right_ties -> (dl "aa" s2 <= dl "aa" x)%Z) /\
    exists before after,
      right_ties = before ++ s2 :: after /\
      forall x, In x before -> (dl "aa" s2 < dl "aa" x)%Z.
Proof.
  destruct (kept_match_is_nearest_and_first_if_ties_stay stable_argsort dl
              ["aa"] right_ties "aa" stable_argsort_is_argsort
              ltac:(discriminate) ltac:(repeat constructor)
              ltac:(repeat constructor) ltac:(now left))
    as (recs & s2 & H1 & H2 & H3 & H4 & H5 & H6).
  exists recs, s2.
  split; [exact H1|]. split; [exact H2|]. split; [exact H3|].
  split; [exact H4|]. split; [exact H5|].
  exact (H6 stable_argsort_is_stable).
Defined.

(** C4, as stated, fails: a left text that holds the separator gives its
    key a third piece, the renaming of the split columns raises, and the
    selection emits nothing for these two non-empty columns. *)
Lemma separator_in_text_stops_selection :
  dl_dist_fin stable_argsort dl ["a_and_b"] ["c"]
  = Raise (ValueError_length_mismatch 3 2).
Proof. reflexivity. Qed.

(** C4, amended.  Let the sort of a group return its rows in ascending
    order of [dist].  For non-empty columns of texts free of the separator
    the selection returns one row per distinct left text, however often the
    text occurs in the left column: no two rows share a key, the keys are
    the left texts (each followed by the blank the split leaves on it), and
    there are as many rows as distinct left texts. *)
Theorem one_record_per_left_value
        (argsort : list Z -> list nat) (metric : string -> string -> Z)
        (arr1 arr2 : list string) :
  is_argsort argsort ->
  arr1 <> [] -> arr2 <> [] -> Forall clean arr1 -> Forall clean arr2 ->
  exists recs,
    dl_dist_fin argsort metric arr1 arr2 = Ok recs /\
    NoDup (map address_1 recs) /\
    (forall s1, In s1 arr1 <-> In (s1 ++ " ")%string (map address_1 recs)) /\
    List.length recs = List.length (nodup string_dec arr1).
Proof.
  intros Hsort Hn1 Hn2 H1 H2.
  set (rows := cross_rows metric (unique arr1) (unique arr2)).
  exists (groupby_apply argsort rows).
  split; [now apply dl_dist_fin_clean|].
  pose proof (groupby_apply_keys_perm argsort Hsort rows) as Hp.
  assert (Hkeys : forall k, In k (group_keys rows) <->
                            exists s1, In s1 arr1 /\ k = (s1 ++ " ")%string).
  { intros k. unfold rows.
    rewrite cross_rows_keys by now apply unique_nonempty.
    split; intros (s1 & Hs1 & ->); exists s1; split; try reflexivity;
      now apply unique_In. }
  split; [|split].
  - eapply Permutation_NoDup; [apply Permutation_sym, Hp|].
    apply group_keys_NoDup.
  - intros s1. split.
    + intros Hs1. apply (Permutation_in _ (Permutation_sym Hp)).
      apply Hkeys. now exists s1.
    + intros Hin. apply (Permutation_in _ Hp), Hkeys in Hin as (s & Hs & E).
      apply append_blank_inj in E. now subst.
  - rewrite <- (length_map address_1), (Permutation_length Hp).
    rewrite <- unique_nodup_length.
    rewrite <- (length_map (fun s => (s ++ " ")%string) (unique arr1)).
    apply Permutation_length, NoDup_Permutation.
    + apply group_keys_NoDup.
    + apply map_blank_NoDup, unique_NoDup.
    + intros k. rewrite Hkeys, in_map_iff. split.
      * intros (s1 & Hs1 & ->). exists s1. split; [reflexivity|].
        now apply unique_In.
      * intros (s1 & <- & Hs1). exists s1. split; [|reflexivity].
        now apply (proj1 (unique_In _ _)).
Qed.

(** C4 on worked inputs. *)
Lemma one_record_per_left_value_witness :
  exists recs,
    dl_dist_fin stable_argsort dl left_ex right_ex = Ok recs /\
    NoDup (map address_1 recs) /\
    (forall s1, In s1 left_ex
                <-> In (s1 ++ " ")%string (map address_1 recs)) /\
    List.length recs = List.length (nodup string_dec left_ex).
Proof.
  apply (one_record_per_left_value stable_argsort dl left_ex right_ex).
  - exact stable_argsort_is_argsort.
  - discriminate.
  - discriminate.
  - repeat constructor.
  - repeat constructor.
Defined.

(** C5, as stated, fails: the left column has "b" before "a", and the row
    of "a" comes first. *)
Lemma records_not_in_first_seen_order :
  dl_dist_fin stable_argsort dl ["b"; "a"] ["x"; "y"]
  = Ok [ {| address_1 := "a "; address_2 := Some " x"; dist := 1 |};
         {| address_1 := "b "; address_2 := Some " x"; dist := 1 |} ].
Proof. reflexivity. Qed.

(** C5, amended.  Let the sort of a group return its rows in ascending
    order of [dist].  For non-empty columns of texts free of the separator
    the kept rows come in strictly ascending order of their keys, compared
    code point by code point, as soon as the right column holds two
    different texts; the key is the left text followed by a blank.  Only
    when the right column holds one text alone, so that every group is a
    single row, do the rows come in the order the left texts are first
    seen. *)
Theorem records_in_key_order
        (argsort : list Z -> list nat) (metric : string -> string -> Z)
        (arr1 arr2 : list string) :
  is_argsort argsort ->
  arr1 <> [] -> arr2 <> [] -> Forall clean arr1 -> Forall clean arr2 ->
  exists recs,
    dl_dist_fin argsort metric arr1 arr2 = Ok recs /\
    ((exists a b, In a arr2 /\ In b arr2 /\ a <> b) ->
     StronglySorted lts (map address_1 recs)) /\
    ((forall a b, In a arr2 -> In b arr2 -> a = b) ->
     map address_1 recs = map (fun s => (s ++ " ")%string) (unique arr1)).
Proof.
  intros Hsort Hn1 Hn2 H1 H2.
  set (rows := cross_rows metric (unique arr1) (unique arr2)).
  exists (groupby_apply argsort rows).
  split; [now apply dl_dist_fin_clean|].
  pose proof (transform_like_cross metric (unique arr1) (unique arr2)
                (unique_nonempty _ Hn1) (unique_nonempty _ Hn2)
                (unique_NoDup arr1)) as Et.
  fold rows in Et. split.
  - intros (a & b & Ha & Hb & Hne).
    pose proof (unique_two _ _ _ Ha Hb Hne) as Hl.
    rewrite groupby_apply_keys; [apply group_keys_sorted | exact Hsort |].
    rewrite Et. apply Nat.eqb_neq. lia.
  - intros Hall. destruct (unique_one _ Hn2 Hall) as (s & Es & _).
    unfold groupby_apply. rewrite Et, Es. cbn [List.length Nat.eqb].
    unfold rows. rewrite Es. apply cross_rows_single_keys.
Qed.

(** C5 on worked inputs. *)
Lemma records_in_key_order_witness :
  exists recs,
    dl_dist_fin stable_argsort dl left_ex right_ex = Ok recs /\
    ((exists a b, In a right_ex /\ In b right_ex /\ a <> b) ->
     StronglySorted lts (map address_1 recs)) /\
    ((forall a b, In a right_ex -> In b right_ex -> a = b) ->
     map address_1 recs = map (fun s => (s ++ " ")%string) (unique left_ex)).
Proof.
  apply (records_in_key_order stable_argsort dl left_ex right_ex).
  - exact stable_argsort_is_argsort.
  - discriminate.
  - discriminate.
  - repeat constructor.
  - repeat constructor.
Defined.

(** C6.  The parallel cell pairs the one left column with the one right
    column, so its single result is the dict of the sequential loops.  For
    any split of the left column into chunks taken in order, scoring each
    chunk against the whole right column and putting the chunk dicts
    together gives that same dict, entry for entry and in the same order;
    the selection therefore returns the same records, or stops on the same
    error, as for the column left whole. *)
Theorem chunked_scoring_selects_the_same
        (argsort : list Z -> list nat) (metric : string -> string -> Z)
        (chunks : list (list string)) (arr1 arr2 : list string) :
  concat chunks = arr1 ->
  dl_dist_par metric arr1 arr2 = [dl_dist_func metric arr1 arr2] /\
  chunk_tasks [arr1] arr2 = combine [arr1] [arr2] /\
  concat_results (Parallel_delayed metric (chunk_tasks chunks arr2))
  = dl_dist_func metric arr1 arr2 /\
  select_best argsort
    (concat_results (Parallel_delayed metric (chunk_tasks chunks arr2)))
  = dl_dist_fin argsort metric arr1 arr2.
Proof.
  intros <-.
  assert (E : concat_results
                (Parallel_delayed metric (chunk_tasks chunks arr2))
              = dl_dist_func metric (concat chunks) arr2).
  { unfold concat_results. apply concat_results_from. }
  repeat split; try reflexivity; [exact E|].
  unfold dl_dist_fin. now rewrite E.
Qed.

(** C6 on worked inputs. *)
Lemma chunked_scoring_selects_the_same_witness :
  dl_dist_par dl left_ex right_ex = [dl_dist_func dl left_ex right_ex] /\
  chunk_tasks [left_ex] right_ex = combine [left_ex] [right_ex] /\
  concat_results
    (Parallel_delayed dl (chunk_tasks [["1 Oak"]; ["2 Elm"; "1 Oak"]]
                                      right_ex))
  = dl_dist_func dl left_ex right_ex /\
  select_best stable_argsort
    (concat_results
       (Parallel_delayed dl (chunk_tasks [["1 Oak"]; ["2 Elm"; "1 Oak"]]
                                         right_ex)))
  = dl_dist_fin stable_argsort dl left_ex right_ex.
Proof.
  apply (chunked_scoring_selects_the_same stable_argsort dl
           [["1 Oak"]; ["2 Elm"; "1 Oak"]] left_ex right_ex).
  reflexivity.
Defined.

(** C7, as stated, fails: with an empty left column the scoring cell
    raises at its first statement, which asks the column for the address
    of its first row.  The loops are not reached, no dict is bound, and
    the run stops there: no set of records comes back. *)
Lemma empty_left_column_stops_the_scoring_cell :
  scoring_cell dl globals_ex [] ["a"; "b"] = Fails KeyError /\
  run_dl_dist_fin stable_argsort dl globals_ex [] ["a"; "b"]
  = Stops_in_scoring KeyError.
Proof. split; reflexivity. Qed.

(** C7, amended.  When the left or the right column is empty, the scoring
    cell raises the [KeyError] of the missing first row at its first
    statement, before [dl_dist = {}] and the loops, and a run from the top
    stops in that cell: neither scored pairs nor a set of records comes
    back.  The function [dl_dist_func] asks for no first row: called on
    such columns it returns the empty dict and raises nothing, and the
    parallel cell, which calls it, binds [dl_dist_par] to the list of that
    one empty dict. *)
Theorem empty_column_stops_the_run
        (argsort : list Z -> list nat) (metric : string -> string -> Z)
        (g : Globals) (arr1 arr2 : list string) :
  arr1 = [] \/ arr2 = [] ->
  scoring_cell metric g arr1 arr2 = Fails KeyError /\
  run_dl_dist_fin argsort metric g arr1 arr2 = Stops_in_scoring KeyError /\
  dl_dist_func metric arr1 arr2 = [] /\
  dl_dist_par metric arr1 arr2 = [[]].
Proof.
  intros H.
  assert (Ecell : scoring_cell metric g arr1 arr2 = Fails KeyError).
  { destruct H as [-> | ->]; [reflexivity|]. now destruct arr1. }
  assert (Edict : dl_dist_func metric arr1 arr2 = [])
    by now apply dl_dist_func_nil_iff.
  split; [exact Ecell|]. split; [|split; [exact Edict|]].
  - unfold run_dl_dist_fin. now rewrite Ecell.
  - unfold dl_dist_par, Parallel_delayed. cbn [combine map fst snd].
    now rewrite Edict.
Qed.

(** C7 on worked inputs. *)
Lemma empty_column_stops_the_run_witness :
  scoring_cell dl globals_ex ["a"; "b"] [] = Fails KeyError /\
  run_dl_dist_fin stable_argsort dl globals_ex ["a"; "b"] []
  = Stops_in_scoring KeyError /\
  dl_dist_func dl ["a"; "b"] [] = [] /\
  dl_dist_par dl ["a"; "b"] [] = [[]].
Proof.
  apply (empty_column_stops_the_run stable_argsort dl globals_ex
           ["a"; "b"] []).
  right. reflexivity.
Defined.

(** C8.  The second join keeps every row of [data_both] and is a total
    function of its two tables.  A row whose matched value is the [Address]
    of no row of the right table comes out in its place exactly once, with
    the columns of the right table null, and is never paired with a right
    row. *)
Theorem unmatched_right_lookup_is_null
        {Cols : Type} (data1 data2 : list (DataRow Cols))
        (fin : list ProcRow) (b : BothRow Cols)
        (before after : list (BothRow Cols)) :
  data_both data1 fin = before ++ b :: after ->
  (forall r, In r (strip_Address data2) ->
             address_2 (snd b) <> Some (Address r)) ->
  data_fin data1 data2 fin
  = merge_left before (strip_Address data2)
    ++ (b, None) :: merge_left after (strip_Address data2) /\
  In (b, None) (data_fin data1 data2 fin) /\
  (forall r, ~ In (b, Some r) (data_fin data1 data2 fin)) /\
  (forall b', In b' (data_both data1 fin) ->
              exists x, In (b', x) (data_fin data1 data2 fin)).
Proof.
  intros E Hno. unfold data_fin. rewrite E.
  pose proof (merge_left_unmatched b (strip_Address data2) Hno) as Eb.
  split; [|split; [|split]].
  - rewrite merge_left_app, merge_left_cons, Eb. reflexivity.
  - apply merge_left_In. split.
    + apply in_app_iff. right. now left.
    + left. split; [reflexivity | exact Eb].
  - intros r Hin. apply merge_left_In in Hin as [_ [[Hx _]|(r' & Hx & Hr & Hk)]];
      [discriminate|].
    inversion Hx; subst r'. apply (Hno r Hr).
    unfold key_meets in Hk. destruct (address_2 (snd b)) as [a|];
      [|discriminate].
    apply String.eqb_eq in Hk. now subst.
  - intros b' Hb'. apply merge_left_total. exact Hb'.
Qed.

(** C8 on worked inputs. *)
Lemma unmatched_right_lookup_is_null_witness :
  data_fin data1_ex data2_ex fin_ex
  = merge_left [both_ex_1] (strip_Address data2_ex)
    ++ (both_ex_2, None) :: merge_left [] (strip_Address data2_ex) /\
  In (both_ex_2, None) (data_fin data1_ex data2_ex fin_ex) /\
  (forall r, ~ In (both_ex_2, Some r) (data_fin data1_ex data2_ex fin_ex)) /\
  (forall b', In b' (data_both data1_ex fin_ex) ->
              exists x, In (b', x) (data_fin data1_ex data2_ex fin_ex)).
Proof.
  apply (unmatched_right_lookup_is_null data1_ex data2_ex fin_ex both_ex_2
           [both_ex_1] []).
  - reflexivity.
  - intros r [<-|[<-|[]]]; discriminate.
Defined.

(** C9.  A key built from two texts that hold no separator splits at the
    separator into exactly two pieces, and trimming them gives the two
    texts trimmed.  A text that holds the separator breaks this: the key of
    "a_and_b" and "c" splits into the three pieces "a", "b" and "c"; and
    whenever one of the two texts holds the separator, the key has at
    least three pieces. *)
Theorem key_round_trip :
  (forall s1 s2,
      contains sep s1 = false -> contains sep s2 = false ->
      split sep (key_of s1 s2) = [(s1 ++ " ")%string; (" " ++ s2)%string] /\
      map strip (split sep (key_of s1 s2)) = [strip s1; strip s2]) /\
  (exists s1 s2,
      contains sep s1 = true /\
      map strip (split sep (key_of s1 s2)) = ["a"; "b"; "c"] /\
      map strip (split sep (key_of s1 s2)) <> [strip s1; strip s2]) /\
  (forall s1 s2,
      contains sep s1 = true \/ contains sep s2 = true ->
      3 <= List.length (split sep (key_of s1 s2)) /\
      map strip (split sep (key_of s1 s2)) <> [strip s1; strip s2]).
Proof.
  split; [|split].
  - intros s1 s2 H1 H2. rewrite (split_key _ _ H1 H2). split; [reflexivity|].
    cbn [map]. now rewrite strip_app_blank, strip_blank_app.
  - exists "a_and_b"%string, "c"%string. repeat split. discriminate.
  - intros s1 s2 H. pose proof (split_key_long s1 s2 H) as Hl.
    split; [exact Hl|]. intros E.
    apply (f_equal (@List.length string)) in E.
    rewrite length_map in E. cbn [List.length] in E. lia.
Qed.

(** C9 on worked inputs. *)
Lemma key_round_trip_witness :
  split sep (key_of "1 Oak " " 1 Oak St")
  = [("1 Oak " ++ " ")%string; (" " ++ " 1 Oak St")%string] /\
  map strip (split sep (key_of "1 Oak " " 1 Oak St"))
  = [strip "1 Oak "; strip " 1 Oak St"].
Proof.
  apply (proj1 key_round_trip "1 Oak " " 1 Oak St"); reflexivity.
Defined.

(** C10.  Two runs of [dl_dist_func] on equal columns, started in any two
    states of the notebook-level names, leave those names as they were and
    return dicts with the same keys in the same order and the same value
    at every key: the dict the two loops build from the empty dict.  Run
    as tasks of [Parallel], in whatever order the workers take the tasks
    up, the calls give the same list of results. *)
Theorem dl_dist_func_runs_agree
        (metric : string -> string -> Z) (g g' : Globals)
        (arr1 arr2 arr1' arr2' : list string) :
  arr1 = arr1' -> arr2 = arr2' ->
  fst (call_dl_dist_func metric g arr1 arr2) = g /\
  fst (call_dl_dist_func metric g' arr1' arr2') = g' /\
  snd (call_dl_dist_func metric g arr1 arr2)
  = dl_dist_func metric arr1 arr2 /\
  snd (call_dl_dist_func metric g arr1 arr2)
  = snd (call_dl_dist_func metric g' arr1' arr2') /\
  keys (snd (call_dl_dist_func metric g arr1 arr2))
  = keys (snd (call_dl_dist_func metric g' arr1' arr2')) /\
  (forall k,
      dict_get k (snd (call_dl_dist_func metric g arr1 arr2))
      = dict_get k (snd (call_dl_dist_func metric g' arr1' arr2'))) /\
  (forall schedule schedule' tasks,
      Permutation schedule (seq 0 (List.length tasks)) ->
      Permutation schedule' (seq 0 (List.length tasks)) ->
      fst (Parallel_scheduled metric schedule g tasks) = g /\
      snd (Parallel_scheduled metric schedule g tasks)
      = snd (Parallel_scheduled metric schedule' g' tasks)).
Proof.
  intros <- <-. repeat split; try reflexivity.
  - now rewrite (Parallel_scheduled_spec metric schedule g tasks).
  - now rewrite (Parallel_scheduled_spec metric schedule g tasks),
      (Parallel_scheduled_spec metric schedule' g' tasks).
Qed.

(** C10 on worked inputs. *)
Lemma dl_dist_func_runs_agree_witness :
  fst (call_dl_dist_func dl globals_ex left_ex right_ex) = globals_ex /\
  fst (call_dl_dist_func dl (cell_dl_dist dl globals_ex ["x"] ["y"])
                         left_ex right_ex)
  = cell_dl_dist dl globals_ex ["x"] ["y"] /\
  snd (call_dl_dist_func dl globals_ex left_ex right_ex)
  = dl_dist_func dl left_ex right_ex /\
  snd (call_dl_dist_func dl globals_ex left_ex right_ex)
  = snd (call_dl_dist_func dl (cell_dl_dist dl globals_ex ["x"] ["y"])
                           left_ex right_ex) /\
  keys (snd (call_dl_dist_func dl globals_ex left_ex right_ex))
  = keys (snd (call_dl_dist_func dl (cell_dl_dist dl globals_ex ["x"] ["y"])
                                 left_ex right_ex)) /\
  (forall k,
      dict_get k (snd (call_dl_dist_func dl globals_ex left_ex right_ex))
      = dict_get k
          (snd (call_dl_dist_func dl (cell_dl_dist dl globals_ex ["x"] ["y"])
                                  left_ex right_ex))) /\
  (forall schedule schedule' tasks,
      Permutation schedule (seq 0 (List.length tasks)) ->
      Permutation schedule' (seq 0 (List.length tasks)) ->
      fst (Parallel_scheduled dl schedule globals_ex tasks) = globals_ex /\
      snd (Parallel_scheduled dl schedule globals_ex tasks)
      = snd (Parallel_scheduled dl schedule'
               (cell_dl_dist dl globals_ex ["x"] ["y"]) tasks)).
Proof.
  apply (dl_dist_func_runs_agree dl globals_ex
           (cell_dl_dist dl globals_ex ["x"] ["y"])
           left_ex right_ex left_ex right_ex); reflexivity.
Defined.

(** X1.  The two tidying cells return the table of scored pairs exactly when
    both columns are non-empty and no text holds the separator; the table
    is then the cross product of the distinct left and right texts, each
    row with the blank the split leaves on either piece. *)
Theorem scored_pairs_ok_iff
        (metric : string -> string -> Z) (arr1 arr2 : list string)
        (rows : list ProcRow) :
  scored_pairs metric arr1 arr2 = Ok rows <->
  arr1 <> [] /\ arr2 <> [] /\ Forall clean arr1 /\ Forall clean arr2 /\
  rows = cross_rows metric (unique arr1) (unique arr2).
Proof.
  split.
  - intros H. destruct (scored_pairs_shape _ _ _ _ H) as (E & Hn1 & Hn2 & H1 & H2).
    repeat split; assumption.
  - intros (Hn1 & Hn2 & H1 & H2 & ->). now apply scored_pairs_clean.
Qed.

(** * Further properties of the notebook *)

Import LookupFacts.

(** ** The scoring loops *)

(** X2.  Store and look up.  When no left text holds the separator, the
    dict that the loops fill answers the key of every pair of a left and a
    right text with the distance of that pair. *)
Theorem lookup_of_a_scored_pair
        (metric : string -> string -> Z) (arr1 arr2 : list string)
        (s1 s2 : string) :
  Forall clean arr1 -> In s1 arr1 -> In s2 arr2 ->
  dict_get (key_of s1 s2) (dl_dist_func metric arr1 arr2)
  = Some (metric s1 s2).
Proof.
  intros Hc H1 H2. now apply dl_dist_func_get.
Qed.

(** X2 on worked inputs. *)
Lemma lookup_of_a_scored_pair_witness :
  dict_get (key_of "2 Elm" "3 Ash") (dl_dist_func dl left_ex right_ex)
  = Some (dl "2 Elm" "3 Ash").
Proof.
  apply (lookup_of_a_scored_pair dl left_ex right_ex "2 Elm" "3 Ash").
  - repeat constructor.
  - right. left. reflexivity.
  - right. right. left. reflexivity.
Defined.

(** X3.  What the dict holds.  Its keys are exactly the keys built from a
    left and a right text; a key built from no pair is missing; and the
    value under a key is always the distance of a pair that builds this
    key. *)
Theorem dict_holds_the_built_keys
        (metric : string -> string -> Z) (arr1 arr2 : list string)
        (k : string) :
  (In k (keys (dl_dist_func metric arr1 arr2)) <->
   exists s1 s2, In s1 arr1 /\ In s2 arr2 /\ k = key_of s1 s2) /\
  (dict_get k (dl_dist_func metric arr1 arr2) = None <->
   forall s1 s2, In s1 arr1 -> In s2 arr2 -> k <> key_of s1 s2) /\
  (forall v,
      dict_get k (dl_dist_func metric arr1 arr2) = Some v ->
      exists s1 s2,
        In s1 arr1 /\ In s2 arr2 /\ k = key_of s1 s2 /\ v = metric s1 s2).
Proof.
  split; [apply dl_dist_func_keys|]. split.
  - rewrite dict_get_none_iff, dl_dist_func_keys. split.
    + intros H s1 s2 H1 H2 E. apply H. now exists s1, s2.
    + intros H (s1 & s2 & H1 & H2 & E). now apply (H s1 s2).
  - intros v. apply dl_dist_func_get_inv.
Qed.

(** X4.  Two pairs with one key.  The loops assign pair after pair, so the
    dict answers a key with the distance of the last pair, in the order of
    the loops, that builds it.  With texts that hold the separator two
    different pairs can build one key, and the earlier pair loses its
    distance. *)
Theorem last_pair_of_a_key_wins
        (metric : string -> string -> Z) (arr1 arr2 : list string)
        (before after : list (string * Z)) (k : string) (v : Z) :
  assignments metric arr1 arr2 = before ++ (k, v) :: after ->
  ~ In k (map fst after) ->
  dict_get k (dl_dist_func metric arr1 arr2) = Some v.
Proof.
  intros E Hk. rewrite dl_dist_func_update, E.
  now apply dict_get_update_last.
Qed.

(** X4 on worked inputs: the key of "a" and "b _and_ c" is also the key of
    "a _and_ b" and "c", and it is answered with the distance of the
    latter. *)
Lemma last_pair_of_a_key_wins_witness :
  key_of "a" "b _and_ c" = key_of "a _and_ b" "c" /\
  dict_get (key_of "a" "b _and_ c") (dl_dist_func dl left_sep right_sep)
  = Some (dl "a _and_ b" "c").
Proof.
  split; [reflexivity|].
  apply (last_pair_of_a_key_wins dl left_sep right_sep
           [ (key_of "a" "b _and_ c", dl "a" "b _and_ c");
             (key_of "a" "c", dl "a" "c");
             (key_of "a _and_ b" "b _and_ c", dl "a _and_ b" "b _and_ c") ]
           []).
  - reflexivity.
  - intros [].
Defined.

(** X5.  An empty column.  The loops leave the dict empty exactly when the
    left or the right column is empty; nothing is raised by them. *)
Theorem dict_empty_iff_a_column_empty
        (metric : string -> string -> Z) (arr1 arr2 : list string) :
  dl_dist_func metric arr1 arr2 = [] <-> arr1 = [] \/ arr2 = [].
Proof.
  apply dl_dist_func_nil_iff.
Qed.

(** X6.  The first rows.  The notebook scores the first ten rows of either
    file and later the first hundred.  When no left text holds the
    separator, every score of a run on the first rows of the two columns
    is a score of the run on the whole columns, under the same key. *)
Theorem scores_of_the_first_rows_are_kept
        (metric : string -> string -> Z) (data1 data2 : list string)
        (n m : Z) (k : string) (v : Z) :
  Forall clean data1 ->
  dict_get k (dl_dist_func metric (head n data1) (head m data2)) = Some v ->
  dict_get k (dl_dist_func metric data1 data2) = Some v.
Proof.
  intros Hc H.
  apply dl_dist_func_get_inv in H as (s1 & s2 & H1 & H2 & -> & ->).
  apply dl_dist_func_get; [exact Hc | |]; eapply HeadFacts.head_In; eassumption.
Qed.

(** X6 on worked inputs. *)
Lemma scores_of_the_first_rows_are_kept_witness :
  dict_get (key_of "1 Oak" "2 Elm Rd") (dl_dist_func dl left_ex right_ex)
  = Some (dl "1 Oak" "2 Elm Rd").
Proof.
  apply (scores_of_the_first_rows_are_kept dl left_ex right_ex 1 2).
  - repeat constructor.
  - reflexivity.
Defined.

(** ** The tidying cells *)

Import TidyFacts KeepFacts.

(** X7.  What the tidying cells raise.  When they do not return the table
    of scored pairs, a renaming of the columns has raised a length
    mismatch, in one of two ways.  Either a column was empty: the dict is
    empty, its table has the one column [index], and the renaming to
    [addresses] and [dist] fails with 1 against 2.  Or both columns have
    texts and one of them holds the separator: the first renaming goes
    through, the split makes as many columns as the longest key has
    pieces, at least three, and the renaming to [address_1] and
    [address_2] fails with that number against 2. *)
Theorem tidying_raises_a_length_mismatch
        (metric : string -> string -> Z) (arr1 arr2 : list string) (e : exn) :
  scored_pairs metric arr1 arr2 = Raise e ->
  ((arr1 = [] \/ arr2 = []) /\
   dl_dist_df_raw (dl_dist_func metric arr1 arr2) = Raise e /\
   e = ValueError_length_mismatch 1 2)
  \/
  (arr1 <> [] /\ arr2 <> [] /\
   dl_dist_df_raw (dl_dist_func metric arr1 arr2)
   = Ok (dl_dist_func metric arr1 arr2) /\
   dl_dist_df_proc (dl_dist_func metric arr1 arr2) = Raise e /\
   e = ValueError_length_mismatch
         (split_width (dl_dist_func metric arr1 arr2)) 2 /\
   3 <= split_width (dl_dist_func metric arr1 arr2) /\
   exists s, (In s arr1 \/ In s arr2) /\ contains sep s = true).
Proof.
  intros H. unfold scored_pairs, table_of_dict in H.
  destruct (dl_dist_func metric arr1 arr2) as [|kv d] eqn:Ed.
  - left. apply dl_dist_func_nil_iff in Ed. cbn in H. inversion H.
    repeat split. exact Ed.
  - right.
    assert (Hne : arr1 <> [] /\ arr2 <> []).
    { split; intros E0;
        (assert (En : dl_dist_func metric arr1 arr2 = [])
          by (apply dl_dist_func_nil_iff; tauto));
        congruence. }
    destruct Hne as (Hn1 & Hn2).
    rewrite dl_dist_df_raw_cons in H. cbn [bind] in H.
    destruct (dl_dist_df_proc_raise _ _ H) as (Ee & Hw).
    assert (Hk : In (fst kv) (keys (dl_dist_func metric arr1 arr2))).
    { rewrite Ed. now left. }
    apply dl_dist_func_keys in Hk as (s1 & s2 & _ & _ & Ek).
    pose proof (split_width_ge (kv :: d) kv (or_introl eq_refl)) as Hge.
    rewrite Ek in Hge. pose proof (split_key_two s1 s2) as H2.
    repeat split; try assumption.
    + lia.
    + destruct (dirty_or_clean arr1) as [Hc1|(s & Hs & Es)];
        [|exists s; split; [now left | exact Es]].
      destruct (dirty_or_clean arr2) as [Hc2|(s & Hs & Es)];
        [|exists s; split; [now right | exact Es]].
      exfalso.
      pose proof (scored_pairs_clean metric arr1 arr2 Hn1 Hn2 Hc1 Hc2) as Hok.
      unfold scored_pairs, table_of_dict in Hok. rewrite Ed in Hok.
      rewrite dl_dist_df_raw_cons in Hok. cbn [bind] in Hok. congruence.
Qed.

(** X7 on worked inputs: a left text of three pieces. *)
Lemma tidying_raises_a_length_mismatch_witness :
  (["a_and_b"] = [] \/ ["c"] = []) /\
  dl_dist_df_raw (dl_dist_func dl ["a_and_b"] ["c"])
  = Raise (ValueError_length_mismatch 3 2) /\
  ValueError_length_mismatch 3 2 = ValueError_length_mismatch 1 2
  \/
  ["a_and_b"] <> [] /\ ["c"] <> [] /\
  dl_dist_df_raw (dl_dist_func dl ["a_and_b"] ["c"])
  = Ok (dl_dist_func dl ["a_and_b"] ["c"]) /\
  dl_dist_df_proc (dl_dist_func dl ["a_and_b"] ["c"])
  = Raise (ValueError_length_mismatch 3 2) /\
  ValueError_length_mismatch 3 2
  = ValueError_length_mismatch
      (split_width (dl_dist_func dl ["a_and_b"] ["c"])) 2 /\
  3 <= split_width (dl_dist_func dl ["a_and_b"] ["c"]) /\
  exists s, (In s ["a_and_b"] \/ In s ["c"]) /\ contains sep s = true.
Proof.
  apply (tidying_raises_a_length_mismatch dl ["a_and_b"] ["c"]).
  reflexivity.
Defined.

(** ** The selection *)

(** X8.  What the selection can keep.  Whatever order the sort of a group
    returns, even a wrong one, the rows of [dl_dist_fin] are rows of the
    scored pairs: each carries a left text followed by a blank, a blank
    followed by a right text, and the distance computed for these two.  No
    two rows carry the same left text. *)
Theorem selected_rows_are_scored_pairs
        (argsort : list Z -> list nat) (metric : string -> string -> Z)
        (arr1 arr2 : list string) (recs : list ProcRow) :
  dl_dist_fin argsort metric arr1 arr2 = Ok recs ->
  NoDup (map address_1 recs) /\
  forall rec, In rec recs ->
    exists s1 s2,
      In s1 arr1 /\ In s2 arr2 /\
      address_1 rec = (s1 ++ " ")%string /\
      address_2 rec = Some (" " ++ s2)%string /\
      dist rec = metric s1 s2.
Proof.
  intros H.
  destruct (scored_pairs metric arr1 arr2) as [rows|e] eqn:Es.
  - rewrite (dl_dist_fin_of_scored argsort metric _ _ _ Es) in H.
    inversion H; subst recs.
    destruct (scored_pairs_shape _ _ _ _ Es) as (-> & _).
    split; [apply groupby_apply_NoDup|].
    intros rec Hrec. apply groupby_apply_In, cross_rows_In in Hrec
      as (s1 & s2 & H1 & H2 & ->).
    exists s1, s2. repeat split; now apply unique_In.
  - unfold dl_dist_fin, select_best in H. unfold scored_pairs in Es.
    rewrite Es in H. discriminate.
Qed.

(** X8 on worked inputs, with a sort that returns the positions in
    descending order. *)
Lemma selected_rows_are_scored_pairs_witness :
  NoDup (map address_1
           [ {| address_1 := "1 Oak "; address_2 := Some " 3 Ash"; dist := 4 |};
             {| address_1 := "2 Elm "; address_2 := Some " 3 Ash"; dist := 4 |} ])
  /\
  forall rec,
    In rec
       [ {| address_1 := "1 Oak "; address_2 := Some " 3 Ash"; dist := 4 |};
         {| address_1 := "2 Elm "; address_2 := Some " 3 Ash"; dist := 4 |} ] ->
    exists s1 s2,
      In s1 left_ex /\ In s2 right_ex /\
      address_1 rec = (s1 ++ " ")%string /\
      address_2 rec = Some (" " ++ s2)%string /\
      dist rec = dl s1 s2.
Proof.
  apply (selected_rows_are_scored_pairs
           (fun l => rev (seq 0 (List.length l))) dl left_ex right_ex).
  vm_compute. reflexivity.
Defined.

(** ** The joins *)

Import MergeFacts RunFacts.

(** X9.  The first join with distinct left addresses.  When no two rows of
    [data1] have the same trimmed [Address], [data_both] has exactly one
    row per record of [dl_dist_fin], in the order of the records, each
    with its two texts trimmed and its distance. *)
Theorem distinct_left_addresses_give_a_row_per_record
        {Cols : Type} (data1 : list (DataRow Cols)) (fin : list ProcRow) :
  NoDup (map Address (strip_Address data1)) ->
  map snd (data_both data1 fin) = map trim_rec fin /\
  List.length (data_both data1 fin) = List.length fin.
Proof.
  intros Hnd. pose proof (data_both_one_to_one data1 fin Hnd) as E.
  split; [exact E|].
  apply (f_equal (@List.length ProcRow)) in E.
  now rewrite !length_map in E.
Qed.

(** X9 on worked inputs. *)
Lemma distinct_left_addresses_give_a_row_per_record_witness :
  map snd (data_both table1_ex fin_run_ex) = map trim_rec fin_run_ex /\
  List.length (data_both table1_ex fin_run_ex) = List.length fin_run_ex.
Proof.
  apply (distinct_left_addresses_give_a_row_per_record table1_ex fin_run_ex).
  vm_compute. repeat (constructor; [cbn; intuition discriminate|]).
  constructor.
Defined.

(** X10.  The second join with distinct right addresses.  When no two rows
    of [data2] have the same trimmed [Address], [data_fin] has exactly the
    rows of [data_both], in their order, each once. *)
Theorem distinct_right_addresses_keep_the_rows
        {Cols : Type} (data1 data2 : list (DataRow Cols))
        (fin : list ProcRow) :
  NoDup (map Address (strip_Address data2)) ->
  map fst (data_fin data1 data2 fin) = data_both data1 fin /\
  List.length (data_fin data1 data2 fin)
  = List.length (data_both data1 fin).
Proof.
  intros Hnd. pose proof (data_fin_one_to_one data1 data2 fin Hnd) as E.
  split; [exact E|].
  apply (f_equal (@List.length (BothRow Cols))) in E.
  now rewrite length_map in E.
Qed.

(** X10 on worked inputs. *)
Lemma distinct_right_addresses_keep_the_rows_witness :
  map fst (data_fin table1_ex table2_ex fin_run_ex)
  = data_both table1_ex fin_run_ex /\
  List.length (data_fin table1_ex table2_ex fin_run_ex)
  = List.length (data_both table1_ex fin_run_ex).
Proof.
  apply (distinct_right_addresses_keep_the_rows
           table1_ex table2_ex fin_run_ex).
  vm_compute. repeat (constructor; [cbn; intuition discriminate|]).
  constructor.
Defined.

(** ** The whole run *)

(** X11.  No nulls in a straight run.  When the cells from the scoring
    loops to the second join run once on the two tables and nothing is
    raised, every row of [data_fin] carries a row of [data1] and a row of
    [data2], both trimmed, and between them the record of two texts of the
    two columns: the trimmed left text is the address of the left row, the
    trimmed right text the address of the right row, and the distance is
    the one of the two texts as scored.  This holds whatever order the
    sort returns. *)
Theorem straight_run_leaves_no_nulls
        {Cols : Type} (argsort : list Z -> list nat)
        (metric : string -> string -> Z)
        (data1 data2 : list (DataRow Cols))
        (rows : list (BothRow Cols * option (DataRow Cols))) :
  fuzzy_join argsort metric data1 data2 = Ok rows ->
  forall row, In row rows ->
    exists d1 d2 s1 s2,
      In d1 data1 /\ In d2 data2 /\
      In s1 (map Address data1) /\ In s2 (map Address data2) /\
      strip (Address d1) = strip s1 /\ strip (Address d2) = strip s2 /\
      row = ((Some (trim_row d1),
              {| address_1 := strip s1; address_2 := Some (strip s2);
                 dist := metric s1 s2 |}),
             Some (trim_row d2)).
Proof.
  intros H [[x p] y] Hrow.
  apply fuzzy_join_ok in H as (fin & Hfin & ->).
  apply data_fin_In in Hrow as (Hb & Hy).
  apply data_both_In in Hb as (r & Hr & -> & Hx).
  destruct (dl_dist_fin_rows _ _ _ _ _ _ Hfin Hr) as (s1 & s2 & H1 & H2 & ->).
  rewrite trim_rec_pair_row in *. cbn [snd address_2 pair_row address_1] in *.
  rewrite strip_app_blank in Hx.
  assert (Hd1 : exists d, In d data1 /\ Address d = s1)
    by (apply in_map_iff in H1 as (d & E & Hd); now exists d).
  assert (Hd2 : exists d, In d data2 /\ Address d = s2)
    by (apply in_map_iff in H2 as (d & E & Hd); now exists d).
  destruct Hx as [[_ Hno]|(d1 & Hin1 & -> & E1)].
  { exfalso. destruct Hd1 as (d & Hd & E). apply (Hno d Hd). now rewrite E. }
  destruct Hy as [[_ Hno]|(d2 & Hin2 & -> & E2)].
  { exfalso. destruct Hd2 as (d & Hd & E). apply (Hno d Hd). now rewrite E. }
  inversion E2 as [E2']. exists d1, d2, s1, s2. repeat split; auto.
Qed.

(** X11 on worked inputs: the second row of the run. *)
Lemma straight_run_leaves_no_nulls_witness :
  exists d1 d2 s1 s2,
    In d1 table1_ex /\ In d2 table2_ex /\
    In s1 (map Address table1_ex) /\ In s2 (map Address table2_ex) /\
    strip (Address d1) = strip s1 /\ strip (Address d2) = strip s2 /\
    ((Some {| Address := "cd"; cols := 2 |},
      {| address_1 := "cd"; address_2 := Some "ce"; dist := 1 |}),
     Some {| Address := "ce"; cols := 6 |})
    = ((Some (trim_row d1),
        {| address_1 := strip s1; address_2 := Some (strip s2);
           dist := dl s1 s2 |}),
       Some (trim_row d2)).
Proof.
  apply (straight_run_leaves_no_nulls stable_argsort dl table1_ex table2_ex
           run_ex).
  - vm_compute. reflexivity.
  - right. left. reflexivity.
Defined.

(** X12.  Every left row meets a best match.  Let the sort of a group
    return its rows in ascending order of [dist].  When the run raises
    nothing, every row of [data1] comes out in [data_fin], trimmed, joined
    to a trimmed row of [data2] whose address, as it stood in the table,
    is at the least distance from the left address as it stood: no address
    of [data2] is nearer. *)
Theorem every_left_row_meets_a_best_match
        {Cols : Type} (argsort : list Z -> list nat)
        (metric : string -> string -> Z)
        (data1 data2 : list (DataRow Cols))
        (rows : list (BothRow Cols * option (DataRow Cols))) :
  is_argsort argsort ->
  fuzzy_join argsort metric data1 data2 = Ok rows ->
  forall d1, In d1 data1 ->
    exists d2,
      In d2 data2 /\
      In ((Some (trim_row d1),
           {| address_1 := strip (Address d1);
              address_2 := Some (strip (Address d2));
              dist := metric (Address d1) (Address d2) |}),
          Some (trim_row d2)) rows /\
      forall d, In d data2 ->
        (metric (Address d1) (Address d2) <= metric (Address d1) (Address d))%Z.
Proof.
  intros Hsort H d1 Hd1.
  apply fuzzy_join_ok in H as (fin & Hfin & ->).
  destruct (dl_dist_fin_best argsort metric _ _ _ (Address d1) Hsort Hfin
              (in_map Address _ _ Hd1)) as (s2 & H2 & Hrec & Hmin).
  apply in_map_iff in H2 as (d2 & <- & Hd2).
  exists d2. split; [exact Hd2|]. split.
  - apply data_fin_In. split.
    + apply data_both_In. exists (pair_row metric (Address d1) (Address d2)).
      split; [exact Hrec|]. split; [now rewrite trim_rec_pair_row|].
      right. exists d1. repeat split; [exact Hd1|].
      cbn [pair_row address_1]. now rewrite strip_app_blank.
    + right. exists d2. repeat split. exact Hd2.
  - intros d Hd. apply Hmin. now apply in_map.
Qed.

(** X12 on worked inputs: the first row of the left table. *)
Lemma every_left_row_meets_a_best_match_witness :
  exists d2,
    In d2 table2_ex /\
    In ((Some {| Address := "ab"; cols := 1 |},
         {| address_1 := "ab";
            address_2 := Some (strip (Address d2));
            dist := dl "ab " (Address d2) |}),
        Some (trim_row d2)) run_ex /\
    forall d, In d table2_ex -> (dl "ab " (Address d2) <= dl "ab " (Address d))%Z.
Proof.
  apply (every_left_row_meets_a_best_match stable_argsort dl
           table1_ex table2_ex run_ex stable_argsort_is_argsort
           ltac:(vm_compute; reflexivity)
           {| Address := "ab "; cols := 1 |}).
  left. reflexivity.
Defined.

(** X13.  [data_both] rearranges [data1].  Let the sort of a group return
    its rows in ascending order of [dist], and let no two different left
    addresses agree once trimmed.  Then [data_both] holds every row of
    [data1], trimmed, exactly once: its left parts are a rearrangement of
    the trimmed table, and it has as many rows. *)
Theorem data_both_rearranges_data1
        {Cols : Type} (argsort : list Z -> list nat)
        (metric : string -> string -> Z)
        (data1 data2 : list (DataRow Cols)) (fin : list ProcRow) :
  is_argsort argsort ->
  (forall a b, In a (map Address data1) -> In b (map Address data1) ->
               strip a = strip b -> a = b) ->
  dl_dist_fin argsort metric (map Address data1) (map Address data2)
  = Ok fin ->
  Permutation (map fst (data_both data1 fin))
              (map Some (strip_Address data1)) /\
  List.length (data_both data1 fin) = List.length data1.
Proof.
  intros Hsort Hinj Hfin.
  assert (Hperm : Permutation (map fst (data_both data1 fin))
                              (map Some (strip_Address data1))).
  { rewrite data_both_flat_map, map_flat_map, strip_Address_map.
    rewrite (flat_map_ext_In _
               (fun r => map Some
                  (filter (fun l => String.eqb (Address l)
                                      (strip (address_1 r)))
                          (map trim_row data1)))).
    - rewrite <- map_flat_map. apply Permutation_map.
      rewrite <- (flat_map_map (fun r => strip (address_1 r))
                    (fun k => filter (fun l => String.eqb (Address l) k)
                                     (map trim_row data1))).
      apply flat_map_filter_perm.
      + apply (NoDup_map_through address_1).
        * destruct (dl_dist_fin_shape _ _ _ _ _ Hfin) as (-> & _).
          apply groupby_apply_NoDup.
        * intros a b Ha Hb E.
          destruct (dl_dist_fin_rows _ _ _ _ _ _ Hfin Ha)
            as (a1 & a2 & Ha1 & _ & ->).
          destruct (dl_dist_fin_rows _ _ _ _ _ _ Hfin Hb)
            as (b1 & b2 & Hb1 & _ & ->).
          cbn [pair_row address_1] in *. rewrite !strip_app_blank in E.
          now rewrite (Hinj a1 b1 Ha1 Hb1 E).
      + intros x Hx. apply in_map_iff in Hx as (d & <- & Hd).
        destruct (dl_dist_fin_best argsort metric _ _ _ (Address d) Hsort Hfin
                    (in_map Address _ _ Hd)) as (s2 & _ & Hrec & _).
        apply in_map_iff. exists (pair_row metric (Address d) s2).
        split; [|exact Hrec]. cbn [pair_row address_1 trim_row Address].
        apply strip_app_blank.
    - intros r Hr.
      destruct (dl_dist_fin_rows _ _ _ _ _ _ Hfin Hr)
        as (s1 & s2 & H1 & _ & ->).
      apply in_map_iff in H1 as (d & E & Hd).
      assert (Hin : In (trim_row d)
                (filter (fun l => String.eqb (Address l)
                                    (strip (address_1 (pair_row metric s1 s2))))
                        (map trim_row data1))).
      { apply filter_trimmed_In. exists d. repeat split; [exact Hd|].
        cbn [pair_row address_1]. now rewrite strip_app_blank, E. }
      destruct (filter _ (map trim_row data1)) as [|l0 met]; [destruct Hin|].
      rewrite map_map. reflexivity. }
  split; [exact Hperm|].
  apply Permutation_length in Hperm.
  now rewrite !length_map, strip_Address_map, length_map in Hperm.
Qed.

(** X13 on worked inputs. *)
Lemma data_both_rearranges_data1_witness :
  Permutation (map fst (data_both table1_ex fin_run_ex))
              (map Some (strip_Address table1_ex)) /\
  List.length (data_both table1_ex fin_run_ex) = List.length table1_ex.
Proof.
  apply (data_both_rearranges_data1 stable_argsort dl table1_ex table2_ex).
  - exact stable_argsort_is_argsort.
  - intros a b [<-|[<-|[]]] [<-|[<-|[]]] E;
      first [reflexivity | vm_compute in E; discriminate].
  - vm_compute. reflexivity.
Defined.

(** ** The trimming cells *)

Import TrimFacts.

(** X14.  Trimming again changes nothing.  The four trimming cells leave
    their columns as a second run of them would: a trimmed text is its own
    trimming.  So the joins give the same [data_fin] when the two tables
    and [dl_dist_fin] have been trimmed before. *)
Theorem trimming_again_changes_nothing
        {Cols : Type} (data1 data2 : list (DataRow Cols))
        (fin : list ProcRow) (both : list (BothRow Cols)) :
  strip_Address (strip_Address data1) = strip_Address data1 /\
  strip_address_1 (strip_address_1 fin) = strip_address_1 fin /\
  strip_address_2 (strip_address_2 both) = strip_address_2 both /\
  data_both (strip_Address data1) (strip_address_1 fin)
  = data_both data1 fin /\
  data_fin (strip_Address data1) (strip_Address data2) (strip_address_1 fin)
  = data_fin data1 data2 fin.
Proof.
  assert (E1 : forall data : list (DataRow Cols),
             strip_Address (strip_Address data) = strip_Address data).
  { intros data. unfold strip_Address. rewrite map_map. apply map_ext.
    intros r. cbn [Address cols]. now rewrite strip_twice. }
  assert (E2 : strip_address_1 (strip_address_1 fin) = strip_address_1 fin).
  { unfold strip_address_1. rewrite map_map. apply map_ext.
    intros r. cbn [address_1 address_2 dist]. now rewrite strip_twice. }
  assert (E3 : strip_address_2 (strip_address_2 both) = strip_address_2 both).
  { unfold strip_address_2. rewrite map_map. apply map_ext.
    intros [x r]. cbn [fst snd address_1 address_2 dist].
    destruct (address_2 r) as [a|]; cbn [option_map]; [|reflexivity].
    now rewrite strip_twice. }
  assert (E4 : data_both (strip_Address data1) (strip_address_1 fin)
               = data_both data1 fin).
  { unfold data_both. now rewrite E1, E2. }
  repeat split; try assumption; [apply E1|].
  unfold data_fin. now rewrite E4, E1.
Qed.

(** ** The columns of the joined table *)

Import Columns ColumnFacts.

(** X15.  The last cell of the join never raises.  The labels it drops are
    taken from the table itself, so [drop] finds them all; the table it
    shows has the columns of [data_fin] whose label ends in neither [_x]
    nor [_y], in their order. *)
Theorem dropping_the_suffixed_columns_never_raises (columns : list string) :
  shown_columns columns
  = Done (filter (fun c => negb (endswith_any ["_x"; "_y"] c)) columns) /\
  forall shown,
    shown_columns columns = Done shown ->
    forall c, In c shown <-> In c columns /\ plain c.
Proof.
  split; [apply shown_columns_filter|].
  intros shown H c. rewrite shown_columns_filter in H. injection H as <-.
  rewrite filter_In. unfold plain, endswith_any. cbn [existsb].
  destruct (endswith "_x" c || (endswith "_y" c || false))%bool;
    cbn [negb]; intuition congruence.
Qed.

(** X16.  Shared columns are shown by neither name.  Let the two tables
    read from file have labels without repetition that end in neither
    [_x] nor [_y], let both have [Address], and let [data1] have none of
    the columns of [dl_dist_fin].  Then the two joins raise nothing;
    [data_fin] has the columns of [data1], the three of [dl_dist_fin] and
    those of [data2], where a label of both sides stands twice, with [_x]
    and with [_y]; and the last cell shows exactly the columns that one
    side alone has.  So [Address] is shown from neither table. *)
Theorem shared_columns_are_not_shown (columns1 columns2 : list string) :
  NoDup columns1 -> NoDup columns2 ->
  Forall plain columns1 -> Forall plain columns2 ->
  In "Address"%string columns1 -> In "Address"%string columns2 ->
  (forall c, In c columns1 -> ~ In c fin_columns) ->
  data_both_columns columns1 = Done (columns1 ++ fin_columns) /\
  data_fin_columns columns1 columns2
  = Done (rename columns2 "_x" (columns1 ++ fin_columns)
          ++ rename (columns1 ++ fin_columns) "_y" columns2) /\
  shown_columns (rename columns2 "_x" (columns1 ++ fin_columns)
                 ++ rename (columns1 ++ fin_columns) "_y" columns2)
  = Done (filter (fun c => negb (mem c columns2)) (columns1 ++ fin_columns)
          ++ filter (fun c => negb (mem c (columns1 ++ fin_columns)))
                    columns2) /\
  In "Address_x"%string
     (rename columns2 "_x" (columns1 ++ fin_columns)
      ++ rename (columns1 ++ fin_columns) "_y" columns2) /\
  In "Address_y"%string
     (rename columns2 "_x" (columns1 ++ fin_columns)
      ++ rename (columns1 ++ fin_columns) "_y" columns2) /\
  ~ In "Address"%string
       (filter (fun c => negb (mem c columns2)) (columns1 ++ fin_columns)
        ++ filter (fun c => negb (mem c (columns1 ++ fin_columns)))
                  columns2).
Proof.
  intros Hn1 Hn2 Hp1 Hp2 Ha1 Ha2 Hdis.
  assert (Hpf : Forall plain fin_columns) by (repeat constructor).
  assert (Hnf : NoDup fin_columns).
  { unfold fin_columns.
    repeat (constructor; [cbn; intuition discriminate|]). constructor. }
  assert (Eboth : data_both_columns columns1 = Done (columns1 ++ fin_columns)).
  { unfold data_both_columns.
    rewrite merge_columns_plain; try assumption;
      [|left; reflexivity].
    rewrite (rename_disjoint fin_columns "_x" columns1 Hdis).
    rewrite (rename_disjoint columns1 "_y" fin_columns); [reflexivity|].
    intros c Hc Hc1. now apply (Hdis c). }
  assert (Hnl : NoDup (columns1 ++ fin_columns)) by (now apply NoDup_app).
  assert (Hpl : Forall plain (columns1 ++ fin_columns))
    by (apply Forall_app; now split).
  split; [exact Eboth|]. split.
  { unfold data_fin_columns. rewrite Eboth.
    apply merge_columns_plain; try assumption.
    apply in_app_iff. right. right. left. reflexivity. }
  split.
  { rewrite shown_columns_filter, filter_app.
    rewrite !filter_plain_rename; auto. }
  split.
  { apply in_app_iff. left. apply rename_In. exists "Address"%string.
    split; [apply in_app_iff; now left|].
    now rewrite (proj2 (mem_In _ _) Ha2). }
  split.
  { apply in_app_iff. right. apply rename_In. exists "Address"%string.
    split; [exact Ha2|].
    rewrite (proj2 (mem_In "Address" (columns1 ++ fin_columns)));
      [reflexivity|]. apply in_app_iff. now left. }
  intros H. apply in_app_iff in H as [H|H]; apply filter_In in H as (_ & H).
  - rewrite (proj2 (mem_In _ _) Ha2) in H. discriminate.
  - rewrite (proj2 (mem_In "Address" (columns1 ++ fin_columns))) in H;
      [discriminate|]. apply in_app_iff. now left.
Qed.

(** X16 on worked inputs: [Address] and [Name] are shared, and the last
    cell shows [Phone], the three columns of [dl_dist_fin] and [City]. *)
Lemma shared_columns_are_not_shown_witness :
  data_fin_columns columns1_ex columns2_ex
  = Done ["Address_x"; "Name_x"; "Phone"; "address_1"; "address_2"; "dist";
          "Name_y"; "Address_y"; "City"]%string /\
  shown_columns ["Address_x"; "Name_x"; "Phone"; "address_1"; "address_2";
                 "dist"; "Name_y"; "Address_y"; "City"]%string
  = Done ["Phone"; "address_1"; "address_2"; "dist"; "City"]%string.
Proof.
  assert (Hn1 : NoDup columns1_ex).
  { unfold columns1_ex.
    repeat (constructor; [cbn; intuition discriminate|]). constructor. }
  assert (Hn2 : NoDup columns2_ex).
  { unfold columns2_ex.
    repeat (constructor; [cbn; intuition discriminate|]). constructor. }
  assert (Hdis : forall c, In c columns1_ex -> ~ In c fin_columns).
  { intros c [<-|[<-|[<-|[]]]]; cbn; intuition discriminate. }
  destruct (shared_columns_are_not_shown columns1_ex columns2_ex Hn1 Hn2
              ltac:(repeat constructor) ltac:(repeat constructor)
              ltac:(left; reflexivity) ltac:(right; left; reflexivity) Hdis)
    as (_ & E1 & E2 & _).
  split; [exact E1 | exact E2].
Defined.

(** ** The cells that show the dicts *)

(** X17.  Showing the parallel result uses it up.  The parallel cell binds
    [dl_dist_par] to a list of one dict, the one a direct call of
    [dl_dist_func] returns.  The cell that shows it takes that dict off
    the list and shows its first ten items; [dl_dist_par] is then empty,
    the notebook-level [dl_dist] is as before, and a second run of the
    cell raises the [IndexError] of [pop] on an empty list. *)
Theorem showing_the_parallel_result_uses_it_up
        (metric : string -> string -> Z) (g : Globals)
        (data1 data2 : list string) :
  exists g',
    cell_show_dl_dist_par (cell_dl_dist_par metric g data1 data2)
    = Done (head 10 (dl_dist_func metric data1 data2), g') /\
    g_dl_dist_par g' = [] /\
    g_dl_dist g' = g_dl_dist g /\
    cell_show_dl_dist_par g' = Fails IndexError_pop_from_empty_list.
Proof.
  eexists. split; [reflexivity|]. repeat split.
Qed.

(** ** The order of the left column *)

Import OrderFacts.

(** X18.  The left column counts as a set.  Take columns of texts that hold
    no separator, and two left columns with the same texts, in any order
    and with any repetitions.  Then the selection returns for both, with
    the same records; and when the right column has at least two
    different texts, the two tables [dl_dist_fin] are equal row by row.
    This holds whatever order the sort returns. *)
Theorem left_column_counts_as_a_set
        (argsort : list Z -> list nat) (metric : string -> string -> Z)
        (arr1 arr1' arr2 : list string) :
  arr1 <> [] -> arr2 <> [] -> Forall clean arr1 -> Forall clean arr2 ->
  (forall s, In s arr1 <-> In s arr1') ->
  exists recs recs',
    dl_dist_fin argsort metric arr1 arr2 = Ok recs /\
    dl_dist_fin argsort metric arr1' arr2 = Ok recs' /\
    Permutation recs recs' /\
    (2 <= List.length (unique arr2) -> recs = recs').
Proof.
  intros Hn1 Hn2 Hc1 Hc2 Hel.
  assert (Hn1' : arr1' <> []).
  { destruct arr1 as [|s l]; [congruence|]. intros ->.
    apply (proj1 (Hel s)). now left. }
  assert (Hc1' : Forall clean arr1').
  { rewrite Forall_forall in *. intros s Hs. apply Hc1. now apply Hel. }
  assert (Helu : forall s, In s (unique arr1) <-> In s (unique arr1')).
  { intros s. rewrite !unique_In. apply Hel. }
  pose proof (unique_NoDup arr1) as Hu. pose proof (unique_NoDup arr1') as Hu'.
  pose proof (unique_nonempty arr1 Hn1) as Hnu.
  pose proof (unique_nonempty arr1' Hn1') as Hnu'.
  pose proof (unique_nonempty arr2 Hn2) as Hnr.
  eexists. eexists.
  split; [now apply dl_dist_fin_clean|].
  split; [now apply dl_dist_fin_clean|].
  assert (Heq : 2 <= List.length (unique arr2) ->
                groupby_apply argsort
                  (cross_rows metric (unique arr1) (unique arr2))
                = groupby_apply argsort
                    (cross_rows metric (unique arr1') (unique arr2))).
  { intros H2. now apply groupby_apply_cross_set. }
  split; [|exact Heq].
  destruct (unique arr2) as [|r [|r' rs]] eqn:Er; [congruence| |].
  - unfold groupby_apply.
    rewrite !transform_like_cross by (assumption || discriminate).
    cbn [List.length Nat.eqb]. unfold cross_rows.
    assert (Hp : Permutation (unique arr1) (unique arr1'))
      by (now apply NoDup_Permutation).
    apply Permutation_flat_map. exact Hp.
  - rewrite Heq; [reflexivity | cbn; lia].
Qed.

(** X18 on worked inputs. *)
Lemma left_column_counts_as_a_set_witness :
  exists recs recs',
    dl_dist_fin stable_argsort dl left_ex right_ex = Ok recs /\
    dl_dist_fin stable_argsort dl ["2 Elm"; "1 Oak"] right_ex = Ok recs' /\
    Permutation recs recs' /\
    (2 <= List.length (unique right_ex) -> recs = recs').
Proof.
  apply (left_column_counts_as_a_set stable_argsort dl
           left_ex ["2 Elm"; "1 Oak"] right_ex).
  - discriminate.
  - discriminate.
  - repeat constructor.
  - repeat constructor.
  - intros s. cbn. intuition.
Defined.

(** ** The order of the right column *)

Import RightOrderFacts.

(** X19.  The distances ignore the order of the right column.  Let the
    sort of a group return its rows in ascending order of [dist].  Take two
    right columns with the same texts, in any order and with any
    repetitions.  When the selection returns for both, the two tables
    [dl_dist_fin] agree row by row in [address_1] and in [dist]; only the
    matched text of a row can differ, between texts at the same least
    distance. *)
Theorem distances_ignore_the_right_order
        (argsort : list Z -> list nat) (metric : string -> string -> Z)
        (arr1 arr2 arr2' : list string) (recs recs' : list ProcRow) :
  is_argsort argsort ->
  (forall s, In s arr2 <-> In s arr2') ->
  dl_dist_fin argsort metric arr1 arr2 = Ok recs ->
  dl_dist_fin argsort metric arr1 arr2' = Ok recs' ->
  map (fun r => (address_1 r, dist r)) recs
  = map (fun r => (address_1 r, dist r)) recs'.
Proof.
  intros Hsort Hel H H'. apply same_keys_same_dist.
  - exact (dl_dist_fin_keys_right argsort metric Hsort _ _ _ _ _ Hel H H').
  - intros r r' Hr Hr' Ek.
    destruct (dl_dist_fin_min_row argsort metric Hsort _ _ _ _ H Hr)
      as (s1 & s2 & _ & H2 & -> & Hmin).
    destruct (dl_dist_fin_min_row argsort metric Hsort _ _ _ _ H' Hr')
      as (t1 & t2 & _ & H2' & -> & Hmin').
    cbn [pair_row address_1 dist] in *. apply append_blank_inj in Ek.
    subst t1. apply Z.le_antisymm.
    + apply Hmin. now apply Hel.
    + apply Hmin'. now apply Hel.
Qed.

(** X19 on worked inputs: "ab" and "ac" are both one edit from "aa", and
    the matched text follows the order of the right column. *)
Lemma distances_ignore_the_right_order_witness :
  map (fun r => (address_1 r, dist r))
      [ {| address_1 := "aa "; address_2 := Some " ab"; dist := 1 |} ]
  = map (fun r => (address_1 r, dist r))
      [ {| address_1 := "aa "; address_2 := Some " ac"; dist := 1 |} ].
Proof.
  apply (distances_ignore_the_right_order stable_argsort dl
           ["aa"] ["ab"; "ac"] ["ac"; "ab"]).
  - exact stable_argsort_is_argsort.
  - intros s. cbn. intuition.
  - vm_compute. reflexivity.
  - vm_compute. reflexivity.
Defined.

(** ** The split of the key *)

Import SplitFacts.

(** X20.  The pieces of a key.  The split of any text at the separator
    gives at least one piece, no piece holds the separator, and the pieces
    joined by the separator give the text back.  So the column [address_1]
    of the tidied table never holds the separator, whatever the texts
    were. *)
Theorem split_pieces_join_back (kv : string * Z) :
  split sep (fst kv) <> [] /\
  Forall clean (split sep (fst kv)) /\
  String.concat sep (split sep (fst kv)) = fst kv /\
  clean (address_1 (proc_row kv)).
Proof.
  pose proof (split_nonempty sep (fst kv) sep_nonempty) as Hne.
  destruct (split_pieces sep _ sep_nonempty (fst kv) (Nat.le_refl _))
    as (Ec & Hall).
  repeat split; try assumption.
  unfold proc_row. cbn [address_1].
  destruct (split sep (fst kv)) as [|b rest]; [congruence|].
  inversion Hall; subst. assumption.
Qed.

(** ** The run from the scoring cell *)

Import WholeCellFacts.

(** X21.  The run and the selection on the loops' dict.  A run from the
    scoring cell returns a table exactly when [dl_dist_fin], computed from
    the dict of the loops, does, and then the same table: on columns that
    have rows the first statement of the scoring cell raises nothing and
    binds nothing.  The run stops in the tidying cells exactly when both
    columns have rows and [dl_dist_fin] raises, with the same error.  It
    stops in the scoring cell exactly when a column has no row, with the
    [KeyError] of the missing first row. *)
Theorem run_returns_what_dl_dist_fin_does
        (argsort : list Z -> list nat) (metric : string -> string -> Z)
        (g : Globals) (arr1 arr2 : list string) :
  (forall recs,
      run_dl_dist_fin argsort metric g arr1 arr2 = Completes recs <->
      dl_dist_fin argsort metric arr1 arr2 = Ok recs) /\
  (forall e,
      run_dl_dist_fin argsort metric g arr1 arr2 = Stops_in_tables e <->
      arr1 <> [] /\ arr2 <> [] /\
      dl_dist_fin argsort metric arr1 arr2 = Raise e) /\
  (forall e,
      run_dl_dist_fin argsort metric g arr1 arr2 = Stops_in_scoring e <->
      (arr1 = [] \/ arr2 = []) /\ e = KeyError).
Proof.
  destruct (run_dl_dist_fin_cases argsort metric g arr1 arr2)
    as [(Hn1 & Hn2 & E)|(He & E & Efin)]; rewrite E.
  - destruct (dl_dist_fin argsort metric arr1 arr2) as [recs0|e0];
      repeat split; try congruence; try tauto;
      try (intros; intuition congruence).
  - rewrite Efin. repeat split; try congruence; try tauto;
      try (intros; intuition congruence).
Qed.
